(** * ioc-server: the URTP receive path, the PCM timeline and the HLS publisher

    A shallow embedding of the Go sources [audio-in.go], [audio-process.go]
    and [audio-out.go] of the Internet of Chuffs server, and the properties
    of its natural-language specification proved (or refuted) on it.

    Conventions of the embedding:
    - a Go [byte] is a [Byte.byte]; [u8] gives its value and [to_byte] is the
      truncating conversion [byte(x)];
    - Go's [int16], [uint16] and [int] are integers of [Z] with the
      wrap-around of each operation written out ([int16], [uint16], [int64]);
      sums of slice lengths, indices and loop counters, which never leave
      the range of [int], are written without it;
    - a slice is a [list]; indexing and [make] are checked and a failing
      check is a run-time panic, a value of [GoPanic];
    - a nil-able pointer is an [option];
    - package-level variables are threaded explicitly. *)

From Stdlib Require Import ZArith List Lia Bool.
From Stdlib Require Import Init.Byte Strings.Byte Strings.String.
From Stdlib Require Floats.SpecFloat.
Local Open Scope string_scope.
From stdpp Require Import base list.
Import ListNotations.

Local Open Scope Z_scope.

(* ------------------------------------------------------------------ *)
(** ** Run-time panics and the result monad *)

Inductive GoPanic : Type :=
| IndexOutOfRange (index len : Z)
| SliceBoundsOutOfRange (bound : Z)
| NilDereference
| MakeSliceLenOutOfRange (len : Z)
| IntegerDivideByZero.

Inductive Result (A : Type) : Type :=
| Ok (a : A)
| Panic (p : GoPanic).
Arguments Ok {A} a.
Arguments Panic {A} p.

Definition bind {A B : Type} (m : Result A) (k : A -> Result B) : Result B :=
  match m with
  | Ok a => k a
  | Panic p => Panic p
  end.

Notation "'do' x <- m ; k" := (bind m (fun x => k))
  (at level 10, x name, m at level 100, k at level 200).
Notation "'do' ' p <- m ; k" := (bind m (fun x => let 'p := x in k))
  (at level 10, p pattern, m at level 100, k at level 200).

(** [n] iterations of a loop body over a counter that starts at [x] and is
    incremented by one: Go's [for x := x0; x < x0 + n; x++]. *)
Fixpoint for_loop {S : Type} (n : nat) (x : Z) (body : Z -> S -> Result S) (s : S)
  : Result S :=
  match n with
  | O => Ok s
  | Datatypes.S n' => do s' <- body x s; for_loop n' (x + 1) body s'
  end.

(* ------------------------------------------------------------------ *)
(** ** Machine integers, bytes and slices *)

Definition u8 (b : byte) : Z := Z.of_N (Byte.to_N b).

(** Go's [byte(x)]: the low eight bits. *)
Definition to_byte (z : Z) : byte :=
  match Byte.of_N (Z.to_N (z mod 256)) with
  | Some b => b
  | None => x00
  end.

Definition uint16 (z : Z) : Z := z mod 65536.
Definition int16 (z : Z) : Z := (z + 32768) mod 65536 - 32768.
Definition int64 (z : Z) : Z := (z + 2 ^ 63) mod 2 ^ 64 - 2 ^ 63.

Definition len {A : Type} (l : list A) : Z := Z.of_nat (length l).

(** [s[i]], panicking outside [0 <= i < len(s)]. *)
Definition index {A : Type} (s : list A) (i : Z) : Result A :=
  if (0 <=? i) && (i <? len s) then
    match s !! Z.to_nat i with
    | Some a => Ok a
    | None => Panic (IndexOutOfRange i (len s))
    end
  else Panic (IndexOutOfRange i (len s)).

(** [s[i] = v], panicking outside [0 <= i < len(s)]. *)
Definition store {A : Type} (s : list A) (i : Z) (v : A) : Result (list A) :=
  if (0 <=? i) && (i <? len s) then Ok (<[Z.to_nat i := v]> s)
  else Panic (IndexOutOfRange i (len s)).

(** [make([]T, n)] with the zero value [z] of [T]. *)
Definition make {A : Type} (z : A) (n : Z) : Result (list A) :=
  if n <? 0 then Panic (MakeSliceLenOutOfRange n) else Ok (replicate (Z.to_nat n) z).

(** [*p] of a pointer that may be nil. *)
Definition deref {A : Type} (p : option A) : Result A :=
  match p with
  | Some a => Ok a
  | None => Panic NilDereference
  end.

(* ------------------------------------------------------------------ *)
(** ** audio-in.go: constants *)

Definition BLOCK_DURATION_MS : Z := 20.
Definition SAMPLING_FREQUENCY : Z := 16000.
Definition SAMPLES_PER_BLOCK : Z := SAMPLING_FREQUENCY * BLOCK_DURATION_MS ÷ 1000.
Definition SAMPLES_PER_UNICAM_BLOCK : Z := SAMPLING_FREQUENCY ÷ 1000.
Definition UNICAM_CODED_SHIFT_SIZE_BITS : Z := 4.
Definition SYNC_BYTE : byte := x5a.
Definition URTP_TIMESTAMP_SIZE : Z := 8.
Definition URTP_SEQUENCE_NUMBER_SIZE : Z := 2.
Definition URTP_PAYLOAD_SIZE_SIZE : Z := 2.
Definition URTP_HEADER_SIZE : Z := 14.
Definition URTP_SAMPLE_SIZE : Z := 2.
Definition URTP_DATAGRAM_MAX_SIZE : Z :=
  URTP_HEADER_SIZE + SAMPLES_PER_BLOCK * URTP_SAMPLE_SIZE.
Definition URTP_NUM_BYTES_AUDIO_OFFSET : Z := 12.
Definition PCM_SIGNED_16_BIT : Z := 0.
Definition UNICAM_COMPRESSED_8_BIT : Z := 1.
Definition MAX_NUM_AUDIO_CODING_SCHEMES : Z := 2.

(** The largest payload of a URTP record, as the data model of the
    specification gives it: 20 ms of 16-bit samples at 16 kHz. *)
Definition URTP_PAYLOAD_MAX_SIZE : Z := SAMPLES_PER_BLOCK * URTP_SAMPLE_SIZE.

(* ------------------------------------------------------------------ *)
(** ** audio-in.go: [decodePcm] *)

(** The body of [for y := range audio]; [x] is threaded with the slice. *)
Definition decodePcm_body (audioDataPcm : list byte) (y : Z) (st : Z * list Z)
  : Result (Z * list Z) :=
  let '(x, audio) := st in
  do hi <- index audioDataPcm x;
  do lo <- index audioDataPcm (x + 1);
  do audio' <- store audio y (int16 (int16 (Z.shiftl (int16 (u8 hi)) 8) + int16 (u8 lo)));
  Ok (x + 2, audio').

Definition decodePcm (audioDataPcm : list byte) : Result (list Z) :=
  do audio <- make 0 (len audioDataPcm ÷ URTP_SAMPLE_SIZE);
  do '(_, audio') <- for_loop (length audio) 0 (decodePcm_body audioDataPcm) (0, audio);
  Ok audio'.

(** The inverse the specification speaks of: samples written as big-endian
    byte pairs. *)
Definition encode_be (audio : list Z) : list byte :=
  flat_map (fun s => [to_byte (Z.shiftr s 8); to_byte s]) audio.

(** The sample a big-endian byte pair stands for: its 16-bit value read as
    a two's-complement number. *)
Definition pcmSample (hi lo : byte) : Z := int16 (u8 hi * 256 + u8 lo).

Fixpoint pcmSamples (payload : list byte) : list Z :=
  match payload with
  | hi :: lo :: rest => pcmSample hi lo :: pcmSamples rest
  | _ => []
  end.


(* ------------------------------------------------------------------ *)
(** ** audio-in.go: [decodeUnicam] *)

Definition uint64 (z : Z) : Z := z mod 2 ^ 64.

(** [x << s] at type [int16], for an unsigned shift count [s]. *)
Definition shl16 (x s : Z) : Z := if s <? 16 then int16 (Z.shiftl x s) else 0.

(** The FIR filters [Fir] and [DeSquealFir] of the repository are not among
    the sources at hand; [decodeUnicam] is embedded over any implementation
    of them.  [FirPut] pushes a sample, [FirGet] reads the filtered value;
    both may change the filter. *)
Class FirModel : Type := {
  float32 : Type;
  Fir : Type;
  DeSquealFir : Type;
  float32_of_int16 : Z -> float32;
  int16_of_float32 : float32 -> Z;
  FirPut : Fir -> float32 -> Fir;
  FirGet : Fir -> Fir * float32;
  DeSquealFirPut : DeSquealFir -> float32 -> DeSquealFir;
  DeSquealFirGet : DeSquealFir -> DeSquealFir * float32
}.

(** A filter pair that passes every sample through unchanged, for running
    the decoder on concrete payloads. *)
Definition passThroughFir : FirModel := {|
  float32 := Z;
  Fir := Z;
  DeSquealFir := Z;
  float32_of_int16 := fun z => z;
  int16_of_float32 := int16;
  FirPut := fun _ v => v;
  FirGet := fun f => (f, f);
  DeSquealFirPut := fun _ v => v;
  DeSquealFirGet := fun f => (f, f)
|}.

(** The loop [for x := 0; x < limit; x += step { numBlocks++ }]. *)
Fixpoint countBlocks (fuel : nat) (x limit step numBlocks : Z) : Z :=
  match fuel with
  | O => numBlocks
  | S fuel' =>
      if x <? limit then countBlocks fuel' (x + step) limit step (numBlocks + 1)
      else numBlocks
  end.

Section Unicam.
Context {FM : FirModel}.

(** The package-level variables [deemphasis] and [desqueal]. *)
Record Filters : Type := {
  deemphasis : Fir;
  desqueal : DeSquealFir
}.

(** The local variables of [decodeUnicam] that its block loop changes. *)
Record UnicamVars : Type := {
  audio : list Z;
  blockOffset : Z;
  shiftValues : byte;
  shift : Z;
  peakShift : Z;
  sourceIndex : Z;
  filters : Filters
}.

(** First inner loop: the compressed values of one block. *)
Definition unicamCopy (audioDataUnicam : list byte) (x : Z) (v : UnicamVars)
  : Result UnicamVars :=
  do b <- index audioDataUnicam (sourceIndex v);
  do audio' <- store (audio v) (blockOffset v + x) (int16 (u8 b));
  Ok {| audio := audio'; blockOffset := blockOffset v; shiftValues := shiftValues v;
        shift := shift v; peakShift := peakShift v;
        sourceIndex := sourceIndex v + 1; filters := filters v |}.

(** The shift value of block [blockCount]: a fresh byte for an even block,
    the high nibble of the last one for an odd block. *)
Definition unicamShift (audioDataUnicam : list byte) (blockCount : Z) (v : UnicamVars)
  : Result UnicamVars :=
  do '(sv, sh, si) <-
    (if Z.land blockCount 1 =? 0 then
       do b <- index audioDataUnicam (sourceIndex v);
       Ok (b, Z.land (u8 b) 15, sourceIndex v + 1)
     else Ok (shiftValues v, Z.shiftr (u8 (shiftValues v)) 4, sourceIndex v));
  Ok {| audio := audio v; blockOffset := blockOffset v; shiftValues := sv;
        shift := sh; peakShift := (if peakShift v <? sh then sh else peakShift v);
        sourceIndex := si; filters := filters v |}.

(** Sign extension of a [sampleSizeBits]-bit value held in an [int16]. *)
Definition signExtend (sampleSizeBits : Z) (sample : Z) : Result Z :=
  if negb (Z.land sample (shl16 1 (uint64 (uint64 sampleSizeBits - 1))) =? 0) then
    for_loop (Z.to_nat (URTP_SAMPLE_SIZE * 8 - uint64 sampleSizeBits))
             (uint64 sampleSizeBits)
             (fun y s => Ok (Z.lor s (shl16 1 y))) sample
  else Ok sample.

(** Second inner loop: uncompress one value and pass it through the two
    filters on its way into the audio slice. *)
Definition unicamExpand (sampleSizeBits : Z) (x : Z) (v : UnicamVars)
  : Result UnicamVars :=
  do sample0 <- index (audio v) (blockOffset v + x);
  do sample <- signExtend sampleSizeBits sample0;
  let d := FirPut (deemphasis (filters v)) (float32_of_int16 (shl16 sample (shift v))) in
  let '(d', fv) := FirGet d in
  let q := DeSquealFirPut (desqueal (filters v)) fv in
  let '(q', qv) := DeSquealFirGet q in
  do audio' <- store (audio v) (blockOffset v + x) (int16_of_float32 qv);
  Ok {| audio := audio'; blockOffset := blockOffset v; shiftValues := shiftValues v;
        shift := shift v; peakShift := peakShift v; sourceIndex := sourceIndex v;
        filters := {| deemphasis := d'; desqueal := q' |} |}.

(** One pass of [for blockCount < numBlocks]. *)
Definition unicamBlock (audioDataUnicam : list byte) (sampleSizeBits : Z)
    (blockCount : Z) (v : UnicamVars) : Result UnicamVars :=
  do v1 <- for_loop (Z.to_nat SAMPLES_PER_UNICAM_BLOCK) 0 (unicamCopy audioDataUnicam) v;
  do v2 <- unicamShift audioDataUnicam blockCount v1;
  do v3 <- for_loop (Z.to_nat SAMPLES_PER_UNICAM_BLOCK) 0 (unicamExpand sampleSizeBits) v2;
  Ok {| audio := audio v3; blockOffset := blockOffset v3 + SAMPLES_PER_UNICAM_BLOCK;
        shiftValues := shiftValues v3; shift := shift v3; peakShift := peakShift v3;
        sourceIndex := sourceIndex v3; filters := filters v3 |}.

Definition unicamNumBlocks (audioDataUnicam : list byte) (sampleSizeBits : Z) : Z :=
  countBlocks (Z.to_nat (len audioDataUnicam * 8)) 0 (len audioDataUnicam * 8)
    (SAMPLES_PER_UNICAM_BLOCK * sampleSizeBits + UNICAM_CODED_SHIFT_SIZE_BITS) 0.

(** [decodeUnicam]; the block loop runs [blockCount] from 0 to
    [numBlocks - 1].  The result is the audio slice and the filters as the
    call leaves them. *)
Definition decodeUnicam (audioDataUnicam : list byte) (sampleSizeBits : Z)
    (f : Filters) : Result (list Z * Filters) :=
  let numBlocks := unicamNumBlocks audioDataUnicam sampleSizeBits in
  do audio0 <- make 0 (numBlocks * SAMPLES_PER_UNICAM_BLOCK);
  do v <- for_loop (Z.to_nat numBlocks) 0 (unicamBlock audioDataUnicam sampleSizeBits)
            {| audio := audio0; blockOffset := 0; shiftValues := x00; shift := 0;
               peakShift := 0; sourceIndex := 0; filters := f |};
  Ok (audio v, filters v).

End Unicam.

(* ------------------------------------------------------------------ *)
(** ** audio-in.go: URTP datagrams *)

(** [Audio] is a pointer in the source: [None] is the nil pointer of a
    record whose payload was absent or not decoded. *)
Record UrtpDatagram : Type := {
  SequenceNumber : Z;
  Timestamp : Z;
  Audio : option (list Z)
}.

Record TcpReassemblyData : Type := {
  State : Z;
  ByteCount : Z;
  PayloadSize : Z;
  Header : list byte;
  Datagram : list byte
}.

Definition URTP_STATE_WAITING_SYNC : Z := 0.
Definition URTP_STATE_WAITING_AUDIO_CODING : Z := 1.
Definition URTP_STATE_WAITING_SEQUENCE_NUMBER : Z := 2.
Definition URTP_STATE_WAITING_TIMESTAMP : Z := 3.
Definition URTP_STATE_WAITING_PAYLOAD_SIZE : Z := 4.
Definition URTP_STATE_WAITING_PAYLOAD : Z := 5.

(** [v << s] at type [uint], for an unsigned shift count [s]. *)
Definition shl64 (v s : Z) : Z := if s <? 64 then uint64 (Z.shiftl v s) else 0.

(** [verifyUrtpHeader]; the log lines are left out. *)
Definition verifyUrtpHeader (header : list byte) : Result bool :=
  if URTP_HEADER_SIZE <=? len header then
    do h0 <- index header 0;
    if Byte.eqb h0 SYNC_BYTE then
      do h1 <- index header 1;
      if u8 h1 <? MAX_NUM_AUDIO_CODING_SCHEMES then
        do hi <- index header URTP_NUM_BYTES_AUDIO_OFFSET;
        do lo <- index header (URTP_NUM_BYTES_AUDIO_OFFSET + 1);
        let bytesOfPayload := Z.shiftl (u8 hi) 8 + u8 lo in
        if bytesOfPayload <=? URTP_DATAGRAM_MAX_SIZE then Ok true else Ok false
      else Ok false
    else Ok false
  else Ok false.

(** The payload size a header declares: its last two bytes, big-endian. *)
Definition declaredPayloadSize (header : list byte) : Z :=
  match header !! 12%nat, header !! 13%nat with
  | Some hi, Some lo => Z.shiftl (u8 hi) 8 + u8 lo
  | _, _ => 0
  end.

Section Ingest.
Context {FM : FirModel}.

(** The package-level state of the receive path: the TCP byte buffer, the
    two filters, and the records sent on [ProcessDatagramsChannel] so far,
    oldest first. *)
Record Ingest : Type := {
  tcpBuffer : list byte;
  firs : Filters;
  ProcessDatagramsChannel : list UrtpDatagram
}.

(** [handleUrtpDatagram]: returns the timing datagram. *)
Definition handleUrtpDatagram (packet : list byte) (g : Ingest)
  : Result (list byte * Ingest) :=
  if URTP_HEADER_SIZE <=? len packet then
    do p0 <- index packet 0;
    do audioCodingScheme <- index packet 1;
    do p2 <- index packet 2;
    do p3 <- index packet 3;
    do p4 <- index packet 4;
    do p5 <- index packet 5;
    do p6 <- index packet 6;
    do p7 <- index packet 7;
    do p8 <- index packet 8;
    do p9 <- index packet 9;
    do p10 <- index packet 10;
    do p11 <- index packet 11;
    let sequenceNumber := uint16 (uint16 (Z.shiftl (u8 p2) 8) + u8 p3) in
    let timestamp :=
      uint64 (shl64 (u8 p4) 56 + shl64 (u8 p5) 48 + shl64 (u8 p6) 40 + shl64 (u8 p7) 32
              + shl64 (u8 p8) 24 + shl64 (u8 p9) 16 + shl64 (u8 p10) 8 + u8 p11) in
    do '(audio, firs') <-
      (if URTP_HEADER_SIZE <? len packet then
         if u8 audioCodingScheme =? PCM_SIGNED_16_BIT then
           do a <- decodePcm (drop (Z.to_nat URTP_HEADER_SIZE) packet);
           Ok (Some a, firs g)
         else if u8 audioCodingScheme =? UNICAM_COMPRESSED_8_BIT then
           do '(a, f) <- decodeUnicam (drop (Z.to_nat URTP_HEADER_SIZE) packet) 8 (firs g);
           Ok (Some a, f)
         else Ok (None, firs g)
       else Ok (None, firs g));
    let urtpDatagram :=
      {| SequenceNumber := sequenceNumber; Timestamp := timestamp; Audio := audio |} in
    let timingDatagram := [p0; p2; p3; p4; p5; p6; p7; p8; p9; p10; p11] in
    Ok (timingDatagram,
        {| tcpBuffer := tcpBuffer g; firs := firs';
           ProcessDatagramsChannel := ProcessDatagramsChannel g ++ [urtpDatagram] |})
  else Ok ([], g).

(** One pass of the read loop of [udpServer] on a received packet: the
    read fills [line], of [URTP_DATAGRAM_MAX_SIZE] bytes, and what does not
    fit is lost.  The timing echo is returned, not sent.  (A read of no
    bytes ends the loop of the source; here it delivers nothing.) *)
Definition udpServer_packet (packet : list byte) (g : Ingest)
  : Result (list byte * Ingest) :=
  let line := take (Z.to_nat URTP_DATAGRAM_MAX_SIZE) packet in
  let numBytesIn := len line in
  if URTP_HEADER_SIZE <=? numBytesIn then
    do isHeader <- verifyUrtpHeader (take (Z.to_nat URTP_HEADER_SIZE) line);
    if isHeader then handleUrtpDatagram line g else Ok ([], g)
  else Ok ([], g).

Definition resetHeader (r : TcpReassemblyData) (byteCount payloadSize : Z)
  : TcpReassemblyData :=
  {| State := URTP_STATE_WAITING_SYNC; ByteCount := byteCount;
     PayloadSize := payloadSize; Header := []; Datagram := Datagram r |}.

Definition headerByte (r : TcpReassemblyData) (item : byte) (state byteCount : Z)
  : TcpReassemblyData :=
  {| State := state; ByteCount := byteCount; PayloadSize := PayloadSize r;
     Header := Header r ++ [item]; Datagram := Datagram r |}.

(** The body of the read loop of [handleUrtpStream] for the byte [item]
    just read; [tcpBuffer g] is what follows it. *)
Definition handleUrtpStream_step (item : byte) (r : TcpReassemblyData)
    (timingDatagram : list byte) (g : Ingest)
  : Result (TcpReassemblyData * list byte * Ingest) :=
  if State r =? URTP_STATE_WAITING_SYNC then
    if Byte.eqb item SYNC_BYTE then
      Ok (headerByte r item URTP_STATE_WAITING_AUDIO_CODING (ByteCount r), timingDatagram, g)
    else Ok (resetHeader r (ByteCount r) (PayloadSize r), timingDatagram, g)
  else if State r =? URTP_STATE_WAITING_AUDIO_CODING then
    if u8 item <? MAX_NUM_AUDIO_CODING_SCHEMES then
      Ok (headerByte r item URTP_STATE_WAITING_SEQUENCE_NUMBER (ByteCount r), timingDatagram, g)
    else Ok (resetHeader r (ByteCount r) (PayloadSize r), timingDatagram, g)
  else if State r =? URTP_STATE_WAITING_SEQUENCE_NUMBER then
    let byteCount := ByteCount r + 1 in
    if URTP_SEQUENCE_NUMBER_SIZE <=? byteCount then
      Ok (headerByte r item URTP_STATE_WAITING_TIMESTAMP 0, timingDatagram, g)
    else Ok (headerByte r item (State r) byteCount, timingDatagram, g)
  else if State r =? URTP_STATE_WAITING_TIMESTAMP then
    let byteCount := ByteCount r + 1 in
    if URTP_TIMESTAMP_SIZE <=? byteCount then
      Ok (headerByte r item URTP_STATE_WAITING_PAYLOAD_SIZE 0, timingDatagram, g)
    else Ok (headerByte r item (State r) byteCount, timingDatagram, g)
  else if State r =? URTP_STATE_WAITING_PAYLOAD_SIZE then
    let header := Header r ++ [item] in
    let payloadSize :=
      int64 (PayloadSize r
             + int64 (shl64 (u8 item)
                        (uint64 (8 * (URTP_PAYLOAD_SIZE_SIZE - ByteCount r - 1))))) in
    let byteCount := ByteCount r + 1 in
    if URTP_PAYLOAD_SIZE_SIZE <=? byteCount then
      if payloadSize <=? URTP_DATAGRAM_MAX_SIZE then
        if payloadSize =? 0 then
          Ok ({| State := URTP_STATE_WAITING_SYNC; ByteCount := 0;
                 PayloadSize := payloadSize; Header := [];
                 Datagram := Datagram r ++ header |}, timingDatagram, g)
        else
          Ok ({| State := URTP_STATE_WAITING_PAYLOAD; ByteCount := 0;
                 PayloadSize := payloadSize; Header := header;
                 Datagram := Datagram r ++ header |}, timingDatagram, g)
      else
        Ok ({| State := URTP_STATE_WAITING_SYNC; ByteCount := 0; PayloadSize := 0;
               Header := []; Datagram := Datagram r |}, timingDatagram, g)
    else
      Ok ({| State := State r; ByteCount := byteCount; PayloadSize := payloadSize;
             Header := header; Datagram := Datagram r |}, timingDatagram, g)
  else if State r =? URTP_STATE_WAITING_PAYLOAD then
    let datagram1 := Datagram r ++ [item] in
    let payloadSize1 := if 0 <? PayloadSize r then PayloadSize r - 1 else PayloadSize r in
    let bytesToRead :=
      if payloadSize1 <? len (tcpBuffer g) then payloadSize1 else len (tcpBuffer g) in
    if bytesToRead <? 0 then Panic (SliceBoundsOutOfRange bytesToRead) else
    let datagram2 := datagram1 ++ take (Z.to_nat bytesToRead) (tcpBuffer g) in
    let g1 := {| tcpBuffer := drop (Z.to_nat bytesToRead) (tcpBuffer g); firs := firs g;
                 ProcessDatagramsChannel := ProcessDatagramsChannel g |} in
    let payloadSize2 := payloadSize1 - bytesToRead in
    if payloadSize2 =? 0 then
      do '(timingDatagram', g2) <- handleUrtpDatagram datagram2 g1;
      Ok ({| State := URTP_STATE_WAITING_SYNC; ByteCount := ByteCount r;
             PayloadSize := payloadSize2; Header := []; Datagram := [] |},
          timingDatagram', g2)
    else
      Ok ({| State := State r; ByteCount := ByteCount r; PayloadSize := payloadSize2;
             Header := Header r; Datagram := datagram2 |}, timingDatagram, g1)
  else
    Ok ({| State := URTP_STATE_WAITING_SYNC; ByteCount := 0; PayloadSize := 0;
           Header := []; Datagram := Datagram r |}, timingDatagram, g).

(** The read loop: one pass per [tcpBuffer.ReadByte()] that succeeds.  Each
    pass takes at least one byte, so [fuel] as large as the buffer runs the
    loop to its end. *)
Fixpoint handleUrtpStream_loop (fuel : nat) (r : TcpReassemblyData)
    (timingDatagram : list byte) (g : Ingest)
  : Result (TcpReassemblyData * list byte * Ingest) :=
  match fuel with
  | O => Ok (r, timingDatagram, g)
  | S fuel' =>
      match tcpBuffer g with
      | [] => Ok (r, timingDatagram, g)
      | item :: rest =>
          do '(r', timingDatagram', g') <-
            handleUrtpStream_step item r timingDatagram
              {| tcpBuffer := rest; firs := firs g;
                 ProcessDatagramsChannel := ProcessDatagramsChannel g |};
          handleUrtpStream_loop fuel' r' timingDatagram' g'
      end
  end.

Definition handleUrtpStream (reassemblyData : TcpReassemblyData) (data : list byte)
    (g : Ingest) : Result (TcpReassemblyData * list byte * Ingest) :=
  let g1 := {| tcpBuffer := tcpBuffer g ++ data; firs := firs g;
               ProcessDatagramsChannel := ProcessDatagramsChannel g |} in
  handleUrtpStream_loop (length (tcpBuffer g1)) reassemblyData [] g1.

(** The reassembly data a new TCP connection starts from. *)
Definition newReassemblyData : TcpReassemblyData :=
  {| State := URTP_STATE_WAITING_SYNC; ByteCount := 0; PayloadSize := 0;
     Header := []; Datagram := [] |}.

End Ingest.

(* ------------------------------------------------------------------ *)
(** ** audio-process.go: the PCM timeline *)

Definition NUM_PROCESSED_DATAGRAMS : Z := 1.
Definition MAX_GAP_FILL_MILLISECONDS : Z := 500.

(** [time.Duration] counts nanoseconds. *)
Definition Millisecond : Z := 1000000.
Definition Second : Z := 1000 * Millisecond.
Definition MIN_OUTPUT_BUFFERED_AUDIO : Z := Millisecond * 1000.

(** The little-endian bytes of sample [x] written at [buffer[w], buffer[w+1]]:
    the loop [for z := 0; z < URTP_SAMPLE_SIZE; z++]. *)
Definition putSample (x w : Z) (buffer : list byte) : Result (list byte) :=
  for_loop (Z.to_nat URTP_SAMPLE_SIZE) 0
    (fun z b => store b (w + z) (to_byte (Z.shiftr x (uint64 z * 8)))) buffer.

(** The loop [for w := 0; w < len(fill); w += URTP_SAMPLE_SIZE] of
    [handleGap], which walks the previous audio cyclically with [y]. *)
Fixpoint handleGap_fill (fuel : nat) (previousAudio : list Z) (w y : Z)
    (fill : list byte) : Result (list byte) :=
  match fuel with
  | O => Ok fill
  | S fuel' =>
      if w <? len fill then
        do x <- index previousAudio y;
        do fill' <- putSample x w fill;
        let y1 := y + 1 in
        let y2 := if len previousAudio <=? y1 then 0 else y1 in
        handleGap_fill fuel' previousAudio (w + URTP_SAMPLE_SIZE) y2 fill'
      else Ok fill
  end.

(** The bytes [handleGap] writes to [pcmAudio]; no bytes for a silly gap. *)
Definition handleGap_bytes (gap : Z) (previousDatagram : option UrtpDatagram)
  : Result (list byte) :=
  if gap <? SAMPLING_FREQUENCY * MAX_GAP_FILL_MILLISECONDS ÷ 1000 then
    do fill <- make x00 (gap * URTP_SAMPLE_SIZE);
    match previousDatagram with
    | Some previous =>
        do previousAudio <- deref (Audio previous);
        if 0 <? len previousAudio then
          handleGap_fill (length fill) previousAudio 0 0 fill
        else Ok fill
    | None => Ok fill
    end
  else Ok [].

(** [handleGap], on the package-level buffer [pcmAudio]. *)
Definition handleGap (gap : Z) (previousDatagram : option UrtpDatagram)
    (pcmAudio : list byte) : Result (list byte) :=
  do fill <- handleGap_bytes gap previousDatagram;
  Ok (pcmAudio ++ fill).

(** The loop [for x, y := range *datagram.Audio] of [processDatagram]. *)
Fixpoint audioBytes_fill (audio : list Z) (x : Z) (audioBytes : list byte)
  : Result (list byte) :=
  match audio with
  | [] => Ok audioBytes
  | y :: rest =>
      do audioBytes' <- putSample y (x * URTP_SAMPLE_SIZE) audioBytes;
      audioBytes_fill rest (x + 1) audioBytes'
  end.

(** The bytes of the received audio that [processDatagram] writes. *)
Definition audioBytes_of (audio : list Z) : Result (list byte) :=
  do audioBytes <- make x00 (len audio * URTP_SAMPLE_SIZE);
  audioBytes_fill audio 0 audioBytes.

(** [processDatagram]: [savedDatagramList] has the last processed record at
    its front. *)
Definition processDatagram (datagram : UrtpDatagram)
    (savedDatagramList : list UrtpDatagram) (pcmAudio : list byte)
  : Result (list byte) :=
  let previousDatagram := head savedDatagramList in
  do pcm1 <-
    match previousDatagram with
    | Some previous =>
        if negb (SequenceNumber datagram =? uint16 (SequenceNumber previous + 1)) then
          handleGap
            (uint16 (SequenceNumber datagram - SequenceNumber previous) * SAMPLES_PER_BLOCK)
            previousDatagram pcmAudio
        else Ok pcmAudio
    | None => Ok pcmAudio
    end;
  match Audio datagram with
  | Some audio =>
      do audioBytes <- audioBytes_of audio;
      let pcm2 := pcm1 ++ audioBytes in
      if len audio <? SAMPLES_PER_BLOCK then
        handleGap (SAMPLES_PER_BLOCK - len audio) previousDatagram pcm2
      else Ok pcm2
  | None => handleGap SAMPLES_PER_BLOCK previousDatagram pcm1
  end.

(** The first loop of the process ticker: every newly arrived record is
    processed and moved to the front of the processed list. *)
Fixpoint processNewDatagrams (newDatagramList processedDatagramList : list UrtpDatagram)
    (pcmAudio : list byte) : Result (list UrtpDatagram * list byte) :=
  match newDatagramList with
  | [] => Ok (processedDatagramList, pcmAudio)
  | datagram :: rest =>
      do pcm' <- processDatagram datagram processedDatagramList pcmAudio;
      processNewDatagrams rest (datagram :: processedDatagramList) pcm'
  end.

(** The second loop: all but the first [NUM_PROCESSED_DATAGRAMS] records of
    the processed list are removed. *)
Definition trimProcessed (processedDatagramList : list UrtpDatagram) : list UrtpDatagram :=
  take (Z.to_nat NUM_PROCESSED_DATAGRAMS) processedDatagramList.

(** A sample as [processDatagram] and [handleGap] write it: low byte
    first. *)
Definition sampleBytes (x : Z) : list byte := [to_byte x; to_byte (Z.shiftr x 8)].

Definition encode_le (audio : list Z) : list byte := flat_map sampleBytes audio.

(** [n] samples taken from [previousAudio] again and again, from index [y]
    on: what the fill loop of [handleGap] repeats. *)
Fixpoint cyclicSamples (n : nat) (previousAudio : list Z) (y : nat) : list Z :=
  match n with
  | O => []
  | S n' =>
      nth y previousAudio 0
      :: cyclicSamples n' previousAudio
           (if (S y <? length previousAudio)%nat then S y else O)
  end.

(** The samples of a fill of [n] samples: silence when there is no previous
    audio to repeat. *)
Definition gapSamples (n : nat) (previousAudio : list Z) : list Z :=
  match previousAudio with
  | [] => replicate n 0
  | _ :: _ => cyclicSamples n previousAudio 0
  end.

(** The number of fill samples the specification asks for before the audio
    of a record that follows a sequence-number jump of [K]. *)
Definition specFillBeforeAudio (K : Z) (audio : list Z) : Z :=
  K * SAMPLES_PER_BLOCK - len audio.

(* ------------------------------------------------------------------ *)
(** ** audio-process.go: the [OutputBufferState] message *)

Record OutputBufferState : Type := {
  Buffered : Z;
  BufferSize : Z
}.

(** What the second goroutine of [operateAudioProcessing] reads and
    writes: the PCM buffer, its threshold variable, and whether
    [mp3Handle] is non-nil. *)
Record Segmenter : Type := {
  pcmAudio : list byte;
  minOutputBufferedAudio : Z;
  mp3HandleOpen : bool
}.

(** Go's integer division, which panics on a zero divisor. *)
Definition go_div (a b : Z) : Result Z :=
  if b =? 0 then Panic IntegerDivideByZero else Ok (int64 (a ÷ b)).

(** [mp3FileSamples / mp3SamplesPerFrame * mp3SamplesPerFrame]: the samples
    of one segment, a whole number of MP3 frames. *)
Definition segmentSamples (mp3FileSamples mp3SamplesPerFrame : Z) : Result Z :=
  do q <- go_div mp3FileSamples mp3SamplesPerFrame;
  Ok (int64 (q * mp3SamplesPerFrame)).

(** The case [*OutputBufferState] of the message loop. *)
Definition onOutputBufferState (mp3FileSamples mp3SamplesPerFrame : Z)
    (message : OutputBufferState) (s : Segmenter) : Result Segmenter :=
  let minOutputBufferedAudio' :=
    if BufferSize message ÷ 2 <? minOutputBufferedAudio s then BufferSize message ÷ 2
    else minOutputBufferedAudio s in
  if (Buffered message <? MIN_OUTPUT_BUFFERED_AUDIO) && mp3HandleOpen s then
    do n <- segmentSamples mp3FileSamples mp3SamplesPerFrame;
    do buffer <- make x00 (int64 (n * URTP_SAMPLE_SIZE));
    Ok {| pcmAudio := pcmAudio s ++ buffer;
          minOutputBufferedAudio := minOutputBufferedAudio';
          mp3HandleOpen := mp3HandleOpen s |}
  else
    Ok {| pcmAudio := pcmAudio s;
          minOutputBufferedAudio := minOutputBufferedAudio';
          mp3HandleOpen := mp3HandleOpen s |}.

(** The threshold as the specification words it: 1000 ms, reduced to half
    of the buffer size when 1000 ms exceeds that half. *)
Definition specMinOutputBuffered (bufferSize : Z) : Z :=
  if bufferSize ÷ 2 <? MIN_OUTPUT_BUFFERED_AUDIO then bufferSize ÷ 2
  else MIN_OUTPUT_BUFFERED_AUDIO.

(** The state the message loop starts from, with the first segment file
    open. *)
Definition initialSegmenter : Segmenter :=
  {| pcmAudio := []; minOutputBufferedAudio := MIN_OUTPUT_BUFFERED_AUDIO;
     mp3HandleOpen := true |}.

(* ------------------------------------------------------------------ *)
(** ** audio-process.go: the fixed part of the ID3 tag *)

Definition MP3_ID3_TAG_TIMESTAMP_LEN : Z := 8.

Definition id3Owner : list byte :=
  String.list_byte_of_string "com.apple.streaming.transportStreamTimestamp".

(** The string literal [id3Prefix], byte by byte. *)
Definition id3Prefix : list byte :=
  [x49; x44; x33; x04; x00; x00; x00; x00; x00; x3f]
  ++ [x50; x52; x49; x56; x00; x00; x00; x35; x00; x00]
  ++ id3Owner ++ [x00].

(* ------------------------------------------------------------------ *)
(** ** audio-out.go: the segment list and the media sequence number *)

Record Mp3AudioFile : Type := {
  fileName : list byte;
  title : list byte;
  timestamp : Z;
  duration : Z;
  usable : bool;
  removable : bool
}.

Definition MP3_TITLE : list byte := String.list_byte_of_string "Internet of Chuffs".

(** The message the segmenter sends for a closed segment file. *)
Definition newMp3AudioFile (name : list byte) (now mp3Duration : Z) : Mp3AudioFile :=
  {| fileName := name; title := MP3_TITLE; timestamp := now; duration := mp3Duration;
     usable := true; removable := false |}.

Definition markUnusable (f : Mp3AudioFile) : Mp3AudioFile :=
  {| fileName := fileName f; title := title f; timestamp := timestamp f;
     duration := duration f; usable := false; removable := removable f |}.

Definition markRemovable (f : Mp3AudioFile) : Mp3AudioFile :=
  {| fileName := fileName f; title := title f; timestamp := timestamp f;
     duration := duration f; usable := usable f; removable := true |}.

(** The duration [makePlaylist] returns: the sum over the usable files.
    The playlist text itself is not embedded. *)
Definition makePlaylist_totalDuration (mp3FileList : list Mp3AudioFile) : Z :=
  fold_left (fun total f => if usable f then int64 (total + duration f) else total)
            mp3FileList 0.

(** What one pass of the stream ticker observes for the file it looks at:
    the two results of [time.Now().Sub(timestamp)] and whether [os.Remove]
    succeeds. *)
Record TickObservation : Type := {
  ageAtUsableCheck : Z;
  ageAtRemovableCheck : Z;
  removeSucceeds : bool
}.

(** The state of [operateAudioOut]: the file list, the sequence number, and
    the messages sent to the processing channel so far. *)
Record Publisher : Type := {
  mp3FileList : list Mp3AudioFile;
  mediaSequenceNumber : Z;
  bufferStatesSent : list OutputBufferState
}.

Section AudioOut.
Variable playlistLengthSeconds : Z.

Definition mp3UsableAge : Z := int64 (Second * playlistLengthSeconds).
Definition mp3RemovableAge : Z := int64 (mp3UsableAge * 2).

(** The loop of the stream ticker over the file list: [visited] are the
    files already passed and kept, [rest] those still to look at, and [i]
    counts the passes. *)
Fixpoint streamTick_loop (obs : nat -> TickObservation) (i : nat)
    (visited rest : list Mp3AudioFile) (msn : Z) (sent : list OutputBufferState)
  : Publisher :=
  match rest with
  | [] => {| mp3FileList := visited; mediaSequenceNumber := msn; bufferStatesSent := sent |}
  | f :: rest' =>
      let o := obs i in
      let '(f1, msn1, sent1) :=
        if usable f && (mp3UsableAge <? ageAtUsableCheck o) then
          let f' := markUnusable f in
          let buffered := makePlaylist_totalDuration (visited ++ f' :: rest') in
          (f', int64 (msn + 1),
           sent ++ [{| Buffered := buffered; BufferSize := mp3UsableAge |}])
        else (f, msn, sent) in
      let f2 :=
        if negb (usable f1) && (mp3RemovableAge <? ageAtRemovableCheck o)
        then markRemovable f1 else f1 in
      if removable f2 && removeSucceeds o then
        streamTick_loop obs (S i) visited rest' msn1 sent1
      else streamTick_loop obs (S i) (visited ++ [f2]) rest' msn1 sent1
  end.

(** The [Reset] loop: every file whose [os.Remove] succeeds leaves the list. *)
Fixpoint resetRemove (removeOk : nat -> bool) (i : nat) (files : list Mp3AudioFile)
  : list Mp3AudioFile :=
  match files with
  | [] => []
  | f :: rest =>
      if removeOk i then resetRemove removeOk (S i) rest
      else f :: resetRemove removeOk (S i) rest
  end.

(** What the publisher reacts to: a tick of [streamTicker], a closed
    segment announced by the segmenter, or a [Reset].  Each handler is one
    step: the ticker holds the list lock over its whole pass, and the
    handlers of the two goroutines are taken one after the other. *)
Inductive PublisherEvent : Type :=
| StreamTick (obs : nat -> TickObservation)
| NewSegment (name : list byte) (now mp3Duration : Z)
| ResetStream (removeOk : nat -> bool).

Definition publisherStep (p : Publisher) (e : PublisherEvent) : Publisher :=
  match e with
  | StreamTick obs =>
      streamTick_loop obs 0 [] (mp3FileList p) (mediaSequenceNumber p) (bufferStatesSent p)
  | NewSegment name now mp3Duration =>
      {| mp3FileList := mp3FileList p ++ [newMp3AudioFile name now mp3Duration];
         mediaSequenceNumber := mediaSequenceNumber p;
         bufferStatesSent := bufferStatesSent p |}
  | ResetStream removeOk =>
      {| mp3FileList := resetRemove removeOk 0 (mp3FileList p);
         mediaSequenceNumber := 0;
         bufferStatesSent := bufferStatesSent p |}
  end.

Definition initialPublisher : Publisher :=
  {| mp3FileList := []; mediaSequenceNumber := 0; bufferStatesSent := [] |}.

Definition publisherRun (events : list PublisherEvent) : Publisher :=
  fold_left publisherStep events initialPublisher.

(** The number of usable files of a list. *)
Definition usableCount (files : list Mp3AudioFile) : Z :=
  len (List.filter usable files).

(** A file is removable only once it is no longer usable. *)
Definition removableIsUnusable (f : Mp3AudioFile) : Prop :=
  removable f = true -> usable f = false.

(** The segments that leave usability in one step, read off the states
    before and after it: a step never makes a file usable again, and only
    [NewSegment] adds one. *)
Definition agedOutIn (e : PublisherEvent) (before after : Publisher) : Z :=
  match e with
  | StreamTick _ => usableCount (mp3FileList before) - usableCount (mp3FileList after)
  | _ => 0
  end.

(** The number of segments that have aged out since the last [Reset],
    counted along a run. *)
Fixpoint agedOutSinceReset (events : list PublisherEvent) (p : Publisher) (count : Z) : Z :=
  match events with
  | [] => count
  | e :: rest =>
      let p' := publisherStep p e in
      match e with
      | ResetStream _ => agedOutSinceReset rest p' 0
      | _ => agedOutSinceReset rest p' (count + agedOutIn e p p')
      end
  end.

Definition isReset (e : PublisherEvent) : bool :=
  match e with ResetStream _ => true | _ => false end.

End AudioOut.

(* ------------------------------------------------------------------ *)
(** ** Concrete inputs *)

(** A URTP header with coding [coding], sequence number [seq], timestamp 7
    and the declared payload size [size]. *)
Definition urtpHeader (coding : byte) (seq size : Z) : list byte :=
  [SYNC_BYTE; coding; to_byte (Z.shiftr seq 8); to_byte seq;
   x00; x00; x00; x00; x00; x00; x00; x07;
   to_byte (Z.shiftr size 8); to_byte size].

(** A header that declares 650 payload bytes, ten more than a block holds. *)
Definition header650 : list byte := urtpHeader x00 1 650.

(** A complete record with no payload, and the record sent after it. *)
Definition emptyRecord : list byte := urtpHeader x00 1 0.
Definition nextRecord : list byte := urtpHeader x00 2 2 ++ [x01; x02].

(** A second record with no payload, as a UDP packet of 14 bytes. *)
Definition emptyRecord2 : list byte := urtpHeader x00 2 0.

(** One UNICAM block with its shift byte: 17 bytes. *)
Definition oneUnicamBlock : list byte := replicate 16 x01 ++ [x21].

(** Two full PCM blocks, with sequence numbers 9 and 11: record 10 is lost. *)
Definition datagram9 : UrtpDatagram :=
  {| SequenceNumber := 9; Timestamp := 0; Audio := Some (replicate 320 1) |}.
Definition datagram11 : UrtpDatagram :=
  {| SequenceNumber := 11; Timestamp := 0; Audio := Some (replicate 320 256) |}.

(** A short run of the publisher: a segment arrives and, a tick later, is
    older than the playlist window of seven seconds. *)
Definition agedObservation : nat -> TickObservation :=
  fun _ => {| ageAtUsableCheck := 8 * Second; ageAtRemovableCheck := 8 * Second;
              removeSucceeds := false |}.
Definition shortRun : list PublisherEvent :=
  [NewSegment [] 0 Second; StreamTick agedObservation].

(** The state of the receive path over the pass-through filters, with
    nothing buffered and nothing sent. *)
Definition idleIngest : @Ingest passThroughFir :=
  {| tcpBuffer := [];
     firs := {| deemphasis := 0 : @Fir passThroughFir;
                desqueal := 0 : @DeSquealFir passThroughFir |};
     ProcessDatagramsChannel := [] |}.

(* ------------------------------------------------------------------ *)
(** ** audio-process.go: the ID3 tag of a segment file *)

Definition Microsecond : Z := 1000.

(** Go's [float32] in [writeTag]: the binary32 format of IEEE 754, with 24
    bits of precision and exponents below 128, every conversion and
    operation rounded to the nearest value, ties to even. *)
Module Float32.

Definition t : Type := SpecFloat.spec_float.

(** The conversion [float32(z)] of an integer. *)
Definition of_int (z : Z) : t := SpecFloat.binary_normalize 24 128 z 0 false.

Definition div (x y : t) : t := SpecFloat.SFdiv 24 128 x y.
Definition mul (x y : t) : t := SpecFloat.SFmul 24 128 x y.

(** The conversion [uint64(f)]: the fraction is dropped.  Where the value
    does not fit the type Go leaves the result to the implementation, and
    there is none here. *)
Definition to_uint64 (f : t) : option Z :=
  match f with
  | SpecFloat.S754_zero _ => Some 0
  | SpecFloat.S754_finite sign m e =>
      let magnitude := if 0 <=? e then Z.pos m * 2 ^ e else Z.pos m / 2 ^ (- e) in
      let value := if sign then - magnitude else magnitude in
      if (0 <=? value) && (value <? 2 ^ 64) then Some value else None
  | _ => None
  end.

End Float32.

(** [binary.Write] of a [uint64] with [binary.BigEndian]: eight bytes, the
    most significant first. *)
Definition bigEndianUint64 (v : Z) : list byte :=
  [to_byte (Z.shiftr v 56); to_byte (Z.shiftr v 48); to_byte (Z.shiftr v 40);
   to_byte (Z.shiftr v 32); to_byte (Z.shiftr v 24); to_byte (Z.shiftr v 16);
   to_byte (Z.shiftr v 8); to_byte v].

(** [timestampUint64] of [writeTag], from an offset in nanoseconds: three
    operations on [float32], from left to right, and a truncation. *)
Definition writeTag_timestamp (offset : Z) : option Z :=
  Float32.to_uint64
    (Float32.div
       (Float32.mul
          (Float32.div (Float32.of_int offset) (Float32.of_int Microsecond))
          (Float32.of_int 90000))
       (Float32.of_int 1000000)).

(** [writeTag]: what a call with [offset] writes to a handle that takes all
    it is given, the prefix and behind it the timestamp. *)
Definition writeTag (offset : Z) : option (list byte) :=
  match writeTag_timestamp offset with
  | Some timestampUint64 => Some (id3Prefix ++ bigEndianUint64 timestampUint64)
  | None => None
  end.

(** The ticks of a 90 kHz clock in an offset in nanoseconds, taken in
    microseconds: the timestamp as the tag is specified. *)
Definition ticks90kHz (offset : Z) : Z := offset / Microsecond * 90000 / 1000000.


(* ------------------------------------------------------------------ *)
(** ** Values on the wire *)

(** The number a sequence of bytes stands for, most significant byte
    first. *)
Definition bigEndian (bytes : list byte) : Z :=
  fold_left (fun acc b => acc * 256 + u8 b) bytes 0.

(** An 8-bit value read as a two's-complement number. *)
Definition signed8 (b : byte) : Z := if u8 b <? 128 then u8 b else u8 b - 256.

(** A record with PCM coding as it is sent: its two sequence-number bytes,
    its eight timestamp bytes and its payload. *)
Record PcmRecord : Type := {
  sequenceBytes : list byte;
  timestampBytes : list byte;
  payloadBytes : list byte
}.

Definition pcmRecord_wf (r : PcmRecord) : Prop :=
  length (sequenceBytes r) = 2%nat
  /\ length (timestampBytes r) = 8%nat
  /\ 0 < len (payloadBytes r) <= URTP_DATAGRAM_MAX_SIZE.

(** The bytes of the record on the wire, the payload size declared in its
    header being the length of its payload. *)
Definition pcmRecord_bytes (r : PcmRecord) : list byte :=
  [SYNC_BYTE; x00] ++ sequenceBytes r ++ timestampBytes r
  ++ [to_byte (Z.shiftr (len (payloadBytes r)) 8); to_byte (len (payloadBytes r))]
  ++ payloadBytes r.

(** The record as the processing channel should see it. *)
Definition pcmRecord_datagram (r : PcmRecord) : UrtpDatagram :=
  {| SequenceNumber := bigEndian (sequenceBytes r);
     Timestamp := bigEndian (timestampBytes r);
     Audio := Some (pcmSamples (payloadBytes r)) |}.


(* ------------------------------------------------------------------ *)
(** ** audio-in.go: the byte stream in several reads *)

Section StreamReads.
Context {FM : FirModel}.

Definition setTcpBuffer (buffer : list byte) (g : Ingest) : Ingest :=
  {| tcpBuffer := buffer; firs := firs g;
     ProcessDatagramsChannel := ProcessDatagramsChannel g |}.

(** What a call of [handleUrtpStream] leaves behind: the reassembly data
    and the package-level state, without the timing datagram it returns. *)
Definition streamState (res : Result (TcpReassemblyData * list byte * Ingest))
  : Result (TcpReassemblyData * Ingest) :=
  do '(r, _, g) <- res; Ok (r, g).

(** The read loop of the goroutine of [tcpServer]: one call of
    [handleUrtpStream] for each read of the connection, of at most
    [URTP_DATAGRAM_MAX_SIZE] bytes; a read of no bytes ends the loop. *)
Fixpoint handleUrtpStream_reads (reads : list (list byte)) (r : TcpReassemblyData)
    (g : Ingest) : Result (TcpReassemblyData * Ingest) :=
  match reads with
  | [] => Ok (r, g)
  | data :: rest =>
      if 0 <? len data then
        do '(r', _, g') <- handleUrtpStream r data g;
        handleUrtpStream_reads rest r' g'
      else Ok (r, g)
  end.

(** The reassembler given a single byte, with nothing behind it in the
    buffer. *)
Definition streamByte (item : byte) (st : TcpReassemblyData * Ingest)
  : Result (TcpReassemblyData * Ingest) :=
  streamState (handleUrtpStream_step item (fst st) [] (setTcpBuffer [] (snd st))).

Fixpoint streamBytes (data : list byte) (st : TcpReassemblyData * Ingest)
  : Result (TcpReassemblyData * Ingest) :=
  match data with
  | [] => Ok st
  | item :: rest => do st' <- streamByte item st; streamBytes rest st'
  end.

(** The reassembly data while a payload is read, with [size] bytes still
    to come and [datagram] buffered; and after a record has been handed
    over. *)
Definition inPayload (r : TcpReassemblyData) (size : Z) (datagram : list byte)
  : TcpReassemblyData :=
  {| State := State r; ByteCount := ByteCount r; PayloadSize := size;
     Header := Header r; Datagram := datagram |}.

Definition afterRecord (r : TcpReassemblyData) : TcpReassemblyData :=
  {| State := URTP_STATE_WAITING_SYNC; ByteCount := ByteCount r; PayloadSize := 0;
     Header := []; Datagram := [] |}.

End StreamReads.

(* ------------------------------------------------------------------ *)
(** ** audio-out.go: what a tick keeps, and what was announced *)

(** Whether the file at position [fst jf] of the list, [snd jf], is
    usable and is seen by a tick with an age within the playlist window. *)
Definition staysUsable (playlistLengthSeconds : Z) (obs : nat -> TickObservation)
    (jf : nat * Mp3AudioFile) : bool :=
  usable (snd jf)
  && negb (mp3UsableAge playlistLengthSeconds <? ageAtUsableCheck (obs (fst jf))).

(** The names of the segments announced along a run, in order. *)
Definition announced (events : list PublisherEvent) : list (list byte) :=
  flat_map (fun e => match e with NewSegment name _ _ => [name] | _ => [] end) events.

(* ------------------------------------------------------------------ *)
(** ** audio-process.go: the process ticker *)

(** What the ticker sends on [MediaControlChannel]. *)
Inductive MediaControlMessage : Type :=
| SendReset
| SendMp3AudioFile (f : Mp3AudioFile).

(** How the file operations of a call of [openMp3File] end: the temporary
    file cannot be made; it is made and closed but cannot be renamed; it is
    renamed but [os.Create] fails on the new name; or all three succeed. *)
Inductive OpenOutcome : Type :=
| TempFileFails
| RenameFails
| CreateFails
| Opened.

(** [openMp3File]: whether the handle it returns is other than nil.  With
    no temporary file the handle is nil.  When the renaming fails the
    handle of the temporary file is returned, closed as it is.  When
    [os.Create] fails it leaves [handle] nil, and the log line that follows
    calls [handle.Name()] on it. *)
Definition openMp3File (outcome : OpenOutcome) : Result bool :=
  match outcome with
  | TempFileFails => Ok false
  | RenameFails => Ok true
  | CreateFails => Panic NilDereference
  | Opened => Ok true
  end.

(** What one pass of the ticker takes from outside: the records put on
    [newDatagramList] since the pass before, oldest first; the silence that
    the message loop has written to the PCM buffer since then; the count
    that [mp3Writer.Write] returns for the bytes it is given; whether
    [writeTag] and [mp3Audio.WriteTo] return without an error; how the
    call of [openMp3File] ends, if one is made; and the base name of the
    closed file and the time at which it is announced. *)
Record TickInput : Type := {
  arrived : list UrtpDatagram;
  injected : list byte;
  writerCount : list byte -> Z;
  tagWritten : bool;
  audioWritten : bool;
  opened : OpenOutcome;
  closedName : list byte;
  closedAt : Z
}.

Module Ticker.

(** The variables of [operateAudioProcessing] that the ticker reads and
    writes, with the PCM buffer, the offsets [writeTag] has been called
    with and the messages sent so far. *)
Record State : Type := {
  processedDatagramList : list UrtpDatagram;
  pcmAudio : list byte;
  oosAge : Z;
  mp3Offset : Z;
  samplesEncoded : Z;
  mp3SamplesToEncode : Z;
  mp3Duration : Z;
  mp3Handle : bool;
  tagOffsets : list Z;
  mediaControl : list MediaControlMessage
}.

End Ticker.

(** [encodeOutput], with the MP3 writer present: the samples it reports and
    what is left of the PCM buffer.  [bytes.Buffer.Read] takes as many
    bytes as the buffer given to it holds, or all there are. *)
Definition encodeOutput (writer : list byte -> Z) (numSamples : Z) (pcm : list byte)
  : Result (Z * list byte) :=
  do buffer <- make x00 (int64 (numSamples * URTP_SAMPLE_SIZE));
  let bytesRead := Z.min (len buffer) (len pcm) in
  let bytesEncoded :=
    if 0 <? bytesRead then writer (take (Z.to_nat bytesRead) pcm) else 0 in
  Ok (bytesEncoded ÷ URTP_SAMPLE_SIZE, drop (Z.to_nat bytesRead) pcm).

Section ProcessTicker.
Variables (mp3FileSamples mp3SamplesPerFrame maxOosAge : Z).

(** The start of [operateAudioProcessing], the MP3 writer having been
    created: the state in which the ticker is started, or none when the
    first segment file gives no handle and the program exits. *)
Definition startTicker (first : OpenOutcome) : Result (option Ticker.State) :=
  do n <- segmentSamples mp3FileSamples mp3SamplesPerFrame;
  do mp3Handle <- openMp3File first;
  if mp3Handle then
    Ok (Some {| Ticker.processedDatagramList := []; Ticker.pcmAudio := [];
                Ticker.oosAge := 0; Ticker.mp3Offset := 0; Ticker.samplesEncoded := 0;
                Ticker.mp3SamplesToEncode := n; Ticker.mp3Duration := 0;
                Ticker.mp3Handle := true; Ticker.tagOffsets := [];
                Ticker.mediaControl := [] |})
  else Ok None.

(** The first half of a pass: the arrived records are processed and the
    processed list trimmed; or, nothing having arrived, the out-of-service
    age grows and, above [maxOosAge], the stream is reset. *)
Definition processTick_records (i : TickInput) (s : Ticker.State) : Result Ticker.State :=
  do '(processed, pcm) <-
    processNewDatagrams (arrived i) (Ticker.processedDatagramList s)
      (Ticker.pcmAudio s ++ injected i);
  match arrived i with
  | _ :: _ =>
      Ok {| Ticker.processedDatagramList := trimProcessed processed;
            Ticker.pcmAudio := pcm;
            Ticker.oosAge := 0; Ticker.mp3Offset := Ticker.mp3Offset s;
            Ticker.samplesEncoded := Ticker.samplesEncoded s;
            Ticker.mp3SamplesToEncode := Ticker.mp3SamplesToEncode s;
            Ticker.mp3Duration := Ticker.mp3Duration s;
            Ticker.mp3Handle := Ticker.mp3Handle s;
            Ticker.tagOffsets := Ticker.tagOffsets s;
            Ticker.mediaControl := Ticker.mediaControl s |}
  | [] =>
      let oosAge := int64 (Ticker.oosAge s + BLOCK_DURATION_MS * Millisecond) in
      if maxOosAge <? oosAge then
        do n <- segmentSamples mp3FileSamples mp3SamplesPerFrame;
        Ok {| Ticker.processedDatagramList := processed; Ticker.pcmAudio := pcm;
              Ticker.oosAge := 0; Ticker.mp3Offset := 0; Ticker.samplesEncoded := 0;
              Ticker.mp3SamplesToEncode := n;
              Ticker.mp3Duration := Ticker.mp3Duration s;
              Ticker.mp3Handle := Ticker.mp3Handle s;
              Ticker.tagOffsets := Ticker.tagOffsets s;
              Ticker.mediaControl := Ticker.mediaControl s ++ [SendReset] |}
      else
        Ok {| Ticker.processedDatagramList := processed; Ticker.pcmAudio := pcm;
              Ticker.oosAge := oosAge; Ticker.mp3Offset := Ticker.mp3Offset s;
              Ticker.samplesEncoded := Ticker.samplesEncoded s;
              Ticker.mp3SamplesToEncode := Ticker.mp3SamplesToEncode s;
              Ticker.mp3Duration := Ticker.mp3Duration s;
              Ticker.mp3Handle := Ticker.mp3Handle s;
              Ticker.tagOffsets := Ticker.tagOffsets s;
              Ticker.mediaControl := Ticker.mediaControl s |}
  end.

(** The duration of a segment of [samples] samples, as the ticker works it
    out. *)
Definition segmentDuration (samples : Z) : Z :=
  int64 (int64 (int64 (samples * 1000000) ÷ SAMPLING_FREQUENCY) * Microsecond).

(** The second half of a pass: samples are encoded and, once the segment is
    complete, the file is tagged, written, closed and announced, and the
    next one opened. *)
Definition processTick_encode (i : TickInput) (s : Ticker.State) : Result Ticker.State :=
  do '(samples, pcm) <-
    encodeOutput (writerCount i) (Ticker.mp3SamplesToEncode s) (Ticker.pcmAudio s);
  let samplesEncoded := int64 (Ticker.samplesEncoded s + samples) in
  let mp3SamplesToEncode := int64 (Ticker.mp3SamplesToEncode s - samples) in
  if mp3SamplesToEncode <=? 0 then
    let mp3Duration :=
      if Ticker.mp3Handle s then segmentDuration samplesEncoded else Ticker.mp3Duration s in
    let tagOffsets :=
      if Ticker.mp3Handle s then Ticker.tagOffsets s ++ [Ticker.mp3Offset s]
      else Ticker.tagOffsets s in
    let mediaControl :=
      if Ticker.mp3Handle s && tagWritten i && audioWritten i then
        Ticker.mediaControl s
        ++ [SendMp3AudioFile (newMp3AudioFile (closedName i) (closedAt i) mp3Duration)]
      else Ticker.mediaControl s in
    do mp3Handle <- openMp3File (opened i);
    do n <- segmentSamples mp3FileSamples mp3SamplesPerFrame;
    Ok {| Ticker.processedDatagramList := Ticker.processedDatagramList s;
          Ticker.pcmAudio := pcm;
          Ticker.oosAge := Ticker.oosAge s;
          Ticker.mp3Offset := int64 (Ticker.mp3Offset s + mp3Duration);
          Ticker.samplesEncoded := 0;
          Ticker.mp3SamplesToEncode := n;
          Ticker.mp3Duration := mp3Duration;
          Ticker.mp3Handle := mp3Handle;
          Ticker.tagOffsets := tagOffsets;
          Ticker.mediaControl := mediaControl |}
  else
    Ok {| Ticker.processedDatagramList := Ticker.processedDatagramList s;
          Ticker.pcmAudio := pcm;
          Ticker.oosAge := Ticker.oosAge s;
          Ticker.mp3Offset := Ticker.mp3Offset s;
          Ticker.samplesEncoded := samplesEncoded;
          Ticker.mp3SamplesToEncode := mp3SamplesToEncode;
          Ticker.mp3Duration := Ticker.mp3Duration s;
          Ticker.mp3Handle := Ticker.mp3Handle s;
          Ticker.tagOffsets := Ticker.tagOffsets s;
          Ticker.mediaControl := Ticker.mediaControl s |}.

(** One pass of the process ticker. *)
Definition processTick (i : TickInput) (s : Ticker.State) : Result Ticker.State :=
  do s1 <- processTick_records i s;
  processTick_encode i s1.

(** The passes of a run, one after the other. *)
Fixpoint processTicks (inputs : list TickInput) (s : Ticker.State) : Result Ticker.State :=
  match inputs with
  | [] => Ok s
  | i :: rest => do s' <- processTick i s; processTicks rest s'
  end.

End ProcessTicker.

(** The number of Resets among messages. *)
Definition countResets (messages : list MediaControlMessage) : Z :=
  len (List.filter (fun m => match m with SendReset => true | _ => false end) messages).

(** The contract of an [io.Writer], which [mp3Writer.Write] is: the count
    returned lies between 0 and the number of bytes given. *)
Definition writerContract (i : TickInput) : Prop :=
  forall p : list byte, 0 <= writerCount i p <= len p.

(** The durations of the segments announced by messages. *)
Definition announcedDurations (messages : list MediaControlMessage) : list Z :=
  flat_map (fun m => match m with SendMp3AudioFile f => [duration f] | SendReset => [] end)
           messages.

Section TickerInvariant.
Variables (mp3FileSamples mp3SamplesPerFrame maxOosAge : Z).

(** The samples of a segment, a whole number of frames, and its duration
    in nanoseconds, without the wrap-around. *)
Definition wholeFrames : Z := mp3FileSamples / mp3SamplesPerFrame * mp3SamplesPerFrame.
Definition wholeDuration : Z := wholeFrames * 1000000 / SAMPLING_FREQUENCY * Microsecond.

(** The parameters the ticker is started with: a segment length that fits,
    a frame that is not empty, an out-of-service limit that fits. *)
Definition tickerParameters : Prop :=
  0 <= mp3FileSamples < 2 ^ 40 /\ 0 < mp3SamplesPerFrame /\ 0 <= maxOosAge < 2 ^ 62.

Definition multipleOfDuration (offset : Z) : Prop :=
  exists k : Z, 0 <= k /\ offset = int64 (k * wholeDuration).

(** What holds of the ticker's variables between passes. *)
Definition tickerInv (s : Ticker.State) : Prop :=
  0 <= Ticker.mp3SamplesToEncode s <= wholeFrames
  /\ Ticker.samplesEncoded s + Ticker.mp3SamplesToEncode s = wholeFrames
  /\ (Ticker.mp3Duration s = 0 \/ Ticker.mp3Duration s = wholeDuration)
  /\ multipleOfDuration (Ticker.mp3Offset s)
  /\ Forall multipleOfDuration (Ticker.tagOffsets s)
  /\ Forall (fun d => d = wholeDuration) (announcedDurations (Ticker.mediaControl s))
  /\ 0 <= Ticker.oosAge s <= maxOosAge
  /\ match head (Ticker.processedDatagramList s) with
     | Some previous => Audio previous <> None
     | None => True
     end.

(** A pass that can be followed: the writer keeps its contract, every
    record that arrived has audio, and [os.Create] does not fail on a
    segment file. *)
Definition tickInput_ok (i : TickInput) : Prop :=
  writerContract i
  /\ Forall (fun d => Audio d <> None) (arrived i)
  /\ opened i <> CreateFails.

End TickerInvariant.

(** Passes for a run: one in which record 9 has arrived and one in which
    nothing has but two samples of silence, with a writer that takes all it
    is given and files that open and are written. *)
Definition busyTick : TickInput :=
  {| arrived := [datagram9]; injected := []; writerCount := fun p => len p; tagWritten := true;
     audioWritten := true; opened := Opened; closedName := []; closedAt := 0 |}.
Definition idleTick : TickInput :=
  {| arrived := []; injected := replicate 4 x00; writerCount := fun p => len p; tagWritten := true;
     audioWritten := true; opened := Opened; closedName := []; closedAt := 0 |}.

(* ------------------------------------------------------------------ *)
(** ** audio-out.go: [makePlaylist] *)

Definition MAX_PLAY_LAG : Z := Second * 1.

Definition crlf : list byte := [x0d; x0a].

(** What the scan of the file list gathers. *)
Record PlaylistScan : Type := {
  maxSegmentDuration : Z;
  numSegments : Z;
  segmentData : list byte;
  totalDuration : Z
}.

Section Playlist.
(** The text that [fmt] prints for the numbers of the playlist is taken as
    given: ["%f"] of [float32(d) / float32(time.Second)], ["%d"] of
    [int(math.Ceil(float64(d) / float64(time.Second)))], and ["%d"] of an
    [int]. *)
Variables (fmtSeconds fmtCeilSeconds fmtInt : Z -> list byte).

(** The two lines of a segment. *)
Definition makePlaylist_entry (f : Mp3AudioFile) : list byte :=
  String.list_byte_of_string "#EXTINF:" ++ fmtSeconds (duration f)
  ++ String.list_byte_of_string ", " ++ title f ++ crlf
  ++ fileName f ++ crlf.

(** The loop over [mp3FileList]. *)
Definition makePlaylist_scan (files : list Mp3AudioFile) : PlaylistScan :=
  fold_left
    (fun scan f =>
       if usable f then
         {| maxSegmentDuration :=
              if maxSegmentDuration scan <? duration f then duration f
              else maxSegmentDuration scan;
            numSegments := int64 (numSegments scan + 1);
            segmentData := segmentData scan ++ makePlaylist_entry f;
            totalDuration := int64 (totalDuration scan + duration f) |}
       else scan)
    files
    {| maxSegmentDuration := 0; numSegments := 0; segmentData := []; totalDuration := 0 |}.

(** [makePlaylist]: the bytes of the playlist and the total duration. *)
Definition makePlaylist (mediaSequenceNumber : Z) (files : list Mp3AudioFile)
  : list byte * Z :=
  let scan := makePlaylist_scan files in
  let data :=
    String.list_byte_of_string "#EXTM3U" ++ crlf
    ++ String.list_byte_of_string "#EXT-X-VERSION:3" ++ crlf
    ++ (if 0 <? numSegments scan then
          String.list_byte_of_string "#EXT-X-TARGETDURATION:"
          ++ fmtCeilSeconds (maxSegmentDuration scan) ++ crlf
          ++ String.list_byte_of_string "#EXT-X-MEDIA-SEQUENCE:"
          ++ fmtInt mediaSequenceNumber ++ crlf
          ++ (if MAX_PLAY_LAG <? totalDuration scan then
                String.list_byte_of_string "#EXT-X-START:TIME-OFFSET=-"
                ++ fmtSeconds MAX_PLAY_LAG ++ crlf
              else [])
          ++ segmentData scan
        else []) in
  (data, totalDuration scan).

End Playlist.

(* ------------------------------------------------------------------ *)
(** ** The LAME binding: [Encoder.Encode] *)

Definition BIT_DEPTH : Z := 16.

(** Go's remainder, which panics on a zero divisor. *)
Definition go_rem (a b : Z) : Result Z :=
  if b =? 0 then Panic IntegerDivideByZero else Ok (Z.rem a b).

(** [s[0:hi]] of a slice whose capacity is its length. *)
Definition slice_to {A : Type} (s : list A) (hi : Z) : Result (list A) :=
  if (0 <=? hi) && (hi <=? len s) then Ok (take (Z.to_nat hi) s)
  else Panic (SliceBoundsOutOfRange hi).

Record Encoder : Type := { remainder : list byte }.

Section Lame.
(** What lies behind the binding is taken as given: the number of channels
    that [lame_get_num_channels] reports; the size worked out in floating
    point for the output buffer; and [lame_encode_buffer], which is given
    the PCM bytes, the number of samples and the size of the output buffer
    and gives back its result and the output buffer as it has filled it;
    the bounds of [out[0:bytesOut]] are those of the buffer made. *)
Variable numChannels : Z.
Variable estimatedSize : Z -> Z.
Variable lame_encode_buffer : list byte -> Z -> Z -> Z * list byte.

Definition Encode (e : Encoder) (buf : list byte) : Result (list byte * Encoder) :=
  let buf1 := if 0 <? len (remainder e) then remainder e ++ buf else buf in
  if len buf1 =? 0 then Ok ([], e)
  else
    let blockAlign := int64 (BIT_DEPTH ÷ 8 * numChannels) in
    do remainBytes <- go_rem (len buf1) blockAlign;
    let e' :=
      if 0 <? remainBytes
      then {| remainder := drop (Z.to_nat (len buf1 - remainBytes)) buf1 |}
      else {| remainder := [] |} in
    let buf2 :=
      if 0 <? remainBytes then take (Z.to_nat (len buf1 - remainBytes)) buf1 else buf1 in
    do numSamples <- go_div (len buf2) blockAlign;
    do out <- make x00 (estimatedSize numSamples);
    do _ <- index buf2 0;
    do _ <- index out 0;
    let '(bytesOut, out') := lame_encode_buffer buf2 numSamples (len out) in
    do _ <- slice_to out bytesOut;
    Ok (take (Z.to_nat bytesOut) out', e').

End Lame.

(* ================================================================== *)
(** * Properties *)

(** Linear arithmetic with division and remainder by constants. *)
Ltac div_lia := Z.to_euclidean_division_equations; lia.

(* ------------------------------------------------------------------ *)
(** ** Bytes, machine integers and slices *)

Lemma u8_range (b : byte) : 0 <= u8 b < 256.
Proof.
  unfold u8. pose proof (Byte.to_N_bounded b). lia.
Qed.

Lemma to_byte_u8 (b : byte) : to_byte (u8 b) = b.
Proof.
  unfold to_byte. pose proof (u8_range b) as Hr.
  rewrite Z.mod_small by lia. unfold u8. rewrite N2Z.id.
  now rewrite Byte.of_to_N.
Qed.

Lemma u8_to_byte (z : Z) : u8 (to_byte z) = z mod 256.
Proof.
  unfold to_byte, u8.
  pose proof (Z.mod_pos_bound z 256 ltac:(lia)) as Hm.
  destruct (Byte.of_N (Z.to_N (z mod 256))) as [b|] eqn:E.
  - apply Byte.to_of_N in E. rewrite E. lia.
  - apply Byte.of_N_None_iff in E. lia.
Qed.

Lemma to_byte_mod (z : Z) : to_byte (z mod 256) = to_byte z.
Proof.
  unfold to_byte. now rewrite Z.mod_mod by lia.
Qed.

Lemma to_byte_eq_mod (a b : Z) : a mod 256 = b mod 256 -> to_byte a = to_byte b.
Proof.
  intros H. unfold to_byte. now rewrite H.
Qed.

Lemma int16_range (z : Z) : -32768 <= int16 z < 32768.
Proof.
  unfold int16. pose proof (Z.mod_pos_bound (z + 32768) 65536 ltac:(lia)). lia.
Qed.

Lemma int16_small (z : Z) : -32768 <= z < 32768 -> int16 z = z.
Proof.
  intros H. unfold int16. rewrite Z.mod_small; lia.
Qed.

Lemma int16_mod (z : Z) : int16 z mod 65536 = z mod 65536.
Proof.
  unfold int16.
  rewrite Zminus_mod, Z.mod_mod by lia.
  rewrite <- Zminus_mod. f_equal. lia.
Qed.

Lemma int16_congr (a b : Z) : a mod 65536 = b mod 65536 -> int16 a = int16 b.
Proof.
  intros H. unfold int16.
  rewrite (Zplus_mod a), (Zplus_mod b), H. reflexivity.
Qed.

Lemma int64_small (z : Z) : - 2 ^ 63 <= z < 2 ^ 63 -> int64 z = z.
Proof.
  intros H. unfold int64. rewrite Z.mod_small; lia.
Qed.

Lemma len_nonneg {A : Type} (l : list A) : 0 <= len l.
Proof. unfold len. lia. Qed.

Lemma len_app {A : Type} (l1 l2 : list A) : len (l1 ++ l2) = len l1 + len l2.
Proof. unfold len. rewrite length_app. lia. Qed.

Lemma len_replicate {A : Type} (n : nat) (a : A) : len (replicate n a) = Z.of_nat n.
Proof. unfold len. now rewrite length_replicate. Qed.

Lemma index_Ok {A : Type} (s : list A) (i : Z) (a : A) :
  index s i = Ok a <-> 0 <= i /\ s !! Z.to_nat i = Some a.
Proof.
  unfold index, len. split.
  - destruct (0 <=? i) eqn:E1; destruct (i <? Z.of_nat (length s)) eqn:E2; simpl;
      try discriminate.
    destruct (s !! Z.to_nat i) eqn:E3; [|discriminate].
    intros [= ->]. split; [lia | reflexivity].
  - intros [H0 Hl].
    pose proof (lookup_lt_Some _ _ _ Hl) as Hlt.
    replace (0 <=? i) with true by (symmetry; apply Z.leb_le; lia).
    replace (i <? Z.of_nat (length s)) with true by (symmetry; apply Z.ltb_lt; lia).
    simpl. now rewrite Hl.
Qed.

Lemma index_Panic {A : Type} (s : list A) (i : Z) (p : GoPanic) :
  index s i = Panic p -> (i < 0 \/ len s <= i) /\ p = IndexOutOfRange i (len s).
Proof.
  unfold index, len.
  destruct (0 <=? i) eqn:E1; destruct (i <? Z.of_nat (length s)) eqn:E2; simpl;
    try (intros [= <-]; split; [lia | reflexivity]).
  destruct (s !! Z.to_nat i) eqn:E3; [discriminate|].
  apply lookup_ge_None in E3. lia.
Qed.

Lemma store_Ok {A : Type} (s : list A) (i : Z) (v : A) :
  0 <= i < len s -> store s i v = Ok (<[Z.to_nat i := v]> s).
Proof.
  intros H. unfold store.
  replace (0 <=? i) with true by (symmetry; apply Z.leb_le; lia).
  replace (i <? len s) with true by (symmetry; apply Z.ltb_lt; lia).
  reflexivity.
Qed.

Lemma store_inv {A : Type} (s s' : list A) (i : Z) (v : A) :
  store s i v = Ok s' -> 0 <= i < len s /\ s' = <[Z.to_nat i := v]> s.
Proof.
  unfold store.
  destruct (0 <=? i) eqn:E1; destruct (i <? len s) eqn:E2; simpl; try discriminate.
  intros [= <-]. split; [lia | reflexivity].
Qed.

Lemma make_Ok {A : Type} (z : A) (n : Z) :
  0 <= n -> make z n = Ok (replicate (Z.to_nat n) z).
Proof.
  intros H. unfold make.
  replace (n <? 0) with false by (symmetry; apply Z.ltb_ge; lia). reflexivity.
Qed.

Lemma bind_Ok {A B : Type} (m : Result A) (k : A -> Result B) (b : B) :
  bind m k = Ok b -> exists a, m = Ok a /\ k a = Ok b.
Proof.
  destruct m as [a|p]; simpl; [eauto | discriminate].
Qed.

(* ------------------------------------------------------------------ *)
(** ** [decodePcm] *)

Lemma decodePcm_sample (hi lo : byte) :
  int16 (int16 (Z.shiftl (int16 (u8 hi)) 8) + int16 (u8 lo)) = pcmSample hi lo.
Proof.
  pose proof (u8_range hi). pose proof (u8_range lo).
  rewrite !(int16_small (u8 _)) by lia.
  unfold pcmSample. apply int16_congr.
  rewrite Z.shiftl_mul_pow2 by lia.
  rewrite Zplus_mod, int16_mod, <- Zplus_mod. reflexivity.
Qed.

Lemma pcmSamples_length (payload : list byte) (n : nat) :
  length payload = (2 * n)%nat -> length (pcmSamples payload) = n.
Proof.
  revert payload. induction n as [|n IH]; intros payload H.
  - destruct payload; [reflexivity | discriminate].
  - destruct payload as [|hi [|lo rest]]; simpl in H; try lia.
    simpl. f_equal. apply IH. lia.
Qed.

Lemma encode_be_sample (hi lo : byte) :
  encode_be [pcmSample hi lo] = [hi; lo].
Proof.
  pose proof (u8_range hi) as Hh. pose proof (u8_range lo) as Hl.
  unfold encode_be. simpl. unfold pcmSample.
  set (v := u8 hi * 256 + u8 lo).
  assert (Hv : int16 v mod 65536 = v) by (rewrite int16_mod; apply Z.mod_small; lia).
  pose proof (int16_range v) as Hr.
  rewrite Z.shiftr_div_pow2 by lia. change (2 ^ 8) with 256.
  assert (Hc : int16 v = v \/ int16 v = v - 65536).
  { pose proof (Z.div_mod (int16 v) 65536 ltac:(lia)) as Hd.
    rewrite Hv in Hd. subst v. lia. }
  f_equal; [|f_equal].
  - transitivity (to_byte (u8 hi)); [| apply to_byte_u8]. apply to_byte_eq_mod.
    destruct Hc as [-> | ->]; subst v.
    + replace ((u8 hi * 256 + u8 lo) / 256) with (u8 hi);
        [reflexivity | apply Z.div_unique with (r := u8 lo); lia].
    + replace ((u8 hi * 256 + u8 lo - 65536) / 256) with (u8 hi - 256);
        [| apply Z.div_unique with (r := u8 lo); lia].
      replace (u8 hi - 256) with (u8 hi + (-1) * 256) by lia.
      now rewrite Z.mod_add by lia.
  - transitivity (to_byte (u8 lo)); [| apply to_byte_u8]. apply to_byte_eq_mod.
    destruct Hc as [-> | ->]; subst v.
    + replace (u8 hi * 256 + u8 lo) with (u8 lo + u8 hi * 256) by lia.
      now rewrite Z.mod_add by lia.
    + replace (u8 hi * 256 + u8 lo - 65536) with (u8 lo + (u8 hi - 256) * 256) by lia.
      now rewrite Z.mod_add by lia.
Qed.

Lemma encode_be_pcmSamples (payload : list byte) (n : nat) :
  length payload = (2 * n)%nat -> encode_be (pcmSamples payload) = payload.
Proof.
  revert payload. induction n as [|n IH]; intros payload H.
  - destruct payload; [reflexivity | discriminate].
  - destruct payload as [|hi [|lo rest]]; simpl in H; try lia.
    change (pcmSamples (hi :: lo :: rest)) with (pcmSample hi lo :: pcmSamples rest).
    change (encode_be (pcmSample hi lo :: pcmSamples rest))
      with (encode_be [pcmSample hi lo] ++ encode_be (pcmSamples rest)).
    rewrite encode_be_sample, IH by lia. reflexivity.
Qed.

Lemma pcmSamples_lookup (payload : list byte) (i : nat) (hi lo : byte) :
  payload !! (2 * i)%nat = Some hi -> payload !! (2 * i + 1)%nat = Some lo ->
  pcmSamples payload !! i = Some (pcmSample hi lo).
Proof.
  revert payload. induction i as [|i IH]; intros payload Hhi Hlo.
  - destruct payload as [|a [|b rest]]; simpl in *; try discriminate.
    now inversion Hhi; inversion Hlo; subst.
  - destruct payload as [|a [|b rest]]; try discriminate.
    replace (2 * S i)%nat with (S (S (2 * i))) in Hhi by lia.
    replace (2 * S i + 1)%nat with (S (S (2 * i + 1))) in Hlo by lia.
    simpl in Hhi, Hlo. change (pcmSamples (a :: b :: rest) !! S i)
      with (pcmSamples rest !! i).
    apply IH; assumption.
Qed.

Lemma pcmSamples_length_half (payload : list byte) (n : nat) :
  length payload = (2 * n)%nat \/ length payload = (2 * n + 1)%nat ->
  length (pcmSamples payload) = n.
Proof.
  revert payload. induction n as [|n IH]; intros payload H.
  - destruct payload as [|a [|b rest]]; simpl in *; try reflexivity; lia.
  - destruct payload as [|a [|b rest]]; simpl in H; try lia.
    simpl. f_equal. apply IH. lia.
Qed.

(** The loop of [decodePcm] after [length done] passes: the samples already
    written are [done], the bytes already read are [pre]. *)
Lemma decodePcm_loop (n : nat) :
  forall (done : list Z) (pre rest : list byte),
    length pre = (2 * length done)%nat ->
    (2 * n <= length rest)%nat ->
    for_loop n (len done) (decodePcm_body (pre ++ rest))
      (2 * len done, done ++ replicate n 0)
    = Ok (2 * (len done + Z.of_nat n), done ++ take n (pcmSamples rest)).
Proof.
  induction n as [|n IH]; intros done pre rest Hpre Hrest.
  - simpl. rewrite !app_nil_r. do 2 f_equal. lia.
  - destruct rest as [|hi [|lo rest]]; simpl in Hrest; try lia.
    cbn [for_loop replicate]. unfold decodePcm_body at 1.
    assert (E1 : index (pre ++ hi :: lo :: rest) (2 * len done) = Ok hi).
    { apply index_Ok. split; [pose proof (len_nonneg done); lia|].
      replace (Z.to_nat (2 * len done)) with (length pre) by (unfold len; lia).
      now rewrite list_lookup_middle. }
    assert (E2 : index (pre ++ hi :: lo :: rest) (2 * len done + 1) = Ok lo).
    { apply index_Ok. split; [pose proof (len_nonneg done); lia|].
      replace (Z.to_nat (2 * len done + 1)) with (length (pre ++ [hi]))
        by (rewrite length_app; unfold len; simpl; lia).
      replace (pre ++ hi :: lo :: rest) with ((pre ++ [hi]) ++ lo :: rest)
        by now rewrite <- app_assoc.
      now rewrite list_lookup_middle. }
    rewrite E1, E2. cbn [bind].
    rewrite decodePcm_sample.
    rewrite store_Ok by (rewrite len_app; unfold len; simpl length; lia).
    cbn [bind].
    replace (Z.to_nat (len done)) with (length done + 0)%nat by (unfold len; lia).
    rewrite insert_app_r. cbn [insert list_insert].
    replace (pre ++ hi :: lo :: rest) with ((pre ++ [hi; lo]) ++ rest)
      by now rewrite <- app_assoc.
    replace (done ++ pcmSample hi lo :: replicate n 0)
      with ((done ++ [pcmSample hi lo]) ++ replicate n 0) by now rewrite <- app_assoc.
    replace (len done + 1) with (len (done ++ [pcmSample hi lo]))
      by (rewrite len_app; reflexivity).
    replace (2 * len done + 2) with (2 * len (done ++ [pcmSample hi lo]))
      by (rewrite len_app; unfold len; simpl; lia).
    rewrite IH.
    + rewrite len_app. change (len [pcmSample hi lo]) with 1.
      rewrite <- app_assoc. do 2 f_equal. lia.
    + rewrite !length_app. simpl. lia.
    + lia.
Qed.

(** [decodePcm] never panics, and its result is the list of the byte
    pairs' values: an odd last byte is left out. *)
Lemma decodePcm_total (payload : list byte) :
  decodePcm payload = Ok (pcmSamples payload).
Proof.
  unfold decodePcm.
  assert (Hq : 0 <= len payload ÷ URTP_SAMPLE_SIZE)
    by (apply Z.quot_pos; [apply len_nonneg | unfold URTP_SAMPLE_SIZE; lia]).
  rewrite make_Ok by exact Hq. cbn [bind].
  rewrite length_replicate.
  set (n := Z.to_nat (len payload ÷ URTP_SAMPLE_SIZE)).
  assert (Hn : length payload = (2 * n)%nat \/ length payload = (2 * n + 1)%nat).
  { subst n. unfold URTP_SAMPLE_SIZE in *.
    rewrite Z.quot_div_nonneg in * by (try apply len_nonneg; lia).
    pose proof (Z.div_mod (len payload) 2 ltac:(lia)) as Hd.
    pose proof (Z.mod_pos_bound (len payload) 2 ltac:(lia)) as Hm.
    unfold len in *. lia. }
  pose proof (decodePcm_loop n [] [] payload eq_refl ltac:(lia)) as L.
  simpl app in L. change (len []) with 0 in L. change (2 * 0) with 0 in L.
  rewrite L. cbn [bind].
  rewrite take_ge by (rewrite (pcmSamples_length_half payload n Hn); lia).
  reflexivity.
Qed.

(** The source samples, when they are 16-bit values, are what the decoder
    gives back from their big-endian bytes. *)
Lemma pcmSamples_encode_be (src : list Z) :
  Forall (fun s => -32768 <= s < 32768) src -> pcmSamples (encode_be src) = src.
Proof.
  induction 1 as [|s src Hs _ IH]; [reflexivity|].
  change (encode_be (s :: src))
    with (to_byte (Z.shiftr s 8) :: to_byte s :: encode_be src).
  cbn [pcmSamples]. rewrite IH. f_equal.
  unfold pcmSample. rewrite !u8_to_byte.
  rewrite Z.shiftr_div_pow2 by lia. change (2 ^ 8) with 256.
  rewrite <- (int16_small s) at 3 by exact Hs. apply int16_congr.
  pose proof (Z.div_mod s 256 ltac:(lia)) as Hd.
  pose proof (Z.div_mod (s / 256) 256 ltac:(lia)) as Hd2.
  pose proof (Z.mod_pos_bound s 256 ltac:(lia)).
  pose proof (Z.mod_pos_bound (s / 256) 256 ltac:(lia)).
  replace s with ((s / 256) mod 256 * 256 + s mod 256 + (s / 256 / 256) * 65536) at 3 by lia.
  now rewrite Z.mod_add by lia.
Qed.

(** C6. A PCM_S16 payload of [N] big-endian samples ([2 * N] bytes) decodes
    without a panic to exactly [N] samples; sample [i] is the 16-bit
    two's-complement value of the byte pair at [2 * i], high byte first; and
    writing the decoded samples back as big-endian pairs gives the payload
    again. *)
Theorem decodePcm_roundtrip (payload : list byte) (N : nat) :
  length payload = (2 * N)%nat ->
  exists audio : list Z,
    decodePcm payload = Ok audio
    /\ length audio = N
    /\ (forall (i : nat) (hi lo : byte),
          payload !! (2 * i)%nat = Some hi -> payload !! (2 * i + 1)%nat = Some lo ->
          audio !! i = Some (int16 (u8 hi * 256 + u8 lo)))
    /\ encode_be audio = payload.
Proof.
  intros H. exists (pcmSamples payload). split; [apply decodePcm_total|].
  split; [now apply pcmSamples_length|].
  split; [intros i hi lo; apply pcmSamples_lookup|].
  now apply encode_be_pcmSamples with (n := N).
Qed.

Lemma decodePcm_roundtrip_witness :
  exists audio : list Z,
    decodePcm [x01; x00; xff; xfe; x80; x00] = Ok audio
    /\ length audio = 3%nat
    /\ (forall (i : nat) (hi lo : byte),
          [x01; x00; xff; xfe; x80; x00] !! (2 * i)%nat = Some hi ->
          [x01; x00; xff; xfe; x80; x00] !! (2 * i + 1)%nat = Some lo ->
          audio !! i = Some (int16 (u8 hi * 256 + u8 lo)))
    /\ encode_be audio = [x01; x00; xff; xfe; x80; x00].
Proof.
  apply (decodePcm_roundtrip [x01; x00; xff; xfe; x80; x00] 3). reflexivity.
Defined.

(** The other direction: source samples written big-endian decode to
    themselves. *)
Lemma decodePcm_encode_be (src : list Z) :
  Forall (fun s => -32768 <= s < 32768) src -> decodePcm (encode_be src) = Ok src.
Proof.
  intros H. rewrite decodePcm_total. now rewrite pcmSamples_encode_be.
Qed.

(* ------------------------------------------------------------------ *)
(** ** Counted loops *)

Lemma for_loop_invariant {St : Type} (I : Z -> St -> Prop) (body : Z -> St -> Result St)
    (n : nat) :
  forall (x : Z) (s s' : St),
    (forall y t t', x <= y < x + Z.of_nat n -> I y t -> body y t = Ok t' -> I (y + 1) t') ->
    I x s -> for_loop n x body s = Ok s' -> I (x + Z.of_nat n) s'.
Proof.
  induction n as [|n IH]; intros x s s' Hstep Hx Hrun.
  - simpl in Hrun. injection Hrun as <-. now replace (x + Z.of_nat 0) with x by lia.
  - cbn [for_loop] in Hrun. apply bind_Ok in Hrun as (t & Hb & Hrun).
    replace (x + Z.of_nat (S n)) with (x + 1 + Z.of_nat n) by lia.
    apply IH with (s := t); [| |exact Hrun].
    + intros y u u' Hy. apply Hstep. lia.
    + apply Hstep with (t := s); [lia | exact Hx | exact Hb].
Qed.

Lemma for_loop_total {St : Type} (I : Z -> St -> Prop) (body : Z -> St -> Result St)
    (n : nat) :
  forall (x : Z) (s : St),
    (forall y t, x <= y < x + Z.of_nat n -> I y t ->
                 exists t', body y t = Ok t' /\ I (y + 1) t') ->
    I x s -> exists s', for_loop n x body s = Ok s' /\ I (x + Z.of_nat n) s'.
Proof.
  induction n as [|n IH]; intros x s Hstep Hx.
  - exists s. split; [reflexivity|]. now replace (x + Z.of_nat 0) with x by lia.
  - destruct (Hstep x s ltac:(lia) Hx) as (t & Hb & Ht).
    destruct (IH (x + 1) t) as (s' & Hrun & Hs'); [|exact Ht|].
    + intros y u Hy. apply Hstep. lia.
    + exists s'. split.
      * cbn [for_loop]. rewrite Hb. exact Hrun.
      * now replace (x + Z.of_nat (S n)) with (x + 1 + Z.of_nat n) by lia.
Qed.

(* ------------------------------------------------------------------ *)
(** ** [decodeUnicam] *)

(** The counting loop stops by itself when [fuel] covers the distance left,
    and counts the blocks that start below [limit]. *)
Lemma countBlocks_spec (step limit : Z) (fuel : nat) :
  0 < step ->
  forall x numBlocks : Z,
    limit - x <= Z.of_nat fuel ->
    countBlocks fuel x limit step numBlocks
    = numBlocks + (if x <? limit then (limit - x + step - 1) / step else 0).
Proof.
  intros Hstep. induction fuel as [|fuel IH]; intros x nb Hfuel.
  - simpl. replace (x <? limit) with false by (symmetry; apply Z.ltb_ge; lia). lia.
  - cbn [countBlocks]. destruct (x <? limit) eqn:E; [|lia].
    apply Z.ltb_lt in E. rewrite IH by lia.
    destruct (x + step <? limit) eqn:E2.
    + replace (limit - x + step - 1) with ((limit - (x + step) + step - 1) + 1 * step) by lia.
      rewrite Z.div_add by lia. lia.
    + apply Z.ltb_ge in E2.
      replace ((limit - x + step - 1) / step) with 1; [lia|].
      apply Z.div_unique with (r := limit - x - 1); lia.
Qed.

(** The block count of the decoder for 8-bit samples: the payload's bits
    divided by 132 and rounded up. *)
Lemma unicamNumBlocks_ceil (payload : list byte) :
  unicamNumBlocks payload 8 = (len payload * 8 + 131) / 132.
Proof.
  unfold unicamNumBlocks.
  change (SAMPLES_PER_UNICAM_BLOCK * 8 + UNICAM_CODED_SHIFT_SIZE_BITS) with 132.
  pose proof (len_nonneg payload) as Hl.
  rewrite countBlocks_spec by lia.
  destruct (0 <? len payload * 8) eqn:E.
  - rewrite Z.add_0_l. f_equal. lia.
  - apply Z.ltb_ge in E. replace (len payload) with 0 by lia. reflexivity.
Qed.

Section UnicamProperties.
Context {FM : FirModel}.

Lemma unicamCopy_inv (data : list byte) (x : Z) (v v' : UnicamVars) :
  unicamCopy data x v = Ok v' ->
  sourceIndex v' = sourceIndex v + 1
  /\ 0 <= sourceIndex v < len data
  /\ length (audio v') = length (audio v)
  /\ blockOffset v' = blockOffset v.
Proof.
  unfold unicamCopy. intros H.
  apply bind_Ok in H as (b & Hb & H). apply bind_Ok in H as (a & Ha & H).
  injection H as <-. cbn.
  apply index_Ok in Hb as [H0 Hl]. apply lookup_lt_Some in Hl.
  apply store_inv in Ha as [_ ->]. rewrite length_insert.
  unfold len. repeat split; lia.
Qed.

Lemma unicamCopy_loop_inv (data : list byte) (n : nat) (v v' : UnicamVars) :
  for_loop n 0 (unicamCopy data) v = Ok v' ->
  sourceIndex v' = sourceIndex v + Z.of_nat n
  /\ (0 < Z.of_nat n -> sourceIndex v' <= len data)
  /\ length (audio v') = length (audio v)
  /\ blockOffset v' = blockOffset v.
Proof.
  intros H.
  apply (for_loop_invariant
           (fun y t => sourceIndex t = sourceIndex v + y
                       /\ (0 < y -> sourceIndex t <= len data)
                       /\ length (audio t) = length (audio v)
                       /\ blockOffset t = blockOffset v)) in H.
  - exact H.
  - intros y t t' Hy (I1 & I2 & I3 & I4) Hb.
    apply unicamCopy_inv in Hb as (B1 & B2 & B3 & B4).
    repeat split; try congruence; lia.
  - repeat split; lia.
Qed.

Lemma land_1_even (z : Z) : Z.land z 1 = z mod 2.
Proof. change 1 with (Z.ones 1). now rewrite Z.land_ones by lia. Qed.

Lemma unicamShift_inv (data : list byte) (blockCount : Z) (v v' : UnicamVars) :
  unicamShift data blockCount v = Ok v' ->
  length (audio v') = length (audio v)
  /\ blockOffset v' = blockOffset v
  /\ (blockCount mod 2 = 0 ->
      sourceIndex v' = sourceIndex v + 1 /\ 0 <= sourceIndex v < len data)
  /\ (blockCount mod 2 <> 0 -> sourceIndex v' = sourceIndex v).
Proof.
  unfold unicamShift. rewrite land_1_even. intros H.
  apply bind_Ok in H as ([[sv sh] si] & Hs & H). injection H as <-. cbn.
  destruct (blockCount mod 2 =? 0) eqn:E.
  - apply Z.eqb_eq in E. apply bind_Ok in Hs as (b & Hb & Hs).
    injection Hs as _ _ <-.
    apply index_Ok in Hb as [H0 Hl]. apply lookup_lt_Some in Hl.
    unfold len. repeat split; lia.
  - apply Z.eqb_neq in E. injection Hs as _ _ <-. repeat split; lia.
Qed.

Lemma unicamExpand_inv (sampleSizeBits x : Z) (v v' : UnicamVars) :
  unicamExpand sampleSizeBits x v = Ok v' ->
  sourceIndex v' = sourceIndex v
  /\ length (audio v') = length (audio v)
  /\ blockOffset v' = blockOffset v.
Proof.
  unfold unicamExpand. intros H.
  apply bind_Ok in H as (s0 & _ & H). apply bind_Ok in H as (s1 & _ & H).
  destruct (FirGet _) as [d' fv]. destruct (DeSquealFirGet _) as [q' qv].
  apply bind_Ok in H as (a & Ha & H). injection H as <-. cbn.
  apply store_inv in Ha as [_ ->]. now rewrite length_insert.
Qed.

Lemma unicamExpand_loop_inv (sampleSizeBits : Z) (n : nat) (v v' : UnicamVars) :
  for_loop n 0 (unicamExpand sampleSizeBits) v = Ok v' ->
  sourceIndex v' = sourceIndex v
  /\ length (audio v') = length (audio v)
  /\ blockOffset v' = blockOffset v.
Proof.
  intros H.
  apply (for_loop_invariant
           (fun (_ : Z) t => sourceIndex t = sourceIndex v
                             /\ length (audio t) = length (audio v)
                             /\ blockOffset t = blockOffset v)) in H.
  - exact H.
  - intros y t t' _ (I1 & I2 & I3) Hb.
    apply unicamExpand_inv in Hb as (B1 & B2 & B3). repeat split; congruence.
  - repeat split.
Qed.

(** A block that decodes has read 16 bytes, and one more when its number
    is even, all of them inside the payload. *)
Lemma unicamBlock_inv (data : list byte) (sampleSizeBits blockCount : Z)
    (v v' : UnicamVars) :
  unicamBlock data sampleSizeBits blockCount v = Ok v' ->
  sourceIndex v' = sourceIndex v + 16 + (if blockCount mod 2 =? 0 then 1 else 0)
  /\ sourceIndex v' <= len data
  /\ length (audio v') = length (audio v)
  /\ blockOffset v' = blockOffset v + 16.
Proof.
  unfold unicamBlock. intros H.
  apply bind_Ok in H as (v1 & H1 & H). apply bind_Ok in H as (v2 & H2 & H).
  apply bind_Ok in H as (v3 & H3 & H). injection H as <-. cbn.
  apply unicamCopy_loop_inv in H1 as (C1 & C2 & C3 & C4).
  apply unicamShift_inv in H2 as (S1 & S2 & S3 & S4).
  apply unicamExpand_loop_inv in H3 as (E1 & E2 & E3).
  change (Z.of_nat (Z.to_nat SAMPLES_PER_UNICAM_BLOCK)) with 16 in *.
  change SAMPLES_PER_UNICAM_BLOCK with 16.
  destruct (blockCount mod 2 =? 0) eqn:E.
  - apply Z.eqb_eq in E. specialize (S3 E). repeat split; try congruence; lia.
  - apply Z.eqb_neq in E. specialize (S4 E). repeat split; try congruence; lia.
Qed.

Lemma unicamBlocks_inv (data : list byte) (sampleSizeBits : Z) (n : nat)
    (v v' : UnicamVars) :
  sourceIndex v = 0 ->
  for_loop n 0 (unicamBlock data sampleSizeBits) v = Ok v' ->
  sourceIndex v' = 16 * Z.of_nat n + (Z.of_nat n + 1) / 2
  /\ (0 < Z.of_nat n -> sourceIndex v' <= len data)
  /\ length (audio v') = length (audio v).
Proof.
  intros Hv H.
  apply (for_loop_invariant
           (fun bc t => 0 <= bc
                        /\ sourceIndex t = 16 * bc + (bc + 1) / 2
                        /\ (0 < bc -> sourceIndex t <= len data)
                        /\ length (audio t) = length (audio v))) in H.
  - destruct H as (_ & H1 & H2 & H3). simpl in *. repeat split; assumption.
  - intros bc t t' Hbc (I0 & I1 & I2 & I3) Hb.
    apply unicamBlock_inv in Hb as (B1 & B2 & B3 & B4).
    split; [lia|]. split; [|split; [intros _; exact B2 | congruence]].
    rewrite B1, I1. destruct (bc mod 2 =? 0) eqn:E.
    + apply Z.eqb_eq in E. div_lia.
    + apply Z.eqb_neq in E. div_lia.
  - rewrite Hv. repeat split; lia.
Qed.

(** Whenever the decoder returns, the payload is a whole number of block
    pairs (33 bytes each) and the result has 16 samples per 132 bits. *)
Lemma decodeUnicam_Ok_inv (payload : list byte) (f f' : Filters) (samples : list Z) :
  decodeUnicam payload 8 f = Ok (samples, f') ->
  len payload mod 33 = 0 /\ len samples = len payload * 8 / 132 * 16.
Proof.
  unfold decodeUnicam. rewrite unicamNumBlocks_ceil. intros H.
  pose proof (len_nonneg payload) as Hl.
  set (n := (len payload * 8 + 131) / 132) in *.
  assert (Hn : 0 <= n) by (subst n; apply Z.div_pos; lia).
  apply bind_Ok in H as (audio0 & H0 & H). apply bind_Ok in H as (v & Hv & H).
  injection H as <- <-.
  rewrite make_Ok in H0
    by (change SAMPLES_PER_UNICAM_BLOCK with 16; lia).
  injection H0 as <-.
  apply unicamBlocks_inv in Hv as (V1 & V2 & V3); [|reflexivity].
  cbn [audio] in V3. rewrite length_replicate in V3.
  change SAMPLES_PER_UNICAM_BLOCK with 16 in V3.
  rewrite Z2Nat.id in V1, V2 by lia.
  unfold len at 2. rewrite V3.
  assert (Hc : 0 < n -> len payload * 8 = 132 * n).
  { intros Hp. specialize (V2 Hp). subst n. div_lia. }
  destruct (Z.eq_dec n 0) as [Hz|Hnz].
  - assert (len payload = 0) by (subst n; div_lia).
    replace (len payload) with 0 by lia. rewrite Hz. split; reflexivity.
  - specialize (Hc ltac:(lia)). split; [div_lia|].
    rewrite Hc. div_lia.
Qed.

Lemma index_total {A : Type} (s : list A) (i : Z) :
  0 <= i < len s -> exists a, index s i = Ok a.
Proof.
  intros H. destruct (lookup_lt_is_Some_2 s (Z.to_nat i)) as [a Ha];
    [unfold len in H; lia|].
  exists a. apply index_Ok. split; [lia | exact Ha].
Qed.

Lemma index_past_end {A : Type} (s : list A) :
  index s (len s) = Panic (IndexOutOfRange (len s) (len s)).
Proof.
  unfold index. rewrite Z.ltb_irrefl. now rewrite andb_false_r.
Qed.

(** The first inner loop reads the payload byte after byte: it returns when
    the bytes are there, and otherwise stops at the first index past the
    end of the payload. *)
Lemma unicamCopy_loop_exact (data : list byte) (n : nat) :
  forall (x : Z) (v : UnicamVars),
    0 <= sourceIndex v <= len data ->
    0 <= blockOffset v + x ->
    blockOffset v + x + Z.of_nat n <= len (audio v) ->
    (sourceIndex v + Z.of_nat n <= len data ->
     exists v', for_loop n x (unicamCopy data) v = Ok v')
    /\ (len data < sourceIndex v + Z.of_nat n ->
        for_loop n x (unicamCopy data) v = Panic (IndexOutOfRange (len data) (len data))).
Proof.
  induction n as [|n IH]; intros x v Hs Hb Ha.
  - split; [intros _; now exists v | lia].
  - cbn [for_loop].
    destruct (Z.eq_dec (sourceIndex v) (len data)) as [E|E].
    + split; [lia|]. intros _. unfold unicamCopy. rewrite E, index_past_end. reflexivity.
    + destruct (index_total data (sourceIndex v) ltac:(lia)) as [b Hb'].
      assert (Hstep : exists v1, unicamCopy data x v = Ok v1).
      { unfold unicamCopy. rewrite Hb'. cbn [bind].
        rewrite store_Ok by lia. cbn [bind]. eauto. }
      destruct Hstep as [v1 Hv1]. rewrite Hv1. cbn [bind].
      pose proof (unicamCopy_inv _ _ _ _ Hv1) as (C1 & C2 & C3 & C4).
      assert (Hl : len (audio v1) = len (audio v)) by (unfold len; now rewrite C3).
      destruct (IH (x + 1) v1) as [T P]; [lia | lia | lia |].
      split; intros H; [apply T | apply P]; lia.
Qed.

Lemma signExtend_total (sampleSizeBits sample : Z) :
  exists s, signExtend sampleSizeBits sample = Ok s.
Proof.
  unfold signExtend. destruct (negb _); [|eauto].
  destruct (for_loop_total (fun _ _ => True)
              (fun y s => Ok (Z.lor s (shl16 1 y)))
              (Z.to_nat (URTP_SAMPLE_SIZE * 8 - uint64 sampleSizeBits))
              (uint64 sampleSizeBits) sample) as (s & Hs & _); eauto.
Qed.

Lemma unicamExpand_loop_total (sampleSizeBits : Z) (n : nat) :
  forall (x : Z) (v : UnicamVars),
    0 <= blockOffset v + x ->
    blockOffset v + x + Z.of_nat n <= len (audio v) ->
    exists v', for_loop n x (unicamExpand sampleSizeBits) v = Ok v'.
Proof.
  induction n as [|n IH]; intros x v Hb Ha; [now exists v|].
  cbn [for_loop].
  assert (Hstep : exists v1, unicamExpand sampleSizeBits x v = Ok v1).
  { unfold unicamExpand.
    destruct (index_total (audio v) (blockOffset v + x) ltac:(lia)) as [s0 Hs0].
    rewrite Hs0. cbn [bind].
    destruct (signExtend_total sampleSizeBits s0) as [s1 Hs1]. rewrite Hs1. cbn [bind].
    destruct (FirGet _) as [d' fv]. destruct (DeSquealFirGet _) as [q' qv].
    rewrite store_Ok by lia. cbn [bind]. eauto. }
  destruct Hstep as [v1 Hv1]. rewrite Hv1. cbn [bind].
  pose proof (unicamExpand_inv _ _ _ _ Hv1) as (E1 & E2 & E3).
  apply IH; unfold len in *; rewrite ?E2, ?E3; lia.
Qed.

(** One block: it returns when its 16 bytes, and its shift byte if its
    number is even, are inside the payload; otherwise it stops at the first
    index past the end. *)
Lemma unicamBlock_exact (data : list byte) (sampleSizeBits blockCount : Z)
    (v : UnicamVars) :
  0 <= sourceIndex v <= len data ->
  0 <= blockOffset v ->
  blockOffset v + 16 <= len (audio v) ->
  let need := 16 + (if blockCount mod 2 =? 0 then 1 else 0) in
  (sourceIndex v + need <= len data ->
   exists v', unicamBlock data sampleSizeBits blockCount v = Ok v')
  /\ (len data < sourceIndex v + need ->
      unicamBlock data sampleSizeBits blockCount v
      = Panic (IndexOutOfRange (len data) (len data))).
Proof.
  intros Hs Hb Ha need. unfold unicamBlock.
  change (Z.to_nat SAMPLES_PER_UNICAM_BLOCK) with 16%nat.
  destruct (unicamCopy_loop_exact data 16 0 v Hs ltac:(lia) ltac:(lia)) as [T P].
  destruct (Z_le_gt_dec (sourceIndex v + 16) (len data)) as [Hfit|Hover].
  - destruct (T ltac:(lia)) as [v1 Hv1]. rewrite Hv1. cbn [bind].
    pose proof (unicamCopy_loop_inv _ _ _ _ Hv1) as (C1 & C2 & C3 & C4).
    assert (Hl1 : len (audio v1) = len (audio v)) by (unfold len; now rewrite C3).
    assert (Hshift :
      (sourceIndex v1 + (if blockCount mod 2 =? 0 then 1 else 0) <= len data ->
       exists v2, unicamShift data blockCount v1 = Ok v2)
      /\ (len data < sourceIndex v1 + (if blockCount mod 2 =? 0 then 1 else 0) ->
          unicamShift data blockCount v1 = Panic (IndexOutOfRange (len data) (len data)))).
    { unfold unicamShift. rewrite land_1_even.
      destruct (blockCount mod 2 =? 0); [|split; [cbn; eauto | lia]].
      destruct (Z.eq_dec (sourceIndex v1) (len data)) as [E|E].
      - split; [lia|]. intros _. rewrite E, index_past_end. reflexivity.
      - split; [|lia]. intros _.
        destruct (index_total data (sourceIndex v1) ltac:(lia)) as [b Hb'].
        rewrite Hb'. cbn. eauto. }
    destruct Hshift as [TS PS]. subst need.
    split; intros H.
    + destruct (TS ltac:(lia)) as [v2 Hv2]. rewrite Hv2. cbn [bind].
      pose proof (unicamShift_inv _ _ _ _ Hv2) as (S1 & S2 & _).
      destruct (unicamExpand_loop_total sampleSizeBits 16 0 v2) as [v3 Hv3];
        [lia | unfold len in *; rewrite S1, S2; lia |].
      rewrite Hv3. cbn [bind]. eauto.
    + rewrite PS by lia. reflexivity.
  - subst need. split; [destruct (blockCount mod 2 =? 0); lia|].
    intros _. rewrite P by lia. reflexivity.
Qed.

(** The block loop from block [blockCount] on, when the blocks before it
    have taken their bytes. *)
Lemma unicamBlocks_exact (data : list byte) (sampleSizeBits : Z) (n : nat) :
  forall (blockCount : Z) (v : UnicamVars),
    0 <= blockCount ->
    sourceIndex v = 16 * blockCount + (blockCount + 1) / 2 ->
    sourceIndex v <= len data ->
    blockOffset v = 16 * blockCount ->
    16 * (blockCount + Z.of_nat n) <= len (audio v) ->
    let last := blockCount + Z.of_nat n in
    (16 * last + (last + 1) / 2 <= len data ->
     exists v', for_loop n blockCount (unicamBlock data sampleSizeBits) v = Ok v')
    /\ (len data < 16 * last + (last + 1) / 2 ->
        for_loop n blockCount (unicamBlock data sampleSizeBits) v
        = Panic (IndexOutOfRange (len data) (len data))).
Proof.
  induction n as [|n IH]; intros bc v Hbc Hsi Hle Hbo Hlen last.
  - subst last. split; [intros _; now exists v|].
    replace (bc + Z.of_nat 0) with bc by lia. lia.
  - cbn [for_loop].
    destruct (unicamBlock_exact data sampleSizeBits bc v) as [T P];
      [div_lia | lia | lia |].
    assert (Hneed : sourceIndex v + (16 + (if bc mod 2 =? 0 then 1 else 0))
                    = 16 * (bc + 1) + (bc + 1 + 1) / 2).
    { rewrite Hsi. destruct (bc mod 2 =? 0) eqn:E;
        [apply Z.eqb_eq in E | apply Z.eqb_neq in E]; div_lia. }
    cbv zeta in T, P. rewrite Hneed in T, P.
    destruct (Z_le_gt_dec (16 * (bc + 1) + (bc + 1 + 1) / 2) (len data)) as [Hfit|Hover].
    + destruct (T Hfit) as [v1 Hv1]. rewrite Hv1. cbn [bind].
      pose proof (unicamBlock_inv _ _ _ _ _ Hv1) as (B1 & B2 & B3 & B4).
      destruct (IH (bc + 1) v1) as [T' P'];
        [lia | lia | lia | lia | unfold len in *; rewrite B3; lia |].
      subst last. replace (bc + Z.of_nat (S n)) with (bc + 1 + Z.of_nat n) by lia.
      split; assumption.
    + subst last. split; [intros H; div_lia|].
      intros _. rewrite P by lia. reflexivity.
Qed.

(** The decoder, for every payload: it returns exactly when the payload is
    a whole number of 33-byte block pairs, with 16 samples for each 132
    bits; on every other payload it panics, reading the index just past the
    end of the payload. *)
Lemma decodeUnicam_exact (payload : list byte) (f : Filters) :
  (len payload mod 33 = 0 ->
   exists samples f', decodeUnicam payload 8 f = Ok (samples, f')
                      /\ len samples = len payload * 8 / 132 * 16)
  /\ (len payload mod 33 <> 0 ->
      decodeUnicam payload 8 f = Panic (IndexOutOfRange (len payload) (len payload))).
Proof.
  pose proof (len_nonneg payload) as Hl.
  assert (Hrun :
    let n := (len payload * 8 + 131) / 132 in
    (16 * n + (n + 1) / 2 <= len payload ->
     exists r, decodeUnicam payload 8 f = Ok r)
    /\ (len payload < 16 * n + (n + 1) / 2 ->
        decodeUnicam payload 8 f = Panic (IndexOutOfRange (len payload) (len payload)))).
  { intros n. unfold decodeUnicam. rewrite unicamNumBlocks_ceil. fold n.
    assert (Hn : 0 <= n) by (subst n; apply Z.div_pos; lia).
    rewrite make_Ok by (change SAMPLES_PER_UNICAM_BLOCK with 16; lia). cbn [bind].
    match goal with |- context [for_loop _ _ _ ?v0] => set (v := v0) end.
    destruct (unicamBlocks_exact payload 8 (Z.to_nat n) 0 v) as [T P];
      [lia | reflexivity | exact Hl | reflexivity | |].
    { subst v. cbn [audio]. rewrite len_replicate.
      change SAMPLES_PER_UNICAM_BLOCK with 16. lia. }
    cbv zeta in T, P. rewrite Z.add_0_l, Z2Nat.id in T, P by lia.
    split; intros H.
    - destruct (T H) as [v' Hv']. rewrite Hv'. cbn [bind]. eauto.
    - rewrite P by exact H. reflexivity. }
  cbv zeta in Hrun. destruct Hrun as [T P].
  split; intros Hm.
  - destruct T as [[samples f'] Hr]; [div_lia|].
    exists samples, f'. split; [exact Hr|].
    now apply decodeUnicam_Ok_inv in Hr as [_ ->].
  - apply P. div_lia.
Qed.

End UnicamProperties.

(** C2 (the code departs from it). For a UNICAM_8 payload of one byte the
    specification has the decoder produce ⌊1·8 / 132⌋ × 16 = 0 samples.
    [decodeUnicam] counts one block for it (the count is rounded up, not
    down), and panics when the block's second byte is read: no sample list
    is produced at all. *)
Theorem decodeUnicam_one_byte_panics `{FM : FirModel} (b : byte) (f : Filters) :
  decodeUnicam [b] 8 f = Panic (IndexOutOfRange 1 1)
  /\ unicamNumBlocks [b] 8 = 1
  /\ len [b] * 8 / 132 * 16 = 0.
Proof.
  split; [|split; reflexivity].
  apply (decodeUnicam_exact [b] f). discriminate.
Qed.

(** C10 (the code departs from it). [decodeUnicam] reads past the end of
    every payload whose length is not a multiple of 33 bytes: the read of
    index [len payload], which is not strictly below the length, is reached
    and the decoder panics there. *)
Theorem decodeUnicam_reads_past_end `{FM : FirModel} (payload : list byte) (f : Filters) :
  len payload mod 33 <> 0 ->
  decodeUnicam payload 8 f = Panic (IndexOutOfRange (len payload) (len payload)).
Proof.
  apply decodeUnicam_exact.
Qed.

Lemma decodeUnicam_reads_past_end_witness :
  len oneUnicamBlock mod 33 <> 0
  /\ decodeUnicam oneUnicamBlock 8 (firs idleIngest) = Panic (IndexOutOfRange 17 17).
Proof.
  split; [discriminate|].
  apply (@decodeUnicam_reads_past_end passThroughFir oneUnicamBlock). discriminate.
Defined.

(* ------------------------------------------------------------------ *)
(** ** Header validation *)

Lemma verifyUrtpHeader_total (header : list byte) :
  exists ok : bool, verifyUrtpHeader header = Ok ok.
Proof.
  unfold verifyUrtpHeader.
  destruct (URTP_HEADER_SIZE <=? len header) eqn:E; [|eauto].
  apply Z.leb_le in E. unfold URTP_HEADER_SIZE in E.
  destruct (index_total header 0 ltac:(lia)) as [h0 ->]. cbn [bind].
  destruct (Byte.eqb h0 SYNC_BYTE); [|eauto].
  destruct (index_total header 1 ltac:(lia)) as [h1 ->]. cbn [bind].
  destruct (u8 h1 <? MAX_NUM_AUDIO_CODING_SCHEMES); [|eauto].
  destruct (index_total header URTP_NUM_BYTES_AUDIO_OFFSET
              ltac:(unfold URTP_NUM_BYTES_AUDIO_OFFSET; lia)) as [hi ->].
  destruct (index_total header (URTP_NUM_BYTES_AUDIO_OFFSET + 1)
              ltac:(unfold URTP_NUM_BYTES_AUDIO_OFFSET; lia)) as [lo ->].
  cbn [bind]. destruct (_ <=? _); eauto.
Qed.

(** What the code's validation accepts: 14 bytes or more, the sync byte, a
    known coding, and a declared payload size of at most
    [URTP_DATAGRAM_MAX_SIZE] = 654, the size of a whole datagram. *)
Lemma verifyUrtpHeader_accepts (header : list byte) :
  verifyUrtpHeader header = Ok true <->
  URTP_HEADER_SIZE <= len header
  /\ header !! 0%nat = Some SYNC_BYTE
  /\ (exists c, header !! 1%nat = Some c /\ u8 c < MAX_NUM_AUDIO_CODING_SCHEMES)
  /\ declaredPayloadSize header <= 654.
Proof.
  unfold verifyUrtpHeader, declaredPayloadSize.
  destruct (URTP_HEADER_SIZE <=? len header) eqn:E.
  2:{ apply Z.leb_gt in E. split; [discriminate | lia]. }
  apply Z.leb_le in E. pose proof E as E'. unfold URTP_HEADER_SIZE in E'.
  destruct (index_total header 0 ltac:(lia)) as [h0 H0].
  destruct (index_total header 1 ltac:(lia)) as [h1 H1].
  destruct (index_total header 12 ltac:(lia)) as [hi H12].
  destruct (index_total header 13 ltac:(lia)) as [lo H13].
  change URTP_NUM_BYTES_AUDIO_OFFSET with 12. change (12 + 1) with 13.
  rewrite H0, H1, H12, H13. cbn [bind].
  apply index_Ok in H0 as [_ H0]. apply index_Ok in H1 as [_ H1].
  apply index_Ok in H12 as [_ H12]. apply index_Ok in H13 as [_ H13].
  change (Z.to_nat 0) with 0%nat in H0. change (Z.to_nat 1) with 1%nat in H1.
  change (Z.to_nat 12) with 12%nat in H12. change (Z.to_nat 13) with 13%nat in H13.
  rewrite H0, H1, H12, H13.
  change URTP_DATAGRAM_MAX_SIZE with 654.
  destruct (Byte.eqb h0 SYNC_BYTE) eqn:Es.
  2:{ split; [discriminate|]. intros (_ & [= Hs] & _). subst h0.
      apply Byte.eqb_false in Es. congruence. }
  apply Byte.byte_dec_bl in Es. subst h0.
  destruct (u8 h1 <? MAX_NUM_AUDIO_CODING_SCHEMES) eqn:Ec.
  2:{ apply Z.ltb_ge in Ec. split; [discriminate|].
      intros (_ & _ & (c & [= <-] & Hc) & _). lia. }
  apply Z.ltb_lt in Ec.
  destruct (Z.shiftl (u8 hi) 8 + u8 lo <=? 654) eqn:Ep.
  - apply Z.leb_le in Ep. split; [|reflexivity]. intros _. repeat split; eauto.
  - apply Z.leb_gt in Ep. split; [discriminate|]. intros (_ & _ & _ & Hp). lia.
Qed.

(** C3 (the code departs from it). A header that declares 650 payload
    bytes, more than the 640 a record can carry, passes [verifyUrtpHeader];
    in datagram mode the packet is delivered to the processing channel; and
    in stream mode the reassembler, on the last size byte, goes on to wait
    for the payload instead of going back to wait for a sync byte.  Both
    checks compare the size with [URTP_DATAGRAM_MAX_SIZE] = 654, which
    counts the 14 header bytes too. *)
Theorem header_declaring_650_is_accepted `{FM : FirModel} (f : Filters)
    (sent : list UrtpDatagram) :
  let g := {| tcpBuffer := []; firs := f; ProcessDatagramsChannel := sent |} in
  URTP_PAYLOAD_MAX_SIZE < declaredPayloadSize header650
  /\ verifyUrtpHeader header650 = Ok true
  /\ udpServer_packet header650 g
     = Ok ([x5a; x00; x01; x00; x00; x00; x00; x00; x00; x00; x07],
           {| tcpBuffer := []; firs := f;
              ProcessDatagramsChannel :=
                sent ++ [{| SequenceNumber := 1; Timestamp := 7; Audio := None |}] |})
  /\ handleUrtpStream newReassemblyData header650 g
     = Ok ({| State := URTP_STATE_WAITING_PAYLOAD; ByteCount := 0; PayloadSize := 650;
              Header := header650; Datagram := header650 |}, [], g).
Proof.
  repeat split; reflexivity.
Qed.

(* ------------------------------------------------------------------ *)
(** ** The stream reassembler *)

Section IngestProperties.
Context {FM : FirModel}.

Lemma handleUrtpDatagram_tcpBuffer (packet timing : list byte) (g g' : Ingest) :
  handleUrtpDatagram packet g = Ok (timing, g') -> tcpBuffer g' = tcpBuffer g.
Proof.
  unfold handleUrtpDatagram. destruct (URTP_HEADER_SIZE <=? len packet).
  - intros H. repeat (apply bind_Ok in H as (? & _ & H)).
    match type of H with (let '(_, _) := ?p in _) = _ => destruct p end.
    now injection H as _ <-.
  - now intros [= _ <-].
Qed.

(** A pass of the read loop never puts bytes back into the buffer. *)
Lemma handleUrtpStream_step_consumes (item : byte) (r r' : TcpReassemblyData)
    (t t' : list byte) (g g' : Ingest) :
  handleUrtpStream_step item r t g = Ok (r', t', g') ->
  (length (tcpBuffer g') <= length (tcpBuffer g))%nat.
Proof.
  unfold handleUrtpStream_step.
  repeat match goal with
         | |- context [if ?c then _ else _] => destruct c
         end;
    try discriminate;
    try (intros [= _ _ <-]; cbn; rewrite ?length_drop; lia).
  all: intros H; apply bind_Ok in H as ([t1 g1] & Hd & H); injection H as _ _ <-.
  all: apply handleUrtpDatagram_tcpBuffer in Hd; rewrite Hd; cbn;
    rewrite length_drop; lia.
Qed.

(** The fuel of [handleUrtpStream] is enough: when the loop returns, the
    buffer has been read to its end. *)
Lemma handleUrtpStream_loop_drains (fuel : nat) :
  forall (r r' : TcpReassemblyData) (t t' : list byte) (g g' : Ingest),
    (length (tcpBuffer g) <= fuel)%nat ->
    handleUrtpStream_loop fuel r t g = Ok (r', t', g') ->
    tcpBuffer g' = [].
Proof.
  induction fuel as [|fuel IH]; intros r r' t t' g g' Hf H.
  - injection H as _ _ <-. destruct (tcpBuffer g); [reflexivity | simpl in Hf; lia].
  - cbn [handleUrtpStream_loop] in H.
    destruct (tcpBuffer g) as [|item rest] eqn:E.
    + injection H as _ _ <-. exact E.
    + apply bind_Ok in H as ([[r1 t1] g1] & Hs & H).
      apply handleUrtpStream_step_consumes in Hs as Hc.
      cbn [tcpBuffer] in Hc. cbn [length] in Hf.
      apply IH in H; [exact H | lia].
Qed.

Lemma handleUrtpStream_drains (r r' : TcpReassemblyData) (data t' : list byte)
    (g g' : Ingest) :
  handleUrtpStream r data g = Ok (r', t', g') -> tcpBuffer g' = [].
Proof.
  unfold handleUrtpStream. apply handleUrtpStream_loop_drains. cbn. lia.
Qed.

(** The size check of the reassembler, on the second size byte: with the
    high byte [hi] already taken, the low byte [lo] sends the reassembler
    back to wait for a sync byte when the size exceeds 654 (an abort) or
    is zero, and on to the payload otherwise. *)
Lemma handleUrtpStream_step_size (hi lo : byte) (header datagram t : list byte)
    (g : Ingest) :
  let size := u8 hi * 256 + u8 lo in
  let r := {| State := URTP_STATE_WAITING_PAYLOAD_SIZE; ByteCount := 1;
              PayloadSize := u8 hi * 256; Header := header; Datagram := datagram |} in
  handleUrtpStream_step lo r t g
  = Ok (if size <=? URTP_DATAGRAM_MAX_SIZE then
          if size =? 0 then
            {| State := URTP_STATE_WAITING_SYNC; ByteCount := 0; PayloadSize := size;
               Header := []; Datagram := datagram ++ header ++ [lo] |}
          else
            {| State := URTP_STATE_WAITING_PAYLOAD; ByteCount := 0; PayloadSize := size;
               Header := header ++ [lo]; Datagram := datagram ++ header ++ [lo] |}
        else
          {| State := URTP_STATE_WAITING_SYNC; ByteCount := 0; PayloadSize := 0;
             Header := []; Datagram := datagram |},
        t, g).
Proof.
  intros size r. pose proof (u8_range hi). pose proof (u8_range lo).
  unfold handleUrtpStream_step. cbn [State ByteCount PayloadSize Header Datagram r].
  change (URTP_STATE_WAITING_PAYLOAD_SIZE =? URTP_STATE_WAITING_SYNC) with false.
  change (URTP_STATE_WAITING_PAYLOAD_SIZE =? URTP_STATE_WAITING_AUDIO_CODING) with false.
  change (URTP_STATE_WAITING_PAYLOAD_SIZE =? URTP_STATE_WAITING_SEQUENCE_NUMBER) with false.
  change (URTP_STATE_WAITING_PAYLOAD_SIZE =? URTP_STATE_WAITING_TIMESTAMP) with false.
  change (URTP_STATE_WAITING_PAYLOAD_SIZE =? URTP_STATE_WAITING_PAYLOAD_SIZE) with true.
  cbv iota.
  change (URTP_PAYLOAD_SIZE_SIZE <=? 1 + 1) with true. cbv iota.
  change (uint64 (8 * (URTP_PAYLOAD_SIZE_SIZE - 1 - 1))) with 0.
  assert (E : int64 (u8 hi * 256 + int64 (shl64 (u8 lo) 0)) = size).
  { unfold shl64. change (0 <? 64) with true. cbv iota.
    rewrite Z.shiftl_0_r. unfold uint64.
    rewrite (Z.mod_small (u8 lo)) by lia.
    rewrite (int64_small (u8 lo)) by lia. apply int64_small. subst size. lia. }
  rewrite E.
  destruct (size <=? URTP_DATAGRAM_MAX_SIZE); [destruct (size =? 0)|]; reflexivity.
Qed.

(** The last pass over a payload: with [size] bytes still to come, the
    byte just read and the [size - 1] bytes behind it complete the record,
    which is handed to [handleUrtpDatagram] whole; the reassembler then
    waits for a sync byte with an empty datagram buffer. *)
Lemma handleUrtpStream_step_payload (item : byte) (size : Z)
    (header datagram t : list byte) (g : Ingest) :
  0 < size ->
  size - 1 <= len (tcpBuffer g) ->
  let r := {| State := URTP_STATE_WAITING_PAYLOAD; ByteCount := 0; PayloadSize := size;
              Header := header; Datagram := datagram |} in
  let packet := datagram ++ [item] ++ take (Z.to_nat (size - 1)) (tcpBuffer g) in
  let g1 := {| tcpBuffer := drop (Z.to_nat (size - 1)) (tcpBuffer g); firs := firs g;
               ProcessDatagramsChannel := ProcessDatagramsChannel g |} in
  handleUrtpStream_step item r t g
  = (do '(t', g2) <- handleUrtpDatagram packet g1;
     Ok ({| State := URTP_STATE_WAITING_SYNC; ByteCount := 0; PayloadSize := 0;
            Header := []; Datagram := [] |}, t', g2)).
Proof.
  intros Hs Hb r packet g1. unfold handleUrtpStream_step.
  cbn [State ByteCount PayloadSize Header Datagram r].
  change (URTP_STATE_WAITING_PAYLOAD =? URTP_STATE_WAITING_SYNC) with false.
  change (URTP_STATE_WAITING_PAYLOAD =? URTP_STATE_WAITING_AUDIO_CODING) with false.
  change (URTP_STATE_WAITING_PAYLOAD =? URTP_STATE_WAITING_SEQUENCE_NUMBER) with false.
  change (URTP_STATE_WAITING_PAYLOAD =? URTP_STATE_WAITING_TIMESTAMP) with false.
  change (URTP_STATE_WAITING_PAYLOAD =? URTP_STATE_WAITING_PAYLOAD_SIZE) with false.
  change (URTP_STATE_WAITING_PAYLOAD =? URTP_STATE_WAITING_PAYLOAD) with true.
  cbv iota.
  replace (0 <? size) with true by (symmetry; apply Z.ltb_lt; lia).
  destruct (Z.ltb_spec (size - 1) (len (tcpBuffer g))) as [Hlt|Hge].
  - replace (size - 1 <? 0) with false by (symmetry; apply Z.ltb_ge; lia).
    rewrite Z.sub_diag. change (0 =? 0) with true. cbv iota.
    subst packet g1. rewrite <- app_assoc. reflexivity.
  - assert (E : len (tcpBuffer g) = size - 1) by lia. rewrite E.
    replace (size - 1 <? 0) with false by (symmetry; apply Z.ltb_ge; lia).
    rewrite Z.sub_diag. change (0 =? 0) with true. cbv iota.
    subst packet g1. rewrite <- app_assoc. reflexivity.
Qed.

End IngestProperties.

(** C4 (the code departs from it). A complete record whose header declares
    no payload is not passed to the datagram handler when its last header
    byte has been read: the reassembler goes back to wait for a sync byte
    with the 14 bytes left in its datagram buffer, and nothing has been
    sent on the processing channel.  The record that follows is then not
    emitted as a record either: one datagram is emitted in the end, with
    the sequence number of the empty record and with the bytes of the
    second record, header included, decoded as its audio. *)
Theorem empty_record_is_not_emitted `{FM : FirModel} (f : Filters) :
  let g := {| tcpBuffer := []; firs := f; ProcessDatagramsChannel := [] |} in
  let waiting := {| State := URTP_STATE_WAITING_SYNC; ByteCount := 0; PayloadSize := 0;
                    Header := []; Datagram := emptyRecord |} in
  handleUrtpStream newReassemblyData emptyRecord g = Ok (waiting, [], g)
  /\ handleUrtpStream waiting nextRecord g
     = Ok (newReassemblyData,
           [x5a; x00; x01; x00; x00; x00; x00; x00; x00; x00; x07],
           {| tcpBuffer := []; firs := f;
              ProcessDatagramsChannel :=
                [{| SequenceNumber := 1; Timestamp := 7;
                    Audio := Some (pcmSamples nextRecord) |}] |})
  /\ handleUrtpStream newReassemblyData nextRecord g
     = Ok (newReassemblyData,
           [x5a; x00; x02; x00; x00; x00; x00; x00; x00; x00; x07],
           {| tcpBuffer := []; firs := f;
              ProcessDatagramsChannel :=
                [{| SequenceNumber := 2; Timestamp := 7; Audio := Some [258] |}] |}).
Proof.
  repeat split; reflexivity.
Qed.

(* ------------------------------------------------------------------ *)
(** ** The PCM timeline: [handleGap] and [processDatagram] *)

Lemma putSample_app (x : Z) (done rest : list byte) (a b : byte) :
  putSample x (len done) (done ++ a :: b :: rest) = Ok (done ++ sampleBytes x ++ rest).
Proof.
  unfold putSample. change (Z.to_nat URTP_SAMPLE_SIZE) with 2%nat.
  cbn [for_loop].
  rewrite store_Ok by (rewrite len_app; unfold len; cbn [length]; lia).
  cbn [bind].
  replace (Z.to_nat (len done + 0)) with (length done + 0)%nat by (unfold len; lia).
  rewrite insert_app_r. cbn [insert list_insert].
  rewrite store_Ok by (rewrite len_app; unfold len; cbn [length]; lia).
  cbn [bind].
  replace (Z.to_nat (len done + (0 + 1))) with (length done + 1)%nat by (unfold len; lia).
  rewrite insert_app_r. cbn [insert list_insert].
  reflexivity.
Qed.

Lemma encode_le_length (audio : list Z) : len (encode_le audio) = 2 * len audio.
Proof.
  unfold len. induction audio as [|x audio IH]; [reflexivity|].
  cbn [encode_le flat_map sampleBytes app length] in *.
  unfold encode_le in IH. lia.
Qed.

Lemma encode_le_replicate_0 (n : nat) :
  encode_le (replicate n 0) = replicate (2 * n) x00.
Proof.
  induction n as [|n IH]; [reflexivity|].
  replace (2 * S n)%nat with (S (S (2 * n))) by lia.
  cbn [replicate encode_le flat_map]. fold (encode_le (replicate n 0)).
  rewrite IH. reflexivity.
Qed.

Lemma cyclicSamples_length (n : nat) (previousAudio : list Z) (y : nat) :
  length (cyclicSamples n previousAudio y) = n.
Proof.
  revert y. induction n as [|n IH]; intros y; [reflexivity|].
  cbn [cyclicSamples length]. now rewrite IH.
Qed.

Lemma gapSamples_length (n : nat) (previousAudio : list Z) :
  length (gapSamples n previousAudio) = n.
Proof.
  destruct previousAudio; cbn [gapSamples];
    [apply length_replicate | apply cyclicSamples_length].
Qed.

(** The loop that copies the received audio writes its samples low byte
    first and never panics. *)
Lemma audioBytes_fill_app (audio : list Z) :
  forall (done rest : list byte),
    length rest = (2 * length audio)%nat ->
    audioBytes_fill audio (len done ÷ 2) (done ++ rest) = Ok (done ++ encode_le audio)
    \/ Z.odd (len done) = true.
Proof.
  induction audio as [|y audio IH]; intros done rest Hrest.
  - left. destruct rest; [|discriminate]. reflexivity.
  - destruct (Z.odd (len done)) eqn:Eo; [now right | left].
    destruct rest as [|a [|b rest]]; cbn [length] in Hrest; try lia.
    cbn [audioBytes_fill].
    assert (Hx : len done ÷ 2 * URTP_SAMPLE_SIZE = len done).
    { unfold URTP_SAMPLE_SIZE. pose proof (len_nonneg done).
      rewrite Z.quot_div_nonneg by lia.
      rewrite <- Z.negb_even in Eo. apply negb_false_iff in Eo.
      apply Z.even_spec in Eo as [k Hk]. rewrite Hk.
      replace (2 * k) with (k * 2) by lia. rewrite Z.div_mul; lia. }
    rewrite Hx, putSample_app. cbn [bind].
    replace (len done ÷ 2 + 1) with (len (done ++ sampleBytes y) ÷ 2).
    2:{ rewrite len_app. change (len (sampleBytes y)) with (1 * 2).
        pose proof (len_nonneg done).
        rewrite !Z.quot_div_nonneg by lia. rewrite Z.div_add; lia. }
    rewrite (app_assoc done).
    destruct (IH (done ++ sampleBytes y) rest ltac:(lia)) as [-> | Hodd].
    + rewrite <- app_assoc. reflexivity.
    + rewrite len_app in Hodd. change (len (sampleBytes y)) with 2 in Hodd.
      rewrite Z.odd_add in Hodd. rewrite Eo in Hodd. discriminate.
Qed.

Lemma audioBytes_of_encode_le (audio : list Z) :
  audioBytes_of audio = Ok (encode_le audio).
Proof.
  unfold audioBytes_of. pose proof (len_nonneg audio).
  rewrite make_Ok by (unfold URTP_SAMPLE_SIZE; lia). cbn [bind].
  destruct (audioBytes_fill_app audio [] (replicate (Z.to_nat (len audio * URTP_SAMPLE_SIZE)) x00))
    as [E | E]; [| exact E | discriminate].
  rewrite length_replicate. unfold URTP_SAMPLE_SIZE, len. lia.
Qed.

(** The fill loop of [handleGap]: [n] samples are still to be written
    behind [done], the next one from index [y] of the previous audio. *)
Lemma handleGap_fill_app (previousAudio : list Z) (n : nat) :
  forall (fuel y : nat) (done rest : list byte),
    length rest = (2 * n)%nat ->
    (n <= fuel)%nat ->
    (y < length previousAudio)%nat ->
    handleGap_fill fuel previousAudio (len done) (Z.of_nat y) (done ++ rest)
    = Ok (done ++ encode_le (cyclicSamples n previousAudio y)).
Proof.
  induction n as [|n IH]; intros fuel y done rest Hrest Hfuel Hy.
  - destruct rest; [|discriminate]. cbn [cyclicSamples encode_le flat_map].
    rewrite app_nil_r.
    destruct fuel; [reflexivity|]. cbn [handleGap_fill].
    rewrite Z.ltb_irrefl. reflexivity.
  - destruct rest as [|a [|b rest]]; cbn [length] in Hrest; try lia.
    destruct fuel as [|fuel]; [lia|]. cbn [handleGap_fill].
    replace (len done <? len (done ++ a :: b :: rest)) with true
      by (symmetry; apply Z.ltb_lt; rewrite len_app; unfold len; cbn [length]; lia).
    assert (Hi : index previousAudio (Z.of_nat y) = Ok (nth y previousAudio 0)).
    { apply index_Ok. split; [lia|]. rewrite Nat2Z.id.
      destruct (lookup_lt_is_Some_2 previousAudio y Hy) as [v Hv].
      rewrite Hv. f_equal. symmetry. now apply nth_lookup_Some. }
    rewrite Hi. cbn [bind]. rewrite putSample_app. cbn [bind].
    cbn [cyclicSamples encode_le flat_map]. fold (encode_le).
    set (y' := if (S y <? length previousAudio)%nat then S y else O).
    replace (if len previousAudio <=? Z.of_nat y + 1 then 0 else Z.of_nat y + 1)
      with (Z.of_nat y').
    2:{ subst y'. unfold len.
        destruct (Nat.ltb_spec (S y) (length previousAudio));
          destruct (Z.leb_spec (Z.of_nat (length previousAudio)) (Z.of_nat y + 1)); lia. }
    replace (len done + URTP_SAMPLE_SIZE) with (len (done ++ sampleBytes (nth y previousAudio 0)))
      by (rewrite len_app; reflexivity).
    rewrite (app_assoc done).
    rewrite IH.
    + rewrite <- app_assoc. reflexivity.
    + lia.
    + lia.
    + subst y'. destruct (Nat.ltb_spec (S y) (length previousAudio)); lia.
Qed.

Lemma max_gap_samples : SAMPLING_FREQUENCY * MAX_GAP_FILL_MILLISECONDS ÷ 1000 = 8000.
Proof. reflexivity. Qed.

(** A gap that is not silly, with no previous record: silence. *)
Lemma handleGap_bytes_no_previous (gap : Z) :
  0 <= gap < 8000 ->
  handleGap_bytes gap None = Ok (replicate (Z.to_nat (gap * 2)) x00).
Proof.
  intros H. unfold handleGap_bytes. rewrite max_gap_samples.
  replace (gap <? 8000) with true by (symmetry; apply Z.ltb_lt; lia).
  rewrite make_Ok by (unfold URTP_SAMPLE_SIZE; lia). reflexivity.
Qed.

(** A gap that is not silly, after a record that has audio: the previous
    samples again and again, or silence when there are none. *)
Lemma handleGap_bytes_previous (gap : Z) (previous : UrtpDatagram)
    (previousAudio : list Z) :
  0 <= gap < 8000 ->
  Audio previous = Some previousAudio ->
  handleGap_bytes gap (Some previous)
  = Ok (encode_le (gapSamples (Z.to_nat gap) previousAudio)).
Proof.
  intros H Ha. unfold handleGap_bytes. rewrite max_gap_samples.
  replace (gap <? 8000) with true by (symmetry; apply Z.ltb_lt; lia).
  rewrite make_Ok by (unfold URTP_SAMPLE_SIZE; lia). cbn [bind].
  rewrite Ha. cbn [deref bind].
  destruct previousAudio as [|s0 previousAudio].
  - cbn [gapSamples]. rewrite encode_le_replicate_0.
    change (0 <? len []) with false. cbv iota.
    do 2 f_equal. unfold URTP_SAMPLE_SIZE. lia.
  - replace (0 <? len (s0 :: previousAudio)) with true
      by (symmetry; apply Z.ltb_lt; unfold len; cbn [length]; lia).
    cbn [gapSamples]. rewrite length_replicate.
    apply (handleGap_fill_app (s0 :: previousAudio) (Z.to_nat gap) _ 0 []).
    + rewrite length_replicate. unfold URTP_SAMPLE_SIZE. lia.
    + unfold URTP_SAMPLE_SIZE. lia.
    + cbn [length]. lia.
Qed.

(** A gap that is not silly, after a record that has no audio: the nil
    pointer [previousDatagram.Audio] is dereferenced. *)
Lemma handleGap_bytes_nil_audio (gap : Z) (previous : UrtpDatagram) :
  0 <= gap < 8000 ->
  Audio previous = None ->
  handleGap_bytes gap (Some previous) = Panic NilDereference.
Proof.
  intros H Ha. unfold handleGap_bytes. rewrite max_gap_samples.
  replace (gap <? 8000) with true by (symmetry; apply Z.ltb_lt; lia).
  rewrite make_Ok by (unfold URTP_SAMPLE_SIZE; lia). cbn [bind].
  rewrite Ha. reflexivity.
Qed.

Lemma handleGap_bytes_silly (gap : Z) (previousDatagram : option UrtpDatagram) :
  8000 <= gap -> handleGap_bytes gap previousDatagram = Ok [].
Proof.
  intros H. unfold handleGap_bytes. rewrite max_gap_samples.
  replace (gap <? 8000) with false by (symmetry; apply Z.ltb_ge; lia). reflexivity.
Qed.

(** What [handleGap] writes where the specification's fill rule applies:
    for a gap of [g] samples that is not silly, with no previous record or
    with a previous record that has audio, exactly [g] samples, and silence
    when there is nothing to repeat. *)
Lemma handleGap_fill_samples (g : Z) (previousDatagram : option UrtpDatagram)
    (pcm : list byte) :
  0 < g < 8000 ->
  (previousDatagram = None
   \/ exists previous a, previousDatagram = Some previous /\ Audio previous = Some a) ->
  exists fill : list Z,
    handleGap g previousDatagram pcm = Ok (pcm ++ encode_le fill)
    /\ len fill = g
    /\ ((previousDatagram = None
         \/ exists previous, previousDatagram = Some previous /\ Audio previous = Some [])
        -> fill = replicate (Z.to_nat g) 0).
Proof.
  intros Hg [-> | (previous & a & -> & Ha)]; unfold handleGap.
  - exists (replicate (Z.to_nat g) 0).
    rewrite handleGap_bytes_no_previous by lia. cbn [bind].
    rewrite encode_le_replicate_0, len_replicate.
    repeat split; [do 3 f_equal; lia | lia].
  - exists (gapSamples (Z.to_nat g) a).
    rewrite (handleGap_bytes_previous g previous a) by (assumption || lia). cbn [bind].
    split; [reflexivity|]. split; [unfold len; rewrite gapSamples_length; lia|].
    intros [H | (p' & [= <-] & Ha')]; [discriminate|].
    rewrite Ha' in Ha. injection Ha as <-. reflexivity.
Qed.

(** What [processDatagram] does on a sequence-number jump of [K] blocks
    whose fill is not silly, when both records have audio: it writes
    [K * 320] fill samples, whatever the length of the new audio, then the
    new audio, then the fill of a short block. *)
Lemma processDatagram_jump (datagram previous : UrtpDatagram)
    (saved : list UrtpDatagram) (audio previousAudio : list Z) (pcm : list byte) :
  Audio previous = Some previousAudio ->
  Audio datagram = Some audio ->
  SequenceNumber datagram <> uint16 (SequenceNumber previous + 1) ->
  let K := uint16 (SequenceNumber datagram - SequenceNumber previous) in
  K * SAMPLES_PER_BLOCK < 8000 ->
  exists (fill trailing : list Z),
    processDatagram datagram (previous :: saved) pcm
    = Ok (pcm ++ encode_le fill ++ encode_le audio ++ encode_le trailing)
    /\ len fill = K * SAMPLES_PER_BLOCK.
Proof.
  intros Hpa Ha Hseq K HK.
  assert (HK0 : 0 <= K) by (subst K; unfold uint16; apply Z.mod_pos_bound; lia).
  change SAMPLES_PER_BLOCK with 320 in *.
  unfold processDatagram. cbn [head].
  replace (SequenceNumber datagram =? uint16 (SequenceNumber previous + 1)) with false
    by (symmetry; now apply Z.eqb_neq).
  cbn [negb]. fold K. change SAMPLES_PER_BLOCK with 320.
  unfold handleGap.
  rewrite (handleGap_bytes_previous (K * 320) previous previousAudio) by (assumption || lia).
  cbn [bind]. rewrite Ha, audioBytes_of_encode_le. cbn [bind].
  pose proof (len_nonneg audio) as Hl.
  exists (gapSamples (Z.to_nat (K * 320)) previousAudio).
  destruct (len audio <? 320) eqn:E.
  - apply Z.ltb_lt in E.
    exists (gapSamples (Z.to_nat (320 - len audio)) previousAudio).
    rewrite (handleGap_bytes_previous (320 - len audio) previous previousAudio)
      by (assumption || lia).
    cbn [bind]. rewrite <- !app_assoc. split; [reflexivity|].
    unfold len. rewrite gapSamples_length. lia.
  - exists []. cbn [encode_le flat_map]. rewrite app_nil_r, <- app_assoc.
    split; [reflexivity|]. unfold len. rewrite gapSamples_length. lia.
Qed.

(** C1 (the code departs from it). Record 11 follows record 9, both with
    320 samples: the jump is K = 2 and 0 < 2·320 < 8000.  The specification
    has 2·320 − 320 = 320 fill samples inserted before the new audio;
    [processDatagram] inserts 2·320 = 640, the 320 samples of record 9
    twice, and then the new audio. *)
Theorem jump_of_two_fills_two_blocks (pcm : list byte) :
  uint16 (SequenceNumber datagram11 - SequenceNumber datagram9) = 2
  /\ specFillBeforeAudio 2 (replicate 320 256) = 320
  /\ processDatagram datagram11 [datagram9] pcm
     = Ok (pcm ++ encode_le (replicate 640 1) ++ encode_le (replicate 320 256))
  /\ len (replicate 640 1 : list Z) = 640.
Proof.
  split; [reflexivity|]. split; [reflexivity|]. split; [|reflexivity].
  unfold processDatagram, handleGap. cbn [head bind].
  change (SequenceNumber datagram11 =? uint16 (SequenceNumber datagram9 + 1)) with false.
  cbn [negb].
  replace (uint16 (SequenceNumber datagram11 - SequenceNumber datagram9) * SAMPLES_PER_BLOCK)
    with 640 by reflexivity.
  replace (handleGap_bytes 640 (Some datagram9)) with (Ok (encode_le (replicate 640 1)))
    by (vm_compute; reflexivity).
  cbn [bind Audio datagram11].
  replace (audioBytes_of (replicate 320 256)) with (Ok (encode_le (replicate 320 256)))
    by (vm_compute; reflexivity).
  cbn [bind]. change (len (replicate 320 256) <? SAMPLES_PER_BLOCK) with false.
  cbv iota. now rewrite <- app_assoc.
Qed.

(** C9 (the code departs from it). Two UDP packets of 14 bytes, each a
    valid header that declares no payload, are delivered as records
    without audio.  The first is filled with 320 samples of silence; for
    the second the gap of 320 samples is to be filled after a previous
    record whose audio pointer is nil, and [handleGap] dereferences it: no
    fill is written. *)
Theorem gap_after_record_without_audio_panics :
  let d1 := {| SequenceNumber := 1; Timestamp := 7; Audio := None |} in
  let d2 := {| SequenceNumber := 2; Timestamp := 7; Audio := None |} in
  (do '(_, g1) <- udpServer_packet emptyRecord idleIngest;
   do '(_, g2) <- udpServer_packet emptyRecord2 g1;
   Ok (ProcessDatagramsChannel g2)) = Ok [d1; d2]
  /\ processNewDatagrams [d1] [] [] = Ok ([d1], replicate 640 x00)
  /\ handleGap 320 (Some d1) (replicate 640 x00) = Panic NilDereference
  /\ processNewDatagrams [d1; d2] [] [] = Panic NilDereference.
Proof.
  repeat split; vm_compute; reflexivity.
Qed.

(* ------------------------------------------------------------------ *)
(** ** The [OutputBufferState] message *)

Lemma specMinOutputBuffered_le (bufferSize : Z) :
  specMinOutputBuffered bufferSize <= MIN_OUTPUT_BUFFERED_AUDIO.
Proof.
  unfold specMinOutputBuffered.
  destruct (Z.ltb_spec (bufferSize ÷ 2) MIN_OUTPUT_BUFFERED_AUDIO); lia.
Qed.

Lemma segmentSamples_Ok (mp3FileSamples mp3SamplesPerFrame : Z) :
  0 <= mp3FileSamples < 2 ^ 62 -> 0 < mp3SamplesPerFrame ->
  segmentSamples mp3FileSamples mp3SamplesPerFrame
  = Ok (mp3FileSamples / mp3SamplesPerFrame * mp3SamplesPerFrame)
  /\ 0 <= mp3FileSamples / mp3SamplesPerFrame * mp3SamplesPerFrame <= mp3FileSamples.
Proof.
  intros Ha Hb. unfold segmentSamples, go_div.
  replace (mp3SamplesPerFrame =? 0) with false by (symmetry; apply Z.eqb_neq; lia).
  cbn [bind]. rewrite Z.quot_div_nonneg by lia.
  pose proof (Z.div_pos mp3FileSamples mp3SamplesPerFrame ltac:(lia) Hb) as Hq.
  pose proof (Z.mul_div_le mp3FileSamples mp3SamplesPerFrame Hb) as Hm.
  assert (Hle : mp3FileSamples / mp3SamplesPerFrame <= mp3FileSamples)
    by (apply Z.div_le_upper_bound; nia).
  assert (H62 : 2 ^ 62 < 2 ^ 63) by reflexivity.
  rewrite (int64_small (mp3FileSamples / mp3SamplesPerFrame)) by lia.
  rewrite int64_small by lia. split; [reflexivity | lia].
Qed.

(** The threshold variable of the handler does take the value of the
    specification when it starts from 1000 ms; the test for silence does
    not read it. *)
Lemma onOutputBufferState_threshold (mp3FileSamples mp3SamplesPerFrame : Z)
    (message : OutputBufferState) (s s' : Segmenter) :
  minOutputBufferedAudio s = MIN_OUTPUT_BUFFERED_AUDIO ->
  onOutputBufferState mp3FileSamples mp3SamplesPerFrame message s = Ok s' ->
  minOutputBufferedAudio s' = specMinOutputBuffered (BufferSize message).
Proof.
  intros Hs. unfold onOutputBufferState, specMinOutputBuffered. rewrite Hs.
  destruct (_ && _).
  - intros H. apply bind_Ok in H as (n & _ & H). apply bind_Ok in H as (b & _ & H).
    now injection H as <-.
  - now intros [= <-].
Qed.

(** C5 fails as it is stated: with no segment file open ([mp3Handle] is
    nil) a message that reports an empty output buffer, far below the
    threshold, injects nothing. *)
Lemma silence_needs_an_open_segment_file :
  let s := {| pcmAudio := []; minOutputBufferedAudio := MIN_OUTPUT_BUFFERED_AUDIO;
              mp3HandleOpen := false |} in
  let message := {| Buffered := 0; BufferSize := 7 * Second |} in
  exists s',
    onOutputBufferState 1600 576 message s = Ok s'
    /\ segmentSamples 1600 576 = Ok 1152
    /\ ~ (pcmAudio s' = pcmAudio s ++ replicate (Z.to_nat (2 * 1152)) x00
          <-> Buffered message < specMinOutputBuffered (BufferSize message)).
Proof.
  eexists. split; [reflexivity|]. split; [reflexivity|].
  intros [_ H]. specialize (H ltac:(reflexivity)). discriminate H.
Qed.

(** The test for silence compares with the constant 1000 ms, not with the
    reduced threshold: with a buffer size of one second the threshold of the
    specification is 500 ms, and a message that reports 700 ms buffered
    still injects a segment of silence. *)
Lemma silence_threshold_is_not_reduced :
  let message := {| Buffered := 700 * Millisecond; BufferSize := Second |} in
  specMinOutputBuffered (BufferSize message) = 500 * Millisecond
  /\ onOutputBufferState 1600 576 message initialSegmenter
     = Ok {| pcmAudio := replicate (Z.to_nat (2 * 1152)) x00;
             minOutputBufferedAudio := 500 * Millisecond;
             mp3HandleOpen := true |}.
Proof.
  split; vm_compute; reflexivity.
Qed.

(** C5, as the code has it by design. With a segment file open, a message
    whose [Buffered] is below the threshold of the specification (1000 ms,
    reduced to half of [BufferSize] when 1000 ms exceeds that half) injects
    one segment's worth of silence, a whole number of MP3 frames; with no
    segment file open, or with [Buffered] at 1000 ms or more, nothing is
    injected. *)
Theorem outputBufferState_silence (mp3FileSamples mp3SamplesPerFrame : Z)
    (message : OutputBufferState) (s : Segmenter) :
  0 <= mp3FileSamples < 2 ^ 62 ->
  0 < mp3SamplesPerFrame ->
  let n := mp3FileSamples / mp3SamplesPerFrame * mp3SamplesPerFrame in
  exists s',
    onOutputBufferState mp3FileSamples mp3SamplesPerFrame message s = Ok s'
    /\ (mp3HandleOpen s = true ->
        Buffered message < specMinOutputBuffered (BufferSize message) ->
        pcmAudio s' = pcmAudio s ++ replicate (Z.to_nat (2 * n)) x00)
    /\ (mp3HandleOpen s = false \/ MIN_OUTPUT_BUFFERED_AUDIO <= Buffered message ->
        pcmAudio s' = pcmAudio s).
Proof.
  intros Ha Hb n.
  destruct (segmentSamples_Ok mp3FileSamples mp3SamplesPerFrame Ha Hb) as [Hn Hr].
  fold n in Hn, Hr.
  pose proof (specMinOutputBuffered_le (BufferSize message)) as Hle.
  unfold onOutputBufferState. rewrite Hn. cbn [bind].
  assert (H62 : 2 ^ 62 + 2 ^ 62 = 2 ^ 63) by reflexivity.
  rewrite int64_small by (unfold URTP_SAMPLE_SIZE; lia).
  rewrite make_Ok by (unfold URTP_SAMPLE_SIZE; lia). cbn [bind].
  destruct (Z.ltb_spec (Buffered message) MIN_OUTPUT_BUFFERED_AUDIO) as [Hlow|Hhigh];
    destruct (mp3HandleOpen s) eqn:Eh; cbn [andb];
    eexists; (split; [reflexivity|]); cbn [pcmAudio]; split.
  all: try (intros; reflexivity).
  all: try (intros; discriminate).
  all: try (intros; lia).
  all: try (intros [H | H]; [discriminate | lia]).
  intros _ _. do 2 f_equal. unfold URTP_SAMPLE_SIZE. lia.
Qed.

Lemma outputBufferState_silence_witness :
  exists s',
    onOutputBufferState 1600 576 {| Buffered := 0; BufferSize := 7 * Second |}
      initialSegmenter = Ok s'
    /\ pcmAudio s' = replicate (Z.to_nat (2 * 1152)) x00.
Proof.
  destruct (outputBufferState_silence 1600 576
              {| Buffered := 0; BufferSize := 7 * Second |} initialSegmenter)
    as (s' & Hrun & Hin & _); [split; [lia | reflexivity] | lia |].
  exists s'. split; [exact Hrun|].
  apply Hin; reflexivity.
Defined.

(* ------------------------------------------------------------------ *)
(** ** The media sequence number *)

Lemma int64_succ (c : Z) : int64 (int64 c + 1) = int64 (c + 1).
Proof.
  unfold int64.
  replace (((c + 2 ^ 63) mod 2 ^ 64 - 2 ^ 63 + 1 + 2 ^ 63))
    with ((c + 2 ^ 63) mod 2 ^ 64 + 1) by lia.
  replace (c + 1 + 2 ^ 63) with ((c + 2 ^ 63) + 1) by lia.
  rewrite Zplus_mod_idemp_l. reflexivity.
Qed.

Lemma usableCount_app (a b : list Mp3AudioFile) :
  usableCount (a ++ b) = usableCount a + usableCount b.
Proof.
  unfold usableCount. rewrite List.filter_app. apply len_app.
Qed.

Lemma usableCount_cons (f : Mp3AudioFile) (l : list Mp3AudioFile) :
  usableCount (f :: l) = (if usable f then 1 else 0) + usableCount l.
Proof.
  unfold usableCount, len. cbn [List.filter]. destruct (usable f); cbn [length]; lia.
Qed.

Lemma usableCount_nonneg (l : list Mp3AudioFile) : 0 <= usableCount l.
Proof. apply len_nonneg. Qed.

Section AudioOutProperties.
Variable playlistLengthSeconds : Z.

Abbreviation step := (publisherStep playlistLengthSeconds).
Abbreviation agedOut := (agedOutSinceReset playlistLengthSeconds).

(** One pass of the stream ticker: the sequence number advances by the
    number of files that stop being usable, counted with the wrap-around
    of [int]; [c] is the count that [msn] stands for. *)
Lemma streamTick_loop_counts (obs : nat -> TickObservation) (rest : list Mp3AudioFile) :
  forall (i : nat) (visited : list Mp3AudioFile) (msn c : Z)
         (sent : list OutputBufferState),
    Forall removableIsUnusable rest ->
    Forall removableIsUnusable visited ->
    msn = int64 c ->
    let p' := streamTick_loop playlistLengthSeconds obs i visited rest msn sent in
    mediaSequenceNumber p'
    = int64 (c + (usableCount visited + usableCount rest - usableCount (mp3FileList p')))
    /\ usableCount (mp3FileList p') <= usableCount visited + usableCount rest
    /\ Forall removableIsUnusable (mp3FileList p').
Proof.
  induction rest as [|f rest IH]; intros i visited msn c sent Hrest Hvis Hmsn.
  - cbn. change (usableCount []) with 0. split; [|split; [lia | exact Hvis]].
    rewrite Hmsn. f_equal. lia.
  - inversion Hrest as [|? ? Hf Hrest']; subst.
    cbn [streamTick_loop]. rewrite usableCount_cons.
    destruct (usable f && (mp3UsableAge playlistLengthSeconds
                           <? ageAtUsableCheck (obs i))) eqn:Eflip.
    + apply andb_prop in Eflip as [Eu _]. rewrite Eu.
      set (f2 := if negb (usable (markUnusable f))
                    && (mp3RemovableAge playlistLengthSeconds
                        <? ageAtRemovableCheck (obs i))
                 then markRemovable (markUnusable f) else markUnusable f).
      assert (Hu2 : usable f2 = false)
        by (subst f2; destruct (negb (usable (markUnusable f)) && _); reflexivity).
      destruct (removable f2 && removeSucceeds (obs i)).
      * destruct (IH (S i) visited (int64 (int64 c + 1)) (c + 1)
                    (sent ++ [{| Buffered :=
                                   makePlaylist_totalDuration
                                     (visited ++ markUnusable f :: rest);
                                 BufferSize := mp3UsableAge playlistLengthSeconds |}])
                    Hrest' Hvis (int64_succ c)) as (I1 & I2 & I3).
        split; [|split; [lia | exact I3]].
        rewrite I1. f_equal; lia.
      * destruct (IH (S i) (visited ++ [f2]) (int64 (int64 c + 1)) (c + 1)
                    (sent ++ [{| Buffered :=
                                   makePlaylist_totalDuration
                                     (visited ++ markUnusable f :: rest);
                                 BufferSize := mp3UsableAge playlistLengthSeconds |}])
                    Hrest') as (I1 & I2 & I3).
        { apply Forall_app. split; [exact Hvis|]. constructor; [|constructor].
          intros _. exact Hu2. }
        { apply int64_succ. }
        rewrite usableCount_app, usableCount_cons, Hu2 in I1, I2.
        change (usableCount []) with 0 in I1, I2.
        split; [|split; [lia | exact I3]].
        rewrite I1. f_equal; lia.
    + set (f2 := if negb (usable f)
                    && (mp3RemovableAge playlistLengthSeconds
                        <? ageAtRemovableCheck (obs i))
                 then markRemovable f else f).
      assert (Hu2 : usable f2 = usable f)
        by (subst f2; destruct (negb (usable f) && _); reflexivity).
      assert (Hw2 : removableIsUnusable f2).
      { subst f2. destruct (usable f) eqn:Eu; cbn [negb andb].
        - exact Hf.
        - destruct (_ <? _); intros _; assumption. }
      destruct (removable f2 && removeSucceeds (obs i)) eqn:Erm.
      * apply andb_prop in Erm as [Er _].
        assert (Eu : usable f = false) by (rewrite <- Hu2; apply Hw2, Er).
        rewrite Eu.
        destruct (IH (S i) visited (int64 c) c sent Hrest' Hvis eq_refl) as (I1 & I2 & I3).
        split; [|split; [lia | exact I3]].
        rewrite I1. f_equal; lia.
      * destruct (IH (S i) (visited ++ [f2]) (int64 c) c sent Hrest') as (I1 & I2 & I3).
        { apply Forall_app. split; [exact Hvis|]. constructor; [exact Hw2 | constructor]. }
        { reflexivity. }
        rewrite usableCount_app, usableCount_cons, Hu2 in I1, I2.
        change (usableCount []) with 0 in I1, I2.
        split; [|split; [lia | exact I3]].
        rewrite I1. f_equal; lia.
Qed.

Lemma resetRemove_wf (removeOk : nat -> bool) (files : list Mp3AudioFile) :
  forall i, Forall removableIsUnusable files ->
            Forall removableIsUnusable (resetRemove removeOk i files).
Proof.
  induction files as [|f files IH]; intros i H; [constructor|].
  inversion H; subst. cbn [resetRemove].
  destruct (removeOk i); [apply IH; assumption | constructor; [assumption | now apply IH]].
Qed.

(** A step keeps the files well formed, counts what it ages out, and a
    tick never ages out a negative number of files. *)
Lemma publisherStep_counts (p : Publisher) (e : PublisherEvent) (c : Z) :
  Forall removableIsUnusable (mp3FileList p) ->
  mediaSequenceNumber p = int64 c ->
  Forall removableIsUnusable (mp3FileList (step p e))
  /\ 0 <= agedOutIn e p (step p e)
  /\ mediaSequenceNumber (step p e)
     = (if isReset e then 0 else int64 (c + agedOutIn e p (step p e))).
Proof.
  intros Hwf Hmsn. destruct e as [obs | name now d | removeOk].
  - cbn [publisherStep agedOutIn isReset].
    destruct (streamTick_loop_counts obs (mp3FileList p) 0 [] (mediaSequenceNumber p) c
                (bufferStatesSent p) Hwf ltac:(constructor) Hmsn) as (I1 & I2 & I3).
    change (usableCount []) with 0 in I1, I2. cbv zeta in I1, I2, I3.
    split; [exact I3|]. split; [lia|]. rewrite I1. f_equal; lia.
  - cbn [publisherStep agedOutIn isReset mp3FileList mediaSequenceNumber].
    split; [|split; [lia | rewrite Hmsn; f_equal; lia]].
    apply Forall_app. split; [exact Hwf|]. constructor; [|constructor].
    intros H. discriminate H.
  - cbn [publisherStep agedOutIn isReset mp3FileList mediaSequenceNumber].
    split; [now apply resetRemove_wf | split; [lia | reflexivity]].
Qed.

(** The count along a run, one event later. *)
Lemma agedOutSinceReset_snoc (events : list PublisherEvent) (e : PublisherEvent) :
  forall (p : Publisher) (c : Z),
    agedOut (events ++ [e]) p c
    = if isReset e then 0
      else agedOut events p c
           + agedOutIn e (fold_left step events p) (step (fold_left step events p) e).
Proof.
  induction events as [|e0 events IH]; intros p c.
  - cbn. destruct e; cbn; lia.
  - cbn [app agedOutSinceReset fold_left]. destruct e0; apply IH.
Qed.

(** The invariant of the publisher: along every run the sequence number is
    the count of the files aged out since the last [Reset], up to the
    wrap-around of [int]. *)
Lemma publisherRun_invariant (events : list PublisherEvent) :
  forall (p : Publisher) (c : Z),
    Forall removableIsUnusable (mp3FileList p) ->
    mediaSequenceNumber p = int64 c ->
    0 <= c ->
    Forall removableIsUnusable (mp3FileList (fold_left step events p))
    /\ 0 <= agedOut events p c
    /\ mediaSequenceNumber (fold_left step events p) = int64 (agedOut events p c).
Proof.
  induction events as [|e events IH]; intros p c Hwf Hmsn Hc.
  - cbn. auto.
  - cbn [fold_left agedOutSinceReset].
    destruct (publisherStep_counts p e c Hwf Hmsn) as (S1 & S2 & S3).
    destruct e as [obs | name now d | removeOk]; cbn [isReset] in S3.
    + apply IH; [exact S1 | exact S3 | lia].
    + apply IH; [exact S1 | exact S3 | lia].
    + apply IH; [exact S1 | rewrite S3; reflexivity | lia].
Qed.

End AudioOutProperties.

(** C8. Along every run of the publisher from its start, as long as the
    count stays within the range of [int]: the media sequence number equals
    the number of segments that have gone from usable to unusable since the
    last Reset; an event other than a Reset never decreases it; and a
    Reset sets it to 0. *)
Theorem mediaSequenceNumber_counts_aged_out (playlistLengthSeconds : Z)
    (events : list PublisherEvent) (e : PublisherEvent) :
  agedOutSinceReset playlistLengthSeconds events initialPublisher 0 < 2 ^ 63 ->
  agedOutSinceReset playlistLengthSeconds (events ++ [e]) initialPublisher 0 < 2 ^ 63 ->
  let before := publisherRun playlistLengthSeconds events in
  let after := publisherRun playlistLengthSeconds (events ++ [e]) in
  mediaSequenceNumber before
  = agedOutSinceReset playlistLengthSeconds events initialPublisher 0
  /\ mediaSequenceNumber after
     = agedOutSinceReset playlistLengthSeconds (events ++ [e]) initialPublisher 0
  /\ (isReset e = false -> mediaSequenceNumber before <= mediaSequenceNumber after)
  /\ (isReset e = true -> mediaSequenceNumber after = 0).
Proof.
  intros Hb Ha before after.
  destruct (publisherRun_invariant playlistLengthSeconds events initialPublisher 0
              ltac:(constructor) eq_refl ltac:(lia)) as (_ & B1 & B2).
  destruct (publisherRun_invariant playlistLengthSeconds (events ++ [e]) initialPublisher 0
              ltac:(constructor) eq_refl ltac:(lia)) as (_ & A1 & A2).
  fold (publisherRun playlistLengthSeconds events) in B2.
  fold (publisherRun playlistLengthSeconds (events ++ [e])) in A2.
  fold before in B2. fold after in A2.
  assert (H63 : - 2 ^ 63 < 0) by reflexivity.
  rewrite int64_small in B2 by lia. rewrite int64_small in A2 by lia.
  split; [exact B2|]. split; [exact A2|].
  pose proof (agedOutSinceReset_snoc playlistLengthSeconds events e initialPublisher 0) as Hs.
  split; intros He; rewrite He in Hs.
  - rewrite A2, B2, Hs.
    destruct (publisherRun_invariant playlistLengthSeconds events initialPublisher 0
                ltac:(constructor) eq_refl ltac:(lia)) as (W & _ & M).
    destruct (publisherStep_counts playlistLengthSeconds _ e _ W M) as (_ & S2 & _).
    lia.
  - rewrite A2. exact Hs.
Qed.

Lemma mediaSequenceNumber_counts_aged_out_witness :
  mediaSequenceNumber (publisherRun 7 shortRun) = 1
  /\ mediaSequenceNumber (publisherRun 7 (shortRun ++ [NewSegment [] Second Second])) = 1
  /\ (isReset (NewSegment [] Second Second) = false ->
      mediaSequenceNumber (publisherRun 7 shortRun)
      <= mediaSequenceNumber (publisherRun 7 (shortRun ++ [NewSegment [] Second Second])))
  /\ (isReset (NewSegment [] Second Second) = true ->
      mediaSequenceNumber (publisherRun 7 (shortRun ++ [NewSegment [] Second Second])) = 0).
Proof.
  apply (mediaSequenceNumber_counts_aged_out 7 shortRun (NewSegment [] Second Second));
    reflexivity.
Defined.

(** A tick ages out exactly the usable files it finds older than the
    playlist window, here on a list of one file. *)
Lemma streamTick_ages_out_one (playlistLengthSeconds : Z) (f : Mp3AudioFile)
    (obs : nat -> TickObservation) (msn : Z) (sent : list OutputBufferState) :
  usable f = true -> removable f = false ->
  let p := {| mp3FileList := [f]; mediaSequenceNumber := msn; bufferStatesSent := sent |} in
  let p' := publisherStep playlistLengthSeconds p (StreamTick obs) in
  if mp3UsableAge playlistLengthSeconds <? ageAtUsableCheck (obs 0%nat)
  then mediaSequenceNumber p' = int64 (msn + 1)
       /\ agedOutIn (StreamTick obs) p p' = 1
  else mediaSequenceNumber p' = msn /\ mp3FileList p' = [f].
Proof.
  intros Hu Hr p p'. subst p p'.
  destruct f as [name ti ts du us rm]. cbn [usable removable] in Hu, Hr. subst us rm.
  unfold publisherStep.
  cbn [streamTick_loop mp3FileList mediaSequenceNumber bufferStatesSent usable andb].
  destruct (mp3UsableAge playlistLengthSeconds <? ageAtUsableCheck (obs 0%nat)).
  - cbn [markUnusable usable removable negb andb].
    destruct (mp3RemovableAge playlistLengthSeconds <? ageAtRemovableCheck (obs 0%nat));
      cbn [markRemovable markUnusable usable removable andb];
      destruct (removeSucceeds (obs 0%nat)); split; reflexivity.
  - cbn [usable removable negb andb]. split; reflexivity.
Qed.

(* ------------------------------------------------------------------ *)
(** ** The fixed part of the ID3 tag *)

(** The 65 bytes that [writeTag] writes before the timestamp: the ID3
    header with version 4.0, no flags and the tag size 0x3f, then the frame
    "PRIV" of size 0x35 with no flags, then the owner string and its NUL.
    The sizes agree with an 8-byte timestamp behind the prefix. *)
Lemma id3Prefix_layout :
  id3Prefix
  = String.list_byte_of_string "ID3" ++ [x04; x00] ++ [x00] ++ [x00; x00; x00; x3f]
    ++ String.list_byte_of_string "PRIV" ++ [x00; x00; x00; x35] ++ [x00; x00]
    ++ String.list_byte_of_string "com.apple.streaming.transportStreamTimestamp"
    ++ [x00]
  /\ len id3Prefix = 65
  /\ len id3Prefix + MP3_ID3_TAG_TIMESTAMP_LEN = 10 + u8 x3f
  /\ len id3Owner + 1 + MP3_ID3_TAG_TIMESTAMP_LEN = u8 x35.
Proof.
  repeat split; reflexivity.
Qed.

(* ------------------------------------------------------------------ *)
(** ** The timestamp of the ID3 tag *)

(** What [writeTag] writes is the prefix and eight bytes more. *)
Lemma writeTag_shape (offset : Z) (tag : list byte) :
  writeTag offset = Some tag ->
  take 65 tag = id3Prefix /\ len tag = 65 + MP3_ID3_TAG_TIMESTAMP_LEN.
Proof.
  unfold writeTag. destruct (writeTag_timestamp offset) as [v|]; [|discriminate].
  intros [= <-]. split; reflexivity.
Qed.

(** C7 (the code departs from it).  A segment file begins with the 65
    fixed bytes of [id3Prefix] and eight bytes of big-endian timestamp, but
    the timestamp is not always the offset on a 90 kHz basis: [writeTag]
    works it out in [float32], whose 24 bits of precision do not hold every
    offset.  With the default segment length of 1000 ms and MP3 frames of
    576 samples a segment has 15552 samples and lasts 972 ms.  The first
    seven segments, at the offsets 0 to 6 times 972 ms, are tagged with the
    ticks of a 90 kHz clock; the eighth, at 6804 ms, is tagged with 612359,
    the bytes 00 00 00 00 00 09 58 07, where the clock stands at 612360
    ticks, and the fifteenth with 1224719 where it stands at 1224720. *)
Theorem writeTag_timestamp_float32 :
  segmentSamples 16000 576 = Ok 15552
  /\ 15552 * 1000000 / SAMPLING_FREQUENCY * Microsecond = 972 * Millisecond
  /\ Forall (fun j => writeTag_timestamp (j * (972 * Millisecond))
                      = Some (ticks90kHz (j * (972 * Millisecond))))
            [0; 1; 2; 3; 4; 5; 6]
  /\ writeTag (7 * (972 * Millisecond))
     = Some (id3Prefix ++ [x00; x00; x00; x00; x00; x09; x58; x07])
  /\ writeTag_timestamp (7 * (972 * Millisecond)) = Some 612359
  /\ ticks90kHz (7 * (972 * Millisecond)) = 612360
  /\ writeTag_timestamp (14 * (972 * Millisecond)) = Some 1224719
  /\ ticks90kHz (14 * (972 * Millisecond)) = 1224720.
Proof.
  split; [vm_compute; reflexivity|].
  split; [vm_compute; reflexivity|].
  split; [repeat (apply Forall_cons; split; [vm_compute; reflexivity|]); apply Forall_nil_2|].
  repeat (split; [vm_compute; reflexivity|]).
  vm_compute; reflexivity.
Qed.


(* ================================================================== *)
(** * Further properties of the code *)

(* ------------------------------------------------------------------ *)
(** ** The decoders *)

(** X1. [decodePcm] never panics, whatever the payload: it returns half as
    many samples as there are bytes, rounded down, and an odd last byte is
    left out without changing the samples before it. *)
Theorem decodePcm_never_panics (payload : list byte) :
  exists audio : list Z,
    decodePcm payload = Ok audio
    /\ len audio = len payload / 2
    /\ (forall b : byte, Z.even (len payload) = true ->
                         decodePcm (payload ++ [b]) = Ok audio).
Proof.
  exists (pcmSamples payload). split; [apply decodePcm_total|].
  pose proof (len_nonneg payload) as Hl.
  assert (Hn : length payload = (2 * Z.to_nat (len payload / 2))%nat
               \/ length payload = (2 * Z.to_nat (len payload / 2) + 1)%nat)
    by (unfold len in *; div_lia).
  split.
  - unfold len at 1. rewrite (pcmSamples_length_half payload _ Hn). div_lia.
  - intros b He. rewrite decodePcm_total. f_equal.
    apply Z.even_spec in He as [k Hk].
    assert (Hlen : length payload = (2 * Z.to_nat k)%nat) by (unfold len in *; lia).
    clear Hn Hk Hl. revert payload Hlen.
    induction (Z.to_nat k) as [|n IH]; intros payload Hlen.
    + destruct payload; [reflexivity | discriminate].
    + destruct payload as [|h [|l rest]]; cbn [length] in Hlen; try lia.
      cbn [app pcmSamples]. f_equal. apply IH. lia.
Qed.

(** X2. Samples that are 16-bit values, written as big-endian byte pairs,
    are decoded by [decodePcm] to themselves. *)
Theorem decodePcm_inverts_encode_be (src : list Z) :
  Forall (fun s => -32768 <= s < 32768) src -> decodePcm (encode_be src) = Ok src.
Proof.
  intros H. rewrite decodePcm_total. now rewrite pcmSamples_encode_be.
Qed.

Lemma decodePcm_inverts_encode_be_witness :
  decodePcm (encode_be [0; 1; -1; 32767; -32768]) = Ok [0; 1; -1; 32767; -32768].
Proof.
  apply (decodePcm_inverts_encode_be [0; 1; -1; 32767; -32768]).
  repeat constructor; lia.
Defined.

(** X3. A UNICAM payload that is a whole number [k] of block pairs (33
    bytes each: two blocks of 16 values and the byte that holds their two
    shifts) is decoded without a panic, by any implementation of the two
    filters, to [32 * k] samples. *)
Theorem decodeUnicam_block_pairs `{FM : FirModel} (payload : list byte) (k : Z)
    (f : Filters) :
  len payload = 33 * k ->
  exists (samples : list Z) (f' : Filters),
    decodeUnicam payload 8 f = Ok (samples, f') /\ len samples = 32 * k.
Proof.
  intros Hk.
  destruct (decodeUnicam_exact payload f) as [T _].
  destruct T as (samples & f' & Hr & Hs); [div_lia|].
  exists samples, f'. split; [exact Hr|]. rewrite Hs, Hk. div_lia.
Qed.

Lemma decodeUnicam_block_pairs_witness :
  exists (samples : list Z) (f' : Filters),
    decodeUnicam (oneUnicamBlock ++ replicate 16 xff) 8 (firs idleIngest)
    = Ok (samples, f')
    /\ len samples = 32 * 1.
Proof.
  apply (@decodeUnicam_block_pairs passThroughFir (oneUnicamBlock ++ replicate 16 xff) 1).
  reflexivity.
Defined.

(** X4. The sign-extension loop of [decodeUnicam], for 8-bit samples: a
    byte held in an [int16] becomes the two's-complement value of the
    byte. *)
Theorem signExtend_8_bits (b : byte) :
  signExtend 8 (int16 (u8 b)) = Ok (signed8 b).
Proof.
  destruct b; vm_compute; reflexivity.
Qed.


(* ------------------------------------------------------------------ *)
(** ** Datagrams *)

Lemma index_lookup {A : Type} (s : list A) (i : Z) (a : A) :
  0 <= i -> s !! Z.to_nat i = Some a -> index s i = Ok a.
Proof.
  intros H0 H. apply index_Ok. split; assumption.
Qed.

Lemma shl64_u8 (b : byte) (s : Z) :
  0 <= s <= 56 -> shl64 (u8 b) s = u8 b * 2 ^ s.
Proof.
  intros Hs. pose proof (u8_range b) as Hb. unfold shl64, uint64.
  replace (s <? 64) with true by (symmetry; apply Z.ltb_lt; lia).
  rewrite Z.shiftl_mul_pow2 by lia. apply Z.mod_small.
  assert (2 ^ s <= 2 ^ 56) by (apply Z.pow_le_mono_r; lia).
  assert (2 ^ 56 * 256 = 2 ^ 64) by reflexivity.
  assert (0 < 2 ^ s) by (apply Z.pow_pos_nonneg; lia). nia.
Qed.

Section DatagramProperties.
Context {FM : FirModel}.

(** A packet with PCM coding, byte by byte. *)
Lemma handleUrtpDatagram_pcm_shape (b0 s0 s1 t0 t1 t2 t3 t4 t5 t6 t7 z0 z1 : byte)
    (payload : list byte) (g : Ingest) :
  handleUrtpDatagram
    ([b0; x00; s0; s1; t0; t1; t2; t3; t4; t5; t6; t7; z0; z1] ++ payload) g
  = Ok ([b0; s0; s1; t0; t1; t2; t3; t4; t5; t6; t7],
        {| tcpBuffer := tcpBuffer g; firs := firs g;
           ProcessDatagramsChannel :=
             ProcessDatagramsChannel g
             ++ [{| SequenceNumber := bigEndian [s0; s1];
                    Timestamp := bigEndian [t0; t1; t2; t3; t4; t5; t6; t7];
                    Audio := match payload with
                             | [] => None
                             | _ :: _ => Some (pcmSamples payload)
                             end |}] |}).
Proof.
  set (packet := [b0; x00; s0; s1; t0; t1; t2; t3; t4; t5; t6; t7; z0; z1] ++ payload).
  assert (Hlen : len packet = 14 + len payload)
    by (subst packet; rewrite len_app; reflexivity).
  pose proof (len_nonneg payload) as Hp.
  unfold handleUrtpDatagram.
  replace (URTP_HEADER_SIZE <=? len packet) with true
    by (symmetry; apply Z.leb_le; unfold URTP_HEADER_SIZE; lia).
  rewrite (index_lookup packet 0 b0), (index_lookup packet 1 x00),
    (index_lookup packet 2 s0), (index_lookup packet 3 s1),
    (index_lookup packet 4 t0), (index_lookup packet 5 t1),
    (index_lookup packet 6 t2), (index_lookup packet 7 t3),
    (index_lookup packet 8 t4), (index_lookup packet 9 t5),
    (index_lookup packet 10 t6), (index_lookup packet 11 t7) by (try lia; reflexivity).
  cbn [bind].
  pose proof (u8_range s0). pose proof (u8_range s1).
  pose proof (u8_range t0). pose proof (u8_range t1). pose proof (u8_range t2).
  pose proof (u8_range t3). pose proof (u8_range t4). pose proof (u8_range t5).
  pose proof (u8_range t6). pose proof (u8_range t7).
  assert (Eseq : uint16 (uint16 (Z.shiftl (u8 s0) 8) + u8 s1) = bigEndian [s0; s1]).
  { unfold uint16, bigEndian. cbn [fold_left]. rewrite Z.shiftl_mul_pow2 by lia.
    change (2 ^ 8) with 256. rewrite (Z.mod_small (u8 s0 * 256)) by lia.
    rewrite Z.mod_small by lia. lia. }
  assert (Ets : uint64 (shl64 (u8 t0) 56 + shl64 (u8 t1) 48 + shl64 (u8 t2) 40
                        + shl64 (u8 t3) 32 + shl64 (u8 t4) 24 + shl64 (u8 t5) 16
                        + shl64 (u8 t6) 8 + u8 t7)
                = bigEndian [t0; t1; t2; t3; t4; t5; t6; t7]).
  { rewrite !shl64_u8 by lia. unfold uint64, bigEndian. cbn [fold_left].
    rewrite Z.mod_small; [lia|].
    change (2 ^ 56) with 72057594037927936. change (2 ^ 48) with 281474976710656.
    change (2 ^ 40) with 1099511627776. change (2 ^ 32) with 4294967296.
    change (2 ^ 24) with 16777216. change (2 ^ 16) with 65536. change (2 ^ 8) with 256.
    change (2 ^ 64) with 18446744073709551616. lia. }
  rewrite Eseq, Ets.
  change (u8 x00 =? PCM_SIGNED_16_BIT) with true. cbv iota.
  change (drop (Z.to_nat URTP_HEADER_SIZE) packet) with payload.
  rewrite decodePcm_total. cbn [bind].
  destruct payload as [|p payload'].
  - replace (URTP_HEADER_SIZE <? len packet) with false
      by (symmetry; apply Z.ltb_ge; rewrite Hlen; unfold URTP_HEADER_SIZE, len; cbn; lia).
    reflexivity.
  - replace (URTP_HEADER_SIZE <? len packet) with true
      by (symmetry; apply Z.ltb_lt; rewrite Hlen; unfold URTP_HEADER_SIZE, len;
          cbn [length]; lia).
    reflexivity.
Qed.

(** A packet of 14 bytes or more, byte by byte, whatever its coding. *)
Lemma handleUrtpDatagram_fields (b0 c s0 s1 t0 t1 t2 t3 t4 t5 t6 t7 z0 z1 : byte)
    (payload : list byte) (g : Ingest) :
  handleUrtpDatagram
    ([b0; c; s0; s1; t0; t1; t2; t3; t4; t5; t6; t7; z0; z1] ++ payload) g
  = (do '(audio, firs') <-
       (if 0 <? len payload then
          if u8 c =? PCM_SIGNED_16_BIT then
            do a <- decodePcm payload; Ok (Some a, firs g)
          else if u8 c =? UNICAM_COMPRESSED_8_BIT then
            do '(a, f) <- decodeUnicam payload 8 (firs g); Ok (Some a, f)
          else Ok (None, firs g)
        else Ok (None, firs g));
     Ok ([b0; s0; s1; t0; t1; t2; t3; t4; t5; t6; t7],
         {| tcpBuffer := tcpBuffer g; firs := firs';
            ProcessDatagramsChannel :=
              ProcessDatagramsChannel g
              ++ [{| SequenceNumber := bigEndian [s0; s1];
                     Timestamp := bigEndian [t0; t1; t2; t3; t4; t5; t6; t7];
                     Audio := audio |}] |})).
Proof.
  set (packet := [b0; c; s0; s1; t0; t1; t2; t3; t4; t5; t6; t7; z0; z1] ++ payload).
  assert (Hlen : len packet = 14 + len payload)
    by (subst packet; rewrite len_app; reflexivity).
  pose proof (len_nonneg payload) as Hp.
  unfold handleUrtpDatagram.
  replace (URTP_HEADER_SIZE <=? len packet) with true
    by (symmetry; apply Z.leb_le; unfold URTP_HEADER_SIZE; lia).
  rewrite (index_lookup packet 0 b0), (index_lookup packet 1 c),
    (index_lookup packet 2 s0), (index_lookup packet 3 s1),
    (index_lookup packet 4 t0), (index_lookup packet 5 t1),
    (index_lookup packet 6 t2), (index_lookup packet 7 t3),
    (index_lookup packet 8 t4), (index_lookup packet 9 t5),
    (index_lookup packet 10 t6), (index_lookup packet 11 t7) by (try lia; reflexivity).
  cbn [bind].
  pose proof (u8_range s0). pose proof (u8_range s1).
  pose proof (u8_range t0). pose proof (u8_range t1). pose proof (u8_range t2).
  pose proof (u8_range t3). pose proof (u8_range t4). pose proof (u8_range t5).
  pose proof (u8_range t6). pose proof (u8_range t7).
  assert (Eseq : uint16 (uint16 (Z.shiftl (u8 s0) 8) + u8 s1) = bigEndian [s0; s1]).
  { unfold uint16, bigEndian. cbn [fold_left]. rewrite Z.shiftl_mul_pow2 by lia.
    change (2 ^ 8) with 256. rewrite (Z.mod_small (u8 s0 * 256)) by lia.
    rewrite Z.mod_small by lia. lia. }
  assert (Ets : uint64 (shl64 (u8 t0) 56 + shl64 (u8 t1) 48 + shl64 (u8 t2) 40
                        + shl64 (u8 t3) 32 + shl64 (u8 t4) 24 + shl64 (u8 t5) 16
                        + shl64 (u8 t6) 8 + u8 t7)
                = bigEndian [t0; t1; t2; t3; t4; t5; t6; t7]).
  { rewrite !shl64_u8 by lia. unfold uint64, bigEndian. cbn [fold_left].
    rewrite Z.mod_small; [lia|].
    change (2 ^ 56) with 72057594037927936. change (2 ^ 48) with 281474976710656.
    change (2 ^ 40) with 1099511627776. change (2 ^ 32) with 4294967296.
    change (2 ^ 24) with 16777216. change (2 ^ 16) with 65536. change (2 ^ 8) with 256.
    change (2 ^ 64) with 18446744073709551616. lia. }
  rewrite Eseq, Ets.
  change (drop (Z.to_nat URTP_HEADER_SIZE) packet) with payload.
  replace (URTP_HEADER_SIZE <? len packet) with (0 <? len payload).
  2:{ rewrite Hlen. unfold URTP_HEADER_SIZE.
      destruct (Z.ltb_spec 0 (len payload)); destruct (Z.ltb_spec 14 (14 + len payload)); lia. }
  reflexivity.
Qed.

Lemma fourteen_bytes (packet : list byte) :
  URTP_HEADER_SIZE <= len packet ->
  exists b0 b1 s0 s1 t0 t1 t2 t3 t4 t5 t6 t7 z0 z1 payload,
    packet = [b0; b1; s0; s1; t0; t1; t2; t3; t4; t5; t6; t7; z0; z1] ++ payload.
Proof.
  unfold URTP_HEADER_SIZE, len. intros H.
  do 14 (destruct packet as [|? packet]; [cbn [length] in H; lia|]).
  repeat eexists.
Qed.

(** X5. What [handleUrtpDatagram] makes of a packet of 14 bytes or more
    with PCM coding: the record sent on the processing channel has the
    big-endian value of bytes 2-3 as its sequence number and of bytes 4-11
    as its timestamp, no wrap-around occurring; its audio is the decoded
    payload, or nil when the packet is the header alone; the timing
    datagram is byte 0 and bytes 2-11; the filters and the TCP buffer are
    left alone.  The sync byte and the declared size are not looked at. *)
Theorem handleUrtpDatagram_pcm (packet : list byte) (g : Ingest) :
  URTP_HEADER_SIZE <= len packet ->
  packet !! 1%nat = Some x00 ->
  handleUrtpDatagram packet g
  = Ok (take 1 packet ++ take 10 (drop 2 packet),
        {| tcpBuffer := tcpBuffer g; firs := firs g;
           ProcessDatagramsChannel :=
             ProcessDatagramsChannel g
             ++ [{| SequenceNumber := bigEndian (take 2 (drop 2 packet));
                    Timestamp := bigEndian (take 8 (drop 4 packet));
                    Audio := if len packet =? URTP_HEADER_SIZE then None
                             else Some (pcmSamples (drop 14 packet)) |}] |}).
Proof.
  intros Hlen Hcoding.
  destruct (fourteen_bytes packet Hlen)
    as (b0 & b1 & s0 & s1 & t0 & t1 & t2 & t3 & t4 & t5 & t6 & t7 & z0 & z1 & payload & ->).
  injection Hcoding as ->. rewrite handleUrtpDatagram_pcm_shape.
  rewrite len_app. change (len [b0; x00; s0; s1; t0; t1; t2; t3; t4; t5; t6; t7; z0; z1]) with 14.
  unfold URTP_HEADER_SIZE. cbn [app take drop]. do 5 f_equal.
  destruct payload as [|p payload]; [reflexivity|].
  replace (14 + len (p :: payload) =? 14) with false; [reflexivity|].
  symmetry. apply Z.eqb_neq. unfold len. cbn [length]. lia.
Qed.

(** X6. A packet with UNICAM coding whose payload is [k] whole block
    pairs of 33 bytes, [k] not 0: [handleUrtpDatagram] sends one record,
    with the sequence number and the timestamp of the header and [32 * k]
    samples of audio, whatever the two filters do to the samples; the
    filters are the only state that changes besides the channel. *)
Theorem handleUrtpDatagram_unicam (packet : list byte) (k : Z) (g : Ingest) :
  0 < k ->
  len packet = URTP_HEADER_SIZE + 33 * k ->
  packet !! 1%nat = Some x01 ->
  exists (samples : list Z) (f' : Filters),
    handleUrtpDatagram packet g
    = Ok (take 1 packet ++ take 10 (drop 2 packet),
          {| tcpBuffer := tcpBuffer g; firs := f';
             ProcessDatagramsChannel :=
               ProcessDatagramsChannel g
               ++ [{| SequenceNumber := bigEndian (take 2 (drop 2 packet));
                      Timestamp := bigEndian (take 8 (drop 4 packet));
                      Audio := Some samples |}] |})
    /\ len samples = 32 * k.
Proof.
  intros Hk Hlen Hcoding.
  destruct (fourteen_bytes packet ltac:(lia))
    as (b0 & b1 & s0 & s1 & t0 & t1 & t2 & t3 & t4 & t5 & t6 & t7 & z0 & z1 & payload & ->).
  injection Hcoding as ->. rewrite handleUrtpDatagram_fields.
  rewrite len_app in Hlen.
  change (len [b0; x01; s0; s1; t0; t1; t2; t3; t4; t5; t6; t7; z0; z1]) with 14 in Hlen.
  unfold URTP_HEADER_SIZE in Hlen.
  replace (0 <? len payload) with true by (symmetry; apply Z.ltb_lt; lia).
  change (u8 x01 =? PCM_SIGNED_16_BIT) with false.
  change (u8 x01 =? UNICAM_COMPRESSED_8_BIT) with true. cbv iota.
  destruct (decodeUnicam_exact payload (firs g)) as [T _].
  destruct T as (samples & f' & -> & Hs); [div_lia|].
  cbn [bind]. exists samples, f'. split; [reflexivity|]. rewrite Hs. div_lia.
Qed.

Lemma pcmSamples_length_le (payload : list byte) (n : Z) :
  len payload <= 2 * n -> len (pcmSamples payload) <= n.
Proof.
  intros H. pose proof (len_nonneg payload) as Hl.
  assert (Hn : length payload = (2 * Z.to_nat (len payload / 2))%nat
               \/ length payload = (2 * Z.to_nat (len payload / 2) + 1)%nat)
    by (unfold len in *; div_lia).
  unfold len at 1. rewrite (pcmSamples_length_half payload _ Hn). div_lia.
Qed.

(** X7. One UDP packet with PCM coding, whatever else it holds, does not
    make [udpServer] panic.  The packet is dropped, with nothing sent and
    nothing changed, unless it has 14 bytes or more, begins with the sync
    byte and declares at most 654 payload bytes.  Otherwise exactly one
    record is sent, decoded from the first 654 bytes of the packet: the
    declared size is not compared with the bytes that came, and the audio
    of the record has 320 samples at most. *)
Theorem udpServer_packet_pcm (packet : list byte) (g : Ingest) :
  packet !! 1%nat = Some x00 ->
  let accepted :=
    URTP_HEADER_SIZE <= len packet
    /\ packet !! 0%nat = Some SYNC_BYTE
    /\ declaredPayloadSize packet <= URTP_DATAGRAM_MAX_SIZE in
  let audio := pcmSamples (take 640 (drop 14 packet)) in
  (~ accepted /\ udpServer_packet packet g = Ok ([], g))
  \/ (accepted
      /\ len audio <= SAMPLES_PER_BLOCK
      /\ udpServer_packet packet g
         = Ok (take 1 packet ++ take 10 (drop 2 packet),
               {| tcpBuffer := tcpBuffer g; firs := firs g;
                  ProcessDatagramsChannel :=
                    ProcessDatagramsChannel g
                    ++ [{| SequenceNumber := bigEndian (take 2 (drop 2 packet));
                           Timestamp := bigEndian (take 8 (drop 4 packet));
                           Audio := if len packet =? URTP_HEADER_SIZE then None
                                    else Some audio |}] |})).
Proof.
  intros Hcoding accepted audio.
  assert (Haudio : len audio <= SAMPLES_PER_BLOCK).
  { subst audio. apply pcmSamples_length_le. unfold len. rewrite length_take.
    change (2 * SAMPLES_PER_BLOCK) with 640. lia. }
  unfold udpServer_packet.
  destruct (Z.leb_spec URTP_HEADER_SIZE (len (take (Z.to_nat URTP_DATAGRAM_MAX_SIZE) packet)))
    as [Hl | Hl].
  2:{ left. split; [|reflexivity]. intros (Hlen & _).
      unfold len in Hl, Hlen. rewrite length_take in Hl.
      change (Z.to_nat URTP_DATAGRAM_MAX_SIZE) with 654%nat in Hl.
      unfold URTP_HEADER_SIZE in *. lia. }
  assert (Hlen : URTP_HEADER_SIZE <= len packet).
  { unfold len in *. rewrite length_take in Hl. lia. }
  destruct (fourteen_bytes packet Hlen)
    as (b0 & b1 & s0 & s1 & t0 & t1 & t2 & t3 & t4 & t5 & t6 & t7 & z0 & z1 & payload & ->).
  injection Hcoding as ->.
  set (header := [b0; x00; s0; s1; t0; t1; t2; t3; t4; t5; t6; t7; z0; z1]) in *.
  change (Z.to_nat URTP_DATAGRAM_MAX_SIZE) with (14 + 640)%nat.
  change (Z.to_nat URTP_HEADER_SIZE) with 14%nat.
  assert (Hline : take (14 + 640) (header ++ payload) = header ++ take 640 payload)
    by reflexivity.
  rewrite Hline.
  assert (Hhead : take 14 (header ++ take 640 payload) = header) by reflexivity.
  rewrite Hhead.
  assert (Hacc : verifyUrtpHeader header = Ok true <-> accepted).
  { rewrite verifyUrtpHeader_accepts. subst accepted. cbn zeta.
    change (declaredPayloadSize header) with (declaredPayloadSize (header ++ payload)).
    change (header !! 0%nat) with ((header ++ payload) !! 0%nat).
    change URTP_DATAGRAM_MAX_SIZE with 654.
    split.
    - intros (_ & H0 & _ & Hd). auto.
    - intros (_ & H0 & Hd). repeat split; try assumption.
      + subst header. unfold URTP_HEADER_SIZE, len. cbn [length]. lia.
      + exists x00. split; reflexivity. }
  destruct (verifyUrtpHeader_total header) as [[|] Hok]; rewrite Hok; cbn [bind].
  - right. split; [now apply Hacc|]. split; [exact Haudio|].
    subst header. rewrite handleUrtpDatagram_pcm_shape.
    rewrite len_app. change (len [b0; x00; s0; s1; t0; t1; t2; t3; t4; t5; t6; t7; z0; z1]) with 14.
    unfold URTP_HEADER_SIZE. subst audio. cbn [app take drop]. do 5 f_equal.
    destruct payload as [|p payload]; [reflexivity|].
    replace (14 + len (p :: payload) =? 14) with false; [reflexivity|].
    symmetry. apply Z.eqb_neq. unfold len. cbn [length]. lia.
  - left. split; [|reflexivity]. intros Ha. apply Hacc in Ha. congruence.
Qed.

End DatagramProperties.

(** X8. The header check, read off the code: [verifyUrtpHeader] never
    panics, and it accepts exactly the byte sequences of 14 bytes or more
    that start with the sync byte 0x5A, carry a coding below 2 and declare,
    in bytes 12-13 big-endian, at most 654 payload bytes. *)
Theorem verifyUrtpHeader_decides (header : list byte) :
  exists ok : bool,
    verifyUrtpHeader header = Ok ok
    /\ (ok = true <->
        14 <= len header
        /\ header !! 0%nat = Some x5a
        /\ (exists c, header !! 1%nat = Some c /\ u8 c < 2)
        /\ declaredPayloadSize header <= 654).
Proof.
  destruct (verifyUrtpHeader_total header) as [ok Hok].
  exists ok. split; [exact Hok|].
  rewrite <- (verifyUrtpHeader_accepts header). rewrite Hok.
  split; [now intros -> | now intros [= ->]].
Qed.

Lemma handleUrtpDatagram_pcm_witness :
  handleUrtpDatagram nextRecord idleIngest
  = Ok (take 1 nextRecord ++ take 10 (drop 2 nextRecord),
        {| tcpBuffer := tcpBuffer idleIngest; firs := firs idleIngest;
           ProcessDatagramsChannel :=
             ProcessDatagramsChannel idleIngest
             ++ [{| SequenceNumber := bigEndian (take 2 (drop 2 nextRecord));
                    Timestamp := bigEndian (take 8 (drop 4 nextRecord));
                    Audio := if len nextRecord =? URTP_HEADER_SIZE then None
                             else Some (pcmSamples (drop 14 nextRecord)) |}] |}).
Proof.
  apply (@handleUrtpDatagram_pcm passThroughFir nextRecord idleIngest);
    [discriminate | reflexivity].
Defined.

Lemma udpServer_packet_pcm_witness :
  let packet := nextRecord in
  let g := idleIngest in
  let accepted :=
    URTP_HEADER_SIZE <= len packet
    /\ packet !! 0%nat = Some SYNC_BYTE
    /\ declaredPayloadSize packet <= URTP_DATAGRAM_MAX_SIZE in
  let audio := pcmSamples (take 640 (drop 14 packet)) in
  (~ accepted /\ udpServer_packet packet g = Ok ([], g))
  \/ (accepted
      /\ len audio <= SAMPLES_PER_BLOCK
      /\ udpServer_packet packet g
         = Ok (take 1 packet ++ take 10 (drop 2 packet),
               {| tcpBuffer := tcpBuffer g; firs := firs g;
                  ProcessDatagramsChannel :=
                    ProcessDatagramsChannel g
                    ++ [{| SequenceNumber := bigEndian (take 2 (drop 2 packet));
                           Timestamp := bigEndian (take 8 (drop 4 packet));
                           Audio := if len packet =? URTP_HEADER_SIZE then None
                                    else Some audio |}] |})).
Proof.
  apply (@udpServer_packet_pcm passThroughFir nextRecord idleIngest). reflexivity.
Defined.

Lemma handleUrtpDatagram_unicam_witness :
  let packet := urtpHeader x01 3 33 ++ oneUnicamBlock ++ replicate 16 xff in
  exists (samples : list Z) (f' : Filters),
    handleUrtpDatagram packet idleIngest
    = Ok (take 1 packet ++ take 10 (drop 2 packet),
          {| tcpBuffer := tcpBuffer idleIngest; firs := f';
             ProcessDatagramsChannel :=
               ProcessDatagramsChannel idleIngest
               ++ [{| SequenceNumber := bigEndian (take 2 (drop 2 packet));
                      Timestamp := bigEndian (take 8 (drop 4 packet));
                      Audio := Some samples |}] |})
    /\ len samples = 32 * 1.
Proof.
  apply (@handleUrtpDatagram_unicam passThroughFir
           (urtpHeader x01 3 33 ++ oneUnicamBlock ++ replicate 16 xff) 1 idleIngest);
    reflexivity.
Defined.


(* ------------------------------------------------------------------ *)
(** ** The reassembler, byte by byte *)

Section StreamProperties.
Context {FM : FirModel}.

Lemma setTcpBuffer_idem (a b : list byte) (g : Ingest) :
  setTcpBuffer a (setTcpBuffer b g) = setTcpBuffer a g.
Proof. reflexivity. Qed.

Lemma setTcpBuffer_same (g : Ingest) : setTcpBuffer (tcpBuffer g) g = g.
Proof. now destruct g. Qed.

(** [handleUrtpDatagram] does not look at the TCP buffer. *)
Lemma handleUrtpDatagram_setTcpBuffer (packet buffer : list byte) (g : Ingest) :
  handleUrtpDatagram packet (setTcpBuffer buffer g)
  = (do '(t, g') <- handleUrtpDatagram packet g; Ok (t, setTcpBuffer buffer g')).
Proof.
  unfold handleUrtpDatagram.
  destruct (URTP_HEADER_SIZE <=? len packet); [|reflexivity].
  repeat (match goal with
          | |- context [index packet ?i] => destruct (index packet i); cbn [bind]
          end; [|reflexivity]).
  cbn [firs setTcpBuffer].
  destruct (URTP_HEADER_SIZE <? len packet); [|reflexivity].
  destruct (_ =? PCM_SIGNED_16_BIT).
  - destruct (decodePcm _); reflexivity.
  - destruct (_ =? UNICAM_COMPRESSED_8_BIT); [|reflexivity].
    destruct (decodeUnicam _ _ _) as [[? ?]|]; reflexivity.
Qed.

(** The pass of the read loop in the payload state, spelled out. *)
Lemma handleUrtpStream_step_in_payload (item : byte) (r : TcpReassemblyData)
    (t : list byte) (g : Ingest) :
  State r = URTP_STATE_WAITING_PAYLOAD ->
  let size1 := if 0 <? PayloadSize r then PayloadSize r - 1 else PayloadSize r in
  let n := if size1 <? len (tcpBuffer g) then size1 else len (tcpBuffer g) in
  handleUrtpStream_step item r t g
  = if n <? 0 then Panic (SliceBoundsOutOfRange n)
    else if size1 - n =? 0 then
      do '(t', g2) <- handleUrtpDatagram
                        ((Datagram r ++ [item]) ++ take (Z.to_nat n) (tcpBuffer g))
                        (setTcpBuffer (drop (Z.to_nat n) (tcpBuffer g)) g);
      Ok ({| State := URTP_STATE_WAITING_SYNC; ByteCount := ByteCount r;
             PayloadSize := size1 - n; Header := []; Datagram := [] |}, t', g2)
    else Ok (inPayload r (size1 - n)
               ((Datagram r ++ [item]) ++ take (Z.to_nat n) (tcpBuffer g)),
             t, setTcpBuffer (drop (Z.to_nat n) (tcpBuffer g)) g).
Proof.
  intros Hs size1 n. unfold handleUrtpStream_step. rewrite Hs.
  change (URTP_STATE_WAITING_PAYLOAD =? URTP_STATE_WAITING_SYNC) with false.
  change (URTP_STATE_WAITING_PAYLOAD =? URTP_STATE_WAITING_AUDIO_CODING) with false.
  change (URTP_STATE_WAITING_PAYLOAD =? URTP_STATE_WAITING_SEQUENCE_NUMBER) with false.
  change (URTP_STATE_WAITING_PAYLOAD =? URTP_STATE_WAITING_TIMESTAMP) with false.
  change (URTP_STATE_WAITING_PAYLOAD =? URTP_STATE_WAITING_PAYLOAD_SIZE) with false.
  change (URTP_STATE_WAITING_PAYLOAD =? URTP_STATE_WAITING_PAYLOAD) with true.
  cbv iota. fold size1. fold n. unfold inPayload, setTcpBuffer. rewrite Hs. reflexivity.
Qed.

(** Outside the payload state a pass looks at the byte read only. *)
Lemma handleUrtpStream_step_in_header (item : byte) (r : TcpReassemblyData) :
  State r <> URTP_STATE_WAITING_PAYLOAD ->
  exists r', forall (t : list byte) (g : Ingest),
      handleUrtpStream_step item r t g = Ok (r', t, g).
Proof.
  intros Hs. unfold handleUrtpStream_step.
  repeat match goal with
         | |- context [if ?c then _ else _] =>
             lazymatch c with
             | State r =? URTP_STATE_WAITING_PAYLOAD => fail
             | _ => destruct c
             end
         end; try (eexists; intros; reflexivity).
  all: destruct (Z.eqb_spec (State r) URTP_STATE_WAITING_PAYLOAD) as [E|E];
    [contradiction | eexists; intros; reflexivity].
Qed.

Lemma streamBytes_app (a b : list byte) (st : TcpReassemblyData * Ingest) :
  streamBytes (a ++ b) st = (do st' <- streamBytes a st; streamBytes b st').
Proof.
  revert st. induction a as [|item a IH]; intros st; [reflexivity|].
  cbn [app streamBytes]. destruct (streamByte item st) as [st'|p]; [|reflexivity].
  cbn [bind]. apply IH.
Qed.


Lemma streamByte_in_payload (item : byte) (r : TcpReassemblyData) (g : Ingest) :
  State r = URTP_STATE_WAITING_PAYLOAD ->
  let size1 := if 0 <? PayloadSize r then PayloadSize r - 1 else PayloadSize r in
  streamByte item (r, g)
  = if size1 <? 0 then Panic (SliceBoundsOutOfRange size1)
    else if size1 =? 0 then
      do '(_, g') <- handleUrtpDatagram (Datagram r ++ [item]) (setTcpBuffer [] g);
      Ok (afterRecord r, g')
    else Ok (inPayload r size1 (Datagram r ++ [item]), setTcpBuffer [] g).
Proof.
  intros Hs size1. unfold streamByte. cbn [fst snd].
  rewrite handleUrtpStream_step_in_payload by exact Hs.
  cbn [tcpBuffer setTcpBuffer]. change (len []) with 0. fold size1.
  destruct (Z.ltb_spec size1 0) as [Hneg|Hpos].
  - replace (size1 <? 0) with true by (symmetry; apply Z.ltb_lt; lia). reflexivity.
  - change (0 <? 0) with false. cbv iota. rewrite Z.sub_0_r.
    change (take (Z.to_nat 0) []) with (@nil byte). rewrite app_nil_r.
    destruct (size1 =? 0) eqn:E.
    + apply Z.eqb_eq in E. unfold streamState. cbn [bind].
      destruct (handleUrtpDatagram _ _) as [[t' g']|p]; [|reflexivity].
      cbn [bind]. unfold afterRecord. rewrite E. reflexivity.
    + reflexivity.
Qed.

(** Bytes of a payload that do not complete it are buffered. *)
Lemma streamBytes_payload_part (bs : list byte) :
  forall (item : byte) (r : TcpReassemblyData) (g : Ingest),
    State r = URTP_STATE_WAITING_PAYLOAD ->
    let size1 := if 0 <? PayloadSize r then PayloadSize r - 1 else PayloadSize r in
    len bs < size1 ->
    streamBytes (item :: bs) (r, g)
    = Ok (inPayload r (size1 - len bs) (Datagram r ++ item :: bs), setTcpBuffer [] g).
Proof.
  induction bs as [|b bs IH]; intros item r g Hs size1 Hlen.
  - change (len []) with 0 in *. cbn [streamBytes].
    rewrite streamByte_in_payload by exact Hs. fold size1.
    replace (size1 <? 0) with false by (symmetry; apply Z.ltb_ge; lia).
    replace (size1 =? 0) with false by (symmetry; apply Z.eqb_neq; lia).
    cbn [bind]. now rewrite Z.sub_0_r.
  - assert (Hl : len (b :: bs) = len bs + 1) by (unfold len; cbn [length]; lia).
    pose proof (len_nonneg bs) as Hn.
    cbn [streamBytes]. rewrite streamByte_in_payload by exact Hs. fold size1.
    replace (size1 <? 0) with false by (symmetry; apply Z.ltb_ge; lia).
    replace (size1 =? 0) with false by (symmetry; apply Z.eqb_neq; lia).
    cbn [bind].
    change (do st' <- streamByte b (inPayload r size1 (Datagram r ++ [item]),
                                    setTcpBuffer [] g);
            streamBytes bs st')
      with (streamBytes (b :: bs) (inPayload r size1 (Datagram r ++ [item]),
                                   setTcpBuffer [] g)).
    rewrite IH; [| exact Hs | cbn [PayloadSize inPayload];
                   replace (0 <? size1) with true by (symmetry; apply Z.ltb_lt; lia); lia].
    cbn [PayloadSize inPayload Datagram State ByteCount Header].
    replace (0 <? size1) with true by (symmetry; apply Z.ltb_lt; lia).
    unfold inPayload. cbn [State ByteCount Header]. rewrite <- app_assoc.
    do 3 f_equal. lia.
Qed.

(** The bytes that complete a payload hand the record over. *)
Lemma streamBytes_payload_whole (bs : list byte) :
  forall (item : byte) (r : TcpReassemblyData) (g : Ingest),
    State r = URTP_STATE_WAITING_PAYLOAD ->
    let size1 := if 0 <? PayloadSize r then PayloadSize r - 1 else PayloadSize r in
    len bs = size1 ->
    streamBytes (item :: bs) (r, g)
    = (do '(_, g') <- handleUrtpDatagram (Datagram r ++ item :: bs) (setTcpBuffer [] g);
       Ok (afterRecord r, g')).
Proof.
  induction bs as [|b bs IH]; intros item r g Hs size1 Hlen.
  - change (len []) with 0 in *. cbn [streamBytes].
    rewrite streamByte_in_payload by exact Hs. fold size1. rewrite <- Hlen.
    change (0 <? 0) with false. change (0 =? 0) with true. cbv iota.
    destruct (handleUrtpDatagram _ _) as [[t' g']|p]; reflexivity.
  - assert (Hl : len (b :: bs) = len bs + 1) by (unfold len; cbn [length]; lia).
    pose proof (len_nonneg bs) as Hn.
    cbn [streamBytes]. rewrite streamByte_in_payload by exact Hs. fold size1.
    replace (size1 <? 0) with false by (symmetry; apply Z.ltb_ge; lia).
    replace (size1 =? 0) with false by (symmetry; apply Z.eqb_neq; lia).
    cbn [bind].
    change (do st' <- streamByte b (inPayload r size1 (Datagram r ++ [item]),
                                    setTcpBuffer [] g);
            streamBytes bs st')
      with (streamBytes (b :: bs) (inPayload r size1 (Datagram r ++ [item]),
                                   setTcpBuffer [] g)).
    rewrite IH; [| exact Hs | cbn [PayloadSize inPayload];
                   replace (0 <? size1) with true by (symmetry; apply Z.ltb_lt; lia); lia].
    cbn [Datagram inPayload]. rewrite <- app_assoc. reflexivity.
Qed.

Lemma streamBytes_payload_negative (bs : list byte) (item : byte)
    (r : TcpReassemblyData) (g : Ingest) :
  State r = URTP_STATE_WAITING_PAYLOAD ->
  let size1 := if 0 <? PayloadSize r then PayloadSize r - 1 else PayloadSize r in
  size1 < 0 ->
  streamBytes (item :: bs) (r, g) = Panic (SliceBoundsOutOfRange size1).
Proof.
  intros Hs size1 Hneg. cbn [streamBytes].
  rewrite streamByte_in_payload by exact Hs. fold size1.
  replace (size1 <? 0) with true by (symmetry; apply Z.ltb_lt; lia). reflexivity.
Qed.

Lemma handleUrtpStream_loop_nil (fuel : nat) (r : TcpReassemblyData) (t : list byte)
    (g : Ingest) :
  tcpBuffer g = [] -> handleUrtpStream_loop fuel r t g = Ok (r, t, g).
Proof.
  intros H. destruct fuel; cbn [handleUrtpStream_loop]; [reflexivity|].
  now rewrite H.
Qed.

(** The read loop agrees with the reassembler fed byte by byte: the bulk
    read of the payload state changes nothing in what is assembled. *)
Lemma handleUrtpStream_loop_bytes (fuel : nat) :
  forall (r : TcpReassemblyData) (t : list byte) (g : Ingest),
    (length (tcpBuffer g) <= fuel)%nat ->
    streamState (handleUrtpStream_loop fuel r t g)
    = streamBytes (tcpBuffer g) (r, setTcpBuffer [] g).
Proof.
  induction fuel as [|fuel IH]; intros r t g Hf.
  - destruct (tcpBuffer g) as [|item rest] eqn:E; [|cbn [length] in Hf; lia].
    assert (Hg : setTcpBuffer [] g = g) by (rewrite <- E; apply setTcpBuffer_same).
    cbn [handleUrtpStream_loop streamState bind streamBytes]. now rewrite Hg.
  - cbn [handleUrtpStream_loop].
    destruct (tcpBuffer g) as [|item rest] eqn:E.
    { assert (Hg : setTcpBuffer [] g = g) by (rewrite <- E; apply setTcpBuffer_same).
      cbn [streamState bind streamBytes]. now rewrite Hg. }
    cbn [length] in Hf.
    change {| tcpBuffer := rest; firs := firs g;
              ProcessDatagramsChannel := ProcessDatagramsChannel g |}
      with (setTcpBuffer rest g).
    destruct (Z.eq_dec (State r) URTP_STATE_WAITING_PAYLOAD) as [Hs|Hs].
    + rewrite handleUrtpStream_step_in_payload by exact Hs.
      cbn [tcpBuffer setTcpBuffer]. rewrite setTcpBuffer_idem.
      set (size1 := if 0 <? PayloadSize r then PayloadSize r - 1 else PayloadSize r).
      pose proof (len_nonneg rest) as Hn.
      destruct (Z.ltb_spec size1 0) as [Hneg|Hpos].
      { replace (size1 <? len rest) with true by (symmetry; apply Z.ltb_lt; lia).
        replace (size1 <? 0) with true by (symmetry; apply Z.ltb_lt; lia).
        cbn [bind streamState].
        now rewrite streamBytes_payload_negative by (assumption || (fold size1; lia)). }
      destruct (Z_le_gt_dec size1 (len rest)) as [Hfit|Hmore].
      * assert (En : (if size1 <? len rest then size1 else len rest) = size1).
        { destruct (Z.ltb_spec size1 (len rest)); lia. }
        rewrite En.
        replace (size1 <? 0) with false by (symmetry; apply Z.ltb_ge; lia).
        rewrite Z.sub_diag. change (0 =? 0) with true. cbv iota.
        rewrite <- (take_drop (Z.to_nat size1) rest) at 3.
        rewrite app_comm_cons, streamBytes_app.
        rewrite streamBytes_payload_whole;
          [| exact Hs | fold size1; unfold len; rewrite length_take; unfold len in Hfit; lia].
        rewrite <- app_assoc. cbn [app].
        rewrite <- (setTcpBuffer_idem (drop (Z.to_nat size1) rest) [] g).
        rewrite handleUrtpDatagram_setTcpBuffer. rewrite setTcpBuffer_idem.
        destruct (handleUrtpDatagram _ (setTcpBuffer [] g)) as [[t' g']|p] eqn:Ed;
          [|reflexivity].
        cbn [bind].
        apply handleUrtpDatagram_tcpBuffer in Ed. cbn [tcpBuffer setTcpBuffer] in Ed.
        rewrite IH by (cbn [tcpBuffer setTcpBuffer]; rewrite length_drop; lia).
        cbn [tcpBuffer setTcpBuffer]. rewrite setTcpBuffer_idem.
        assert (Hg' : setTcpBuffer [] g' = g')
          by (rewrite <- Ed; apply setTcpBuffer_same).
        rewrite Hg'. reflexivity.
      * assert (En : (if size1 <? len rest then size1 else len rest) = len rest).
        { destruct (Z.ltb_spec size1 (len rest)); lia. }
        rewrite En.
        replace (len rest <? 0) with false by (symmetry; apply Z.ltb_ge; lia).
        replace (size1 - len rest =? 0) with false by (symmetry; apply Z.eqb_neq; lia).
        cbn [bind].
        replace (Z.to_nat (len rest)) with (length rest) by (unfold len; lia).
        rewrite take_ge, drop_ge by lia.
        rewrite handleUrtpStream_loop_nil by reflexivity.
        cbn [streamState bind].
        rewrite streamBytes_payload_part by (assumption || (fold size1; lia)).
        fold size1. rewrite <- app_assoc. reflexivity.
    + destruct (handleUrtpStream_step_in_header item r Hs) as [r' Hr'].
      rewrite Hr'. cbn [bind].
      rewrite IH by (cbn [tcpBuffer setTcpBuffer]; lia).
      cbn [tcpBuffer setTcpBuffer streamBytes]. rewrite setTcpBuffer_idem.
      unfold streamByte. cbn [fst snd]. rewrite Hr'. cbn [streamState bind].
      rewrite setTcpBuffer_idem. reflexivity.
Qed.

Lemma streamByte_buffer (item : byte) (st st' : TcpReassemblyData * Ingest) :
  streamByte item st = Ok st' -> tcpBuffer (snd st') = [].
Proof.
  unfold streamByte, streamState. intros H.
  apply bind_Ok in H as ([[r t] g] & Hs & H). injection H as <-. cbn [snd].
  apply handleUrtpStream_step_consumes in Hs. cbn [tcpBuffer setTcpBuffer length] in Hs.
  destruct (tcpBuffer g); [reflexivity | cbn [length] in Hs; lia].
Qed.

Lemma handleUrtpStream_bytes (r : TcpReassemblyData) (data : list byte) (g : Ingest) :
  tcpBuffer g = [] ->
  streamState (handleUrtpStream r data g) = streamBytes data (r, g).
Proof.
  intros Hg. unfold handleUrtpStream. rewrite Hg. cbn [app].
  rewrite handleUrtpStream_loop_bytes by (cbn; lia).
  cbn [tcpBuffer]. do 2 f_equal.
  destruct g as [buffer f sent]. cbn [tcpBuffer] in Hg. subst buffer. reflexivity.
Qed.

(** X9. However the byte stream of a connection is cut into reads of a
    byte or more, the reassembler ends in the same state and the same records have been sent
    on the processing channel as if the whole stream had come in one read;
    a panic of the decoder is the same one, too.  (The TCP buffer is empty
    between reads.) *)
Theorem handleUrtpStream_reads_concat (reads : list (list byte)) :
  forall (r : TcpReassemblyData) (g : Ingest),
    Forall (fun data => 0 < len data) reads ->
    tcpBuffer g = [] ->
    handleUrtpStream_reads reads r g
    = streamState (handleUrtpStream r (concat reads) g).
Proof.
  induction reads as [|data reads IH]; intros r g Hreads Hg.
  - cbn [handleUrtpStream_reads concat]. now rewrite handleUrtpStream_bytes.
  - inversion Hreads as [|? ? Hdata Hrest]; subst.
    cbn [handleUrtpStream_reads concat].
    replace (0 <? len data) with true by (symmetry; now apply Z.ltb_lt).
    rewrite (handleUrtpStream_bytes r (data ++ concat reads) g Hg), streamBytes_app.
    rewrite <- (handleUrtpStream_bytes r data g Hg).
    destruct (handleUrtpStream r data g) as [[[r' t'] g']|p] eqn:E; [|reflexivity].
    cbn [streamState bind].
    apply handleUrtpStream_drains in E as Hg'.
    rewrite IH by assumption. now apply handleUrtpStream_bytes.
Qed.


(** *** The header states, one byte each *)

Lemma handleUrtpStream_step_sync (item : byte) (r : TcpReassemblyData) (t : list byte)
    (g : Ingest) :
  State r = URTP_STATE_WAITING_SYNC ->
  handleUrtpStream_step item r t g
  = Ok (if Byte.eqb item SYNC_BYTE
        then headerByte r item URTP_STATE_WAITING_AUDIO_CODING (ByteCount r)
        else resetHeader r (ByteCount r) (PayloadSize r), t, g).
Proof.
  intros Hs. unfold handleUrtpStream_step. rewrite Hs.
  change (URTP_STATE_WAITING_SYNC =? URTP_STATE_WAITING_SYNC) with true. cbv iota.
  destruct (Byte.eqb item SYNC_BYTE); reflexivity.
Qed.

Lemma handleUrtpStream_step_coding (item : byte) (r : TcpReassemblyData)
    (t : list byte) (g : Ingest) :
  State r = URTP_STATE_WAITING_AUDIO_CODING ->
  handleUrtpStream_step item r t g
  = Ok (if u8 item <? MAX_NUM_AUDIO_CODING_SCHEMES
        then headerByte r item URTP_STATE_WAITING_SEQUENCE_NUMBER (ByteCount r)
        else resetHeader r (ByteCount r) (PayloadSize r), t, g).
Proof.
  intros Hs. unfold handleUrtpStream_step. rewrite Hs.
  change (URTP_STATE_WAITING_AUDIO_CODING =? URTP_STATE_WAITING_SYNC) with false.
  change (URTP_STATE_WAITING_AUDIO_CODING =? URTP_STATE_WAITING_AUDIO_CODING) with true.
  cbv iota. destruct (u8 item <? MAX_NUM_AUDIO_CODING_SCHEMES); reflexivity.
Qed.

Lemma handleUrtpStream_step_counted (item : byte) (r : TcpReassemblyData)
    (t : list byte) (g : Ingest) (state next count : Z) :
  (state = URTP_STATE_WAITING_SEQUENCE_NUMBER /\ next = URTP_STATE_WAITING_TIMESTAMP
   /\ count = URTP_SEQUENCE_NUMBER_SIZE)
  \/ (state = URTP_STATE_WAITING_TIMESTAMP /\ next = URTP_STATE_WAITING_PAYLOAD_SIZE
      /\ count = URTP_TIMESTAMP_SIZE) ->
  State r = state ->
  handleUrtpStream_step item r t g
  = Ok (if count <=? ByteCount r + 1 then headerByte r item next 0
        else headerByte r item state (ByteCount r + 1), t, g).
Proof.
  intros [(-> & -> & ->) | (-> & -> & ->)] Hs; unfold handleUrtpStream_step; rewrite Hs.
  - change (URTP_STATE_WAITING_SEQUENCE_NUMBER =? URTP_STATE_WAITING_SYNC) with false.
    change (URTP_STATE_WAITING_SEQUENCE_NUMBER =? URTP_STATE_WAITING_AUDIO_CODING)
      with false.
    change (URTP_STATE_WAITING_SEQUENCE_NUMBER =? URTP_STATE_WAITING_SEQUENCE_NUMBER)
      with true.
    cbv iota. destruct (_ <=? _); reflexivity.
  - change (URTP_STATE_WAITING_TIMESTAMP =? URTP_STATE_WAITING_SYNC) with false.
    change (URTP_STATE_WAITING_TIMESTAMP =? URTP_STATE_WAITING_AUDIO_CODING) with false.
    change (URTP_STATE_WAITING_TIMESTAMP =? URTP_STATE_WAITING_SEQUENCE_NUMBER) with false.
    change (URTP_STATE_WAITING_TIMESTAMP =? URTP_STATE_WAITING_TIMESTAMP) with true.
    cbv iota. destruct (_ <=? _); reflexivity.
Qed.

Lemma handleUrtpStream_step_size_high (hi : byte) (header datagram t : list byte)
    (g : Ingest) :
  let r := {| State := URTP_STATE_WAITING_PAYLOAD_SIZE; ByteCount := 0;
              PayloadSize := 0; Header := header; Datagram := datagram |} in
  handleUrtpStream_step hi r t g
  = Ok ({| State := URTP_STATE_WAITING_PAYLOAD_SIZE; ByteCount := 1;
           PayloadSize := u8 hi * 256; Header := header ++ [hi];
           Datagram := datagram |}, t, g).
Proof.
  intros r. pose proof (u8_range hi). unfold handleUrtpStream_step.
  cbn [State ByteCount PayloadSize Header Datagram r].
  change (URTP_STATE_WAITING_PAYLOAD_SIZE =? URTP_STATE_WAITING_SYNC) with false.
  change (URTP_STATE_WAITING_PAYLOAD_SIZE =? URTP_STATE_WAITING_AUDIO_CODING) with false.
  change (URTP_STATE_WAITING_PAYLOAD_SIZE =? URTP_STATE_WAITING_SEQUENCE_NUMBER) with false.
  change (URTP_STATE_WAITING_PAYLOAD_SIZE =? URTP_STATE_WAITING_TIMESTAMP) with false.
  change (URTP_STATE_WAITING_PAYLOAD_SIZE =? URTP_STATE_WAITING_PAYLOAD_SIZE) with true.
  cbv iota.
  change (URTP_PAYLOAD_SIZE_SIZE <=? 0 + 1) with false. cbv iota.
  change (uint64 (8 * (URTP_PAYLOAD_SIZE_SIZE - 0 - 1))) with 8.
  rewrite shl64_u8 by lia. change (2 ^ 8) with 256.
  assert (H63 : 2 ^ 16 < 2 ^ 63) by reflexivity.
  assert (H16 : 2 ^ 16 = 65536) by reflexivity.
  rewrite (int64_small (u8 hi * 256)) by lia.
  rewrite int64_small by lia. reflexivity.
Qed.

Lemma streamByte_of_step (item : byte) (r r' : TcpReassemblyData) (g : Ingest) :
  (forall t g', handleUrtpStream_step item r t g' = Ok (r', t, g')) ->
  streamByte item (r, g) = Ok (r', setTcpBuffer [] g).
Proof.
  intros H. unfold streamByte. cbn [fst snd]. now rewrite H.
Qed.

Ltac header_fields :=
  cbn [bind headerByte State ByteCount PayloadSize Header Datagram app].

Ltac counted_byte b :=
  erewrite (streamByte_of_step b);
  [| intros;
     first [ erewrite handleUrtpStream_step_counted;
             [| left; repeat split; reflexivity | reflexivity]
           | erewrite handleUrtpStream_step_counted;
             [| right; repeat split; reflexivity | reflexivity] ];
     header_fields;
     match goal with
     | |- context [?c <=? ?n] =>
         let v := eval vm_compute in (c <=? n) in change (c <=? n) with v
     end; cbv iota; reflexivity];
  header_fields.

(** The 14 bytes of a header, from the state of a new connection: the
    reassembler goes on to the payload when the declared size is between 1
    and 654, and is back waiting for a sync byte otherwise. *)
Lemma streamBytes_header (coding s0 s1 t0 t1 t2 t3 t4 t5 t6 t7 hi lo : byte)
    (g : Ingest) :
  u8 coding < MAX_NUM_AUDIO_CODING_SCHEMES ->
  let header := [x5a; coding; s0; s1; t0; t1; t2; t3; t4; t5; t6; t7; hi; lo] in
  let size := u8 hi * 256 + u8 lo in
  streamBytes header (newReassemblyData, g)
  = Ok (if size <=? URTP_DATAGRAM_MAX_SIZE then
          if size =? 0 then
            {| State := URTP_STATE_WAITING_SYNC; ByteCount := 0; PayloadSize := 0;
               Header := []; Datagram := header |}
          else
            {| State := URTP_STATE_WAITING_PAYLOAD; ByteCount := 0; PayloadSize := size;
               Header := header; Datagram := header |}
        else newReassemblyData,
        setTcpBuffer [] g).
Proof.
  intros Hc header size. apply Z.ltb_lt in Hc.
  unfold header, newReassemblyData. cbn [streamBytes].
  erewrite (streamByte_of_step x5a);
    [| intros; rewrite handleUrtpStream_step_sync by reflexivity;
       change (Byte.eqb x5a SYNC_BYTE) with true; cbv iota; reflexivity].
  header_fields.
  erewrite (streamByte_of_step coding);
    [| intros; rewrite handleUrtpStream_step_coding by reflexivity;
       header_fields; rewrite Hc; reflexivity].
  header_fields.
  counted_byte s0. counted_byte s1.
  counted_byte t0. counted_byte t1. counted_byte t2. counted_byte t3.
  counted_byte t4. counted_byte t5. counted_byte t6. counted_byte t7.
  erewrite (streamByte_of_step hi);
    [| intros; apply handleUrtpStream_step_size_high].
  header_fields.
  erewrite (streamByte_of_step lo);
    [| intros; apply handleUrtpStream_step_size].
  cbn [bind app]. rewrite !setTcpBuffer_idem. fold size.
  unfold newReassemblyData.
  destruct (size <=? URTP_DATAGRAM_MAX_SIZE); [destruct (size =? 0) eqn:E|];
    try reflexivity.
  apply Z.eqb_eq in E. rewrite E. reflexivity.
Qed.


Lemma streamBytes_whole_record
    (coding s0 s1 t0 t1 t2 t3 t4 t5 t6 t7 hi lo : byte) (payload : list byte)
    (g : Ingest) :
  tcpBuffer g = [] ->
  u8 coding < MAX_NUM_AUDIO_CODING_SCHEMES ->
  len payload = u8 hi * 256 + u8 lo ->
  0 < len payload <= URTP_DATAGRAM_MAX_SIZE ->
  let record := [x5a; coding; s0; s1; t0; t1; t2; t3; t4; t5; t6; t7; hi; lo] ++ payload in
  streamBytes record (newReassemblyData, g)
  = (do '(_, g') <- handleUrtpDatagram record g; Ok (newReassemblyData, g')).
Proof.
  intros Hg Hc Hsize Hrange record. subst record.
  rewrite streamBytes_app, streamBytes_header by exact Hc.
  rewrite <- Hsize.
  replace (len payload <=? URTP_DATAGRAM_MAX_SIZE) with true
    by (symmetry; apply Z.leb_le; lia).
  replace (len payload =? 0) with false by (symmetry; apply Z.eqb_neq; lia).
  cbn [bind]. destruct payload as [|p payload]; [change (len []) with 0 in Hrange; lia|].
  rewrite streamBytes_payload_whole.
  - cbn [Datagram]. rewrite setTcpBuffer_idem.
    replace (setTcpBuffer [] g) with g
      by (rewrite <- Hg; symmetry; apply setTcpBuffer_same).
    reflexivity.
  - reflexivity.
  - cbn [PayloadSize].
    replace (0 <? len (p :: payload)) with true by (symmetry; apply Z.ltb_lt; lia).
    unfold len. cbn [length]. lia.
Qed.

(** X10. A complete record with a valid header and a payload of 1 to 654
    bytes, the declared size being the length of the payload, read by a
    reassembler in its initial state: the record is handed to
    [handleUrtpDatagram] exactly once, whole and unchanged, and the
    reassembler is back in its initial state.  With the previous theorem
    this holds however the record is cut into reads. *)
Theorem handleUrtpStream_whole_record
    (coding s0 s1 t0 t1 t2 t3 t4 t5 t6 t7 hi lo : byte) (payload : list byte)
    (g : Ingest) :
  tcpBuffer g = [] ->
  u8 coding < MAX_NUM_AUDIO_CODING_SCHEMES ->
  len payload = u8 hi * 256 + u8 lo ->
  0 < len payload <= URTP_DATAGRAM_MAX_SIZE ->
  let record := [x5a; coding; s0; s1; t0; t1; t2; t3; t4; t5; t6; t7; hi; lo] ++ payload in
  streamState (handleUrtpStream newReassemblyData record g)
  = (do '(_, g') <- handleUrtpDatagram record g; Ok (newReassemblyData, g')).
Proof.
  intros Hg Hc Hsize Hrange record.
  rewrite handleUrtpStream_bytes by exact Hg.
  now apply streamBytes_whole_record.
Qed.

Lemma streamBytes_pcm_record (r : PcmRecord) (g : Ingest) :
  tcpBuffer g = [] ->
  pcmRecord_wf r ->
  streamBytes (pcmRecord_bytes r) (newReassemblyData, g)
  = Ok (newReassemblyData,
        {| tcpBuffer := []; firs := firs g;
           ProcessDatagramsChannel := ProcessDatagramsChannel g ++ [pcmRecord_datagram r] |}).
Proof.
  intros Hg (Hseq & Hts & Hpay).
  destruct r as [sq ts payload]. unfold pcmRecord_bytes, pcmRecord_datagram.
  cbn [sequenceBytes timestampBytes payloadBytes] in *.
  destruct sq as [|s0 [|s1 [|? ?]]]; try discriminate Hseq.
  destruct ts as [|t0 [|t1 [|t2 [|t3 [|t4 [|t5 [|t6 [|t7 [|? ?]]]]]]]]];
    try discriminate Hts.
  change URTP_DATAGRAM_MAX_SIZE with 654 in Hpay.
  set (hi := to_byte (Z.shiftr (len payload) 8)). set (lo := to_byte (len payload)).
  assert (Hsize : len payload = u8 hi * 256 + u8 lo).
  { subst hi lo. rewrite !u8_to_byte, Z.shiftr_div_pow2 by lia.
    change (2 ^ 8) with 256. rewrite (Z.mod_small (len payload / 256)) by div_lia.
    div_lia. }
  change ([SYNC_BYTE; x00] ++ [s0; s1] ++ [t0; t1; t2; t3; t4; t5; t6; t7]
          ++ [hi; lo] ++ payload)
    with ([x5a; x00; s0; s1; t0; t1; t2; t3; t4; t5; t6; t7; hi; lo] ++ payload).
  rewrite streamBytes_whole_record;
    [| exact Hg | reflexivity | exact Hsize | change URTP_DATAGRAM_MAX_SIZE with 654; lia].
  rewrite handleUrtpDatagram_pcm_shape. cbn [bind]. rewrite Hg.
  destruct payload as [|p payload]; [change (len []) with 0 in Hpay; lia|].
  reflexivity.
Qed.

Lemma streamBytes_pcm_records (records : list PcmRecord) :
  forall g : Ingest,
    tcpBuffer g = [] ->
    Forall pcmRecord_wf records ->
    streamBytes (concat (map pcmRecord_bytes records)) (newReassemblyData, g)
    = Ok (newReassemblyData,
          {| tcpBuffer := tcpBuffer g; firs := firs g;
             ProcessDatagramsChannel :=
               ProcessDatagramsChannel g ++ map pcmRecord_datagram records |}).
Proof.
  induction records as [|r records IH]; intros g Hg Hwf.
  - cbn. rewrite app_nil_r. now destruct g.
  - inversion Hwf as [|? ? Hr Hrest]; subst. cbn [map concat].
    rewrite streamBytes_app, streamBytes_pcm_record by assumption. cbn [bind].
    rewrite IH by (assumption || reflexivity).
    cbn [tcpBuffer firs ProcessDatagramsChannel]. rewrite Hg, <- app_assoc. reflexivity.
Qed.

(** X11. The TCP path from end to end, for PCM.  Records with payloads of
    1 to 654 bytes, each with the length of its payload declared in its
    header, sent one behind the other and received in reads cut anywhere:
    every record is sent on the processing channel exactly once and in
    order, with the sequence number and the timestamp it carries and its
    payload decoded; nothing else is sent, and the reassembler ends where
    it began, ready for the next record. *)
Theorem handleUrtpStream_pcm_records (records : list PcmRecord) (reads : list (list byte))
    (g : Ingest) :
  tcpBuffer g = [] ->
  Forall pcmRecord_wf records ->
  Forall (fun data => 0 < len data) reads ->
  concat reads = concat (map pcmRecord_bytes records) ->
  handleUrtpStream_reads reads newReassemblyData g
  = Ok (newReassemblyData,
        {| tcpBuffer := []; firs := firs g;
           ProcessDatagramsChannel :=
             ProcessDatagramsChannel g ++ map pcmRecord_datagram records |}).
Proof.
  intros Hg Hwf Hreads Hcut.
  transitivity (streamBytes (concat reads) (newReassemblyData, g)).
  - clear Hcut. generalize newReassemblyData as r. revert g Hg.
    induction reads as [|data reads IH]; intros g Hg r; [reflexivity|].
    inversion Hreads as [|? ? Hdata Hrest]; subst.
    cbn [handleUrtpStream_reads concat].
    replace (0 <? len data) with true by (symmetry; now apply Z.ltb_lt).
    rewrite streamBytes_app, <- (handleUrtpStream_bytes r data g Hg).
    destruct (handleUrtpStream r data g) as [[[r' t'] g']|p] eqn:E; [|reflexivity].
    cbn [streamState bind]. apply handleUrtpStream_drains in E as Hg'.
    now apply IH.
  - rewrite Hcut, streamBytes_pcm_records by assumption. now rewrite Hg.
Qed.

Lemma streamBytes_junk (junk : list byte) (g : Ingest) :
  Forall (fun b => b <> SYNC_BYTE) junk ->
  tcpBuffer g = [] ->
  streamBytes junk (newReassemblyData, g) = Ok (newReassemblyData, g).
Proof.
  intros Hj Hg. induction Hj as [|b junk Hb _ IH]; [reflexivity|].
  cbn [streamBytes].
  erewrite (streamByte_of_step b);
    [| intros; rewrite handleUrtpStream_step_sync by reflexivity; reflexivity].
  cbn [bind].
  replace (Byte.eqb b SYNC_BYTE) with false.
  2:{ symmetry. destruct (Byte.eqb b SYNC_BYTE) eqn:E; [|reflexivity].
      apply Byte.byte_dec_bl in E. contradiction. }
  replace (setTcpBuffer [] g) with g
    by (rewrite <- Hg; symmetry; apply setTcpBuffer_same).
  exact IH.
Qed.

(** X12. Bytes ahead of a record that are not the sync byte are skipped
    one by one by a reassembler that waits for a sync byte: the stream is
    read as if it began behind them. *)
Theorem handleUrtpStream_skips_junk (junk data : list byte) (g : Ingest) :
  Forall (fun b => b <> SYNC_BYTE) junk ->
  tcpBuffer g = [] ->
  streamState (handleUrtpStream newReassemblyData (junk ++ data) g)
  = streamState (handleUrtpStream newReassemblyData data g).
Proof.
  intros Hj Hg. rewrite !handleUrtpStream_bytes by exact Hg.
  rewrite streamBytes_app, streamBytes_junk by assumption. reflexivity.
Qed.

(** X13. A header that is valid but for a declared size above 654 is
    dropped when its last byte is read: nothing of it stays buffered,
    nothing is sent, and the bytes behind it are read as a new stream (the
    payload it announced is not skipped). *)
Theorem handleUrtpStream_drops_oversize_header
    (coding s0 s1 t0 t1 t2 t3 t4 t5 t6 t7 hi lo : byte) (data : list byte)
    (g : Ingest) :
  tcpBuffer g = [] ->
  u8 coding < MAX_NUM_AUDIO_CODING_SCHEMES ->
  URTP_DATAGRAM_MAX_SIZE < u8 hi * 256 + u8 lo ->
  streamState
    (handleUrtpStream newReassemblyData
       ([x5a; coding; s0; s1; t0; t1; t2; t3; t4; t5; t6; t7; hi; lo] ++ data) g)
  = streamState (handleUrtpStream newReassemblyData data g).
Proof.
  intros Hg Hc Hsize. rewrite !handleUrtpStream_bytes by exact Hg.
  rewrite streamBytes_app, streamBytes_header by exact Hc.
  replace (u8 hi * 256 + u8 lo <=? URTP_DATAGRAM_MAX_SIZE) with false
    by (symmetry; apply Z.leb_gt; lia).
  cbn [bind].
  replace (setTcpBuffer [] g) with g
    by (rewrite <- Hg; symmetry; apply setTcpBuffer_same).
  reflexivity.
Qed.

(** X14. A single stray sync byte directly in front of a record makes
    the record's own sync byte be read as a coding byte, which it is not:
    both bytes are dropped, and unless a further 0x5A occurs in it the
    whole record is then skipped as bytes that are no sync byte.  Nothing
    is sent, and the reassembler waits for the next sync byte. *)
Theorem handleUrtpStream_stray_sync (r : PcmRecord) (g : Ingest) :
  tcpBuffer g = [] ->
  Forall (fun b => b <> SYNC_BYTE) (tl (pcmRecord_bytes r)) ->
  streamState (handleUrtpStream newReassemblyData (SYNC_BYTE :: pcmRecord_bytes r) g)
  = Ok (newReassemblyData, g).
Proof.
  intros Hg Hrest. rewrite handleUrtpStream_bytes by exact Hg.
  unfold pcmRecord_bytes in *. cbn [app tl] in *.
  assert (Hgg : setTcpBuffer [] g = g)
    by (rewrite <- Hg; apply setTcpBuffer_same).
  assert (H2 : streamBytes [SYNC_BYTE; SYNC_BYTE] (newReassemblyData, g)
               = Ok (newReassemblyData, g)).
  { cbn [streamBytes]. unfold streamByte at 1. cbn [fst snd].
    rewrite handleUrtpStream_step_sync by reflexivity.
    cbn [streamState bind]. change (Byte.eqb SYNC_BYTE SYNC_BYTE) with true. cbv iota.
    unfold streamByte. cbn [fst snd].
    rewrite handleUrtpStream_step_coding by reflexivity.
    cbn [streamState bind].
    change (u8 SYNC_BYTE <? MAX_NUM_AUDIO_CODING_SCHEMES) with false. cbv iota.
    rewrite setTcpBuffer_idem, Hgg. reflexivity. }
  match goal with
  | |- streamBytes (SYNC_BYTE :: SYNC_BYTE :: ?rest) _ = _ =>
      change (SYNC_BYTE :: SYNC_BYTE :: rest) with ([SYNC_BYTE; SYNC_BYTE] ++ rest)
  end.
  rewrite streamBytes_app, H2. cbn [bind]. now apply streamBytes_junk.
Qed.

End StreamProperties.

Lemma handleUrtpStream_reads_concat_witness :
  handleUrtpStream_reads [take 10 nextRecord; drop 10 nextRecord]
    newReassemblyData idleIngest
  = streamState
      (handleUrtpStream newReassemblyData
         (concat [take 10 nextRecord; drop 10 nextRecord]) idleIngest).
Proof.
  apply (@handleUrtpStream_reads_concat passThroughFir
           [take 10 nextRecord; drop 10 nextRecord]);
    [repeat constructor | reflexivity].
Defined.

Lemma handleUrtpStream_whole_record_witness :
  streamState (handleUrtpStream newReassemblyData nextRecord idleIngest)
  = (do '(_, g') <- handleUrtpDatagram nextRecord idleIngest;
     Ok (newReassemblyData, g')).
Proof.
  apply (@handleUrtpStream_whole_record passThroughFir
           x00 x00 x02 x00 x00 x00 x00 x00 x00 x00 x07 x00 x02 [x01; x02] idleIngest);
    [reflexivity | reflexivity | reflexivity | split; [reflexivity | discriminate]].
Defined.

Lemma handleUrtpStream_skips_junk_witness :
  streamState (handleUrtpStream newReassemblyData ([x00; xff; x5b] ++ nextRecord) idleIngest)
  = streamState (handleUrtpStream newReassemblyData nextRecord idleIngest).
Proof.
  apply (@handleUrtpStream_skips_junk passThroughFir [x00; xff; x5b] nextRecord idleIngest);
    [repeat constructor; discriminate | reflexivity].
Defined.

Lemma handleUrtpStream_drops_oversize_header_witness :
  streamState (handleUrtpStream newReassemblyData
                 ([x5a; x00; x00; x01; x00; x00; x00; x00; x00; x00; x00; x07; x02; x8f]
                  ++ nextRecord) idleIngest)
  = streamState (handleUrtpStream newReassemblyData nextRecord idleIngest).
Proof.
  apply (@handleUrtpStream_drops_oversize_header passThroughFir
           x00 x00 x01 x00 x00 x00 x00 x00 x00 x00 x07 x02 x8f nextRecord idleIngest);
    reflexivity.
Defined.

Lemma handleUrtpStream_pcm_records_witness :
  let first := {| sequenceBytes := [x00; x01]; timestampBytes := replicate 8 x00;
                  payloadBytes := [x01; x02] |} in
  let second := {| sequenceBytes := [x00; x02]; timestampBytes := replicate 8 x00;
                   payloadBytes := [xff; xfe; x00; x03] |} in
  let stream := pcmRecord_bytes first ++ pcmRecord_bytes second in
  handleUrtpStream_reads [take 5 stream; take 20 (drop 5 stream); drop 25 stream]
    newReassemblyData idleIngest
  = Ok (newReassemblyData,
        {| tcpBuffer := []; firs := firs idleIngest;
           ProcessDatagramsChannel :=
             ProcessDatagramsChannel idleIngest
             ++ map pcmRecord_datagram [first; second] |}).
Proof.
  intros first second stream.
  apply (@handleUrtpStream_pcm_records passThroughFir [first; second]
           [take 5 stream; take 20 (drop 5 stream); drop 25 stream] idleIngest).
  - reflexivity.
  - repeat constructor; discriminate.
  - repeat constructor.
  - reflexivity.
Defined.

Lemma handleUrtpStream_stray_sync_witness :
  let r := {| sequenceBytes := [x00; x01]; timestampBytes := replicate 8 x00;
              payloadBytes := [x01; x02] |} in
  streamState (handleUrtpStream newReassemblyData (SYNC_BYTE :: pcmRecord_bytes r) idleIngest)
  = Ok (newReassemblyData, idleIngest).
Proof.
  apply (@handleUrtpStream_stray_sync passThroughFir
           {| sequenceBytes := [x00; x01]; timestampBytes := replicate 8 x00;
              payloadBytes := [x01; x02] |} idleIngest);
    [reflexivity | repeat constructor; discriminate].
Defined.


(* ------------------------------------------------------------------ *)
(** ** The PCM timeline, record by record *)

Lemma encode_le_app (a b : list Z) : encode_le (a ++ b) = encode_le a ++ encode_le b.
Proof. unfold encode_le. apply flat_map_app. Qed.

Lemma cyclicSamples_lookup (previousAudio : list Z) (n : nat) :
  forall (y i : nat),
    (y < length previousAudio)%nat -> (i < n)%nat ->
    cyclicSamples n previousAudio y !! i
    = previousAudio !! ((y + i) mod length previousAudio)%nat.
Proof.
  induction n as [|n IH]; intros y i Hy Hi; [lia|].
  cbn [cyclicSamples]. destruct i as [|i].
  - cbn [lookup list_lookup]. rewrite Nat.add_0_r, Nat.mod_small by exact Hy.
    destruct (lookup_lt_is_Some_2 previousAudio y Hy) as [v Hv].
    rewrite Hv. f_equal. now apply nth_lookup_Some.
  - cbn [lookup list_lookup]. fold (@lookup nat Z (list Z) _).
    destruct (Nat.ltb_spec (S y) (length previousAudio)) as [Hlt | Hge].
    + rewrite IH by lia. f_equal. f_equal. lia.
    + rewrite IH by lia. f_equal.
      replace (y + S i)%nat with (i + 1 * length previousAudio)%nat by lia.
      now rewrite Nat.Div0.mod_add.
Qed.

(** X15. A gap of less than half a second (8000 samples) behind a record
    that has audio is filled by [handleGap] with exactly [gap] samples,
    written low byte first: sample [i] of the fill is sample
    [i mod n] of the previous record's [n] samples, so the previous block
    is repeated from its start as often as needed. *)
Theorem handleGap_repeats_previous (gap : Z) (previous : UrtpDatagram)
    (previousAudio : list Z) (pcm : list byte) :
  0 <= gap < 8000 ->
  Audio previous = Some previousAudio ->
  previousAudio <> [] ->
  exists fill : list Z,
    handleGap gap (Some previous) pcm = Ok (pcm ++ encode_le fill)
    /\ len fill = gap
    /\ forall i : nat,
         (i < Z.to_nat gap)%nat ->
         fill !! i = previousAudio !! (i mod length previousAudio)%nat.
Proof.
  intros Hgap Ha Hne. exists (gapSamples (Z.to_nat gap) previousAudio).
  unfold handleGap. rewrite (handleGap_bytes_previous gap previous previousAudio) by assumption.
  cbn [bind]. split; [reflexivity|].
  split; [unfold len; rewrite gapSamples_length; lia|].
  intros i Hi. destruct previousAudio as [|s0 rest]; [contradiction|].
  cbn [gapSamples]. rewrite cyclicSamples_lookup by (cbn [length]; lia).
  reflexivity.
Qed.

Lemma gapSamples_0 (previousAudio : list Z) : gapSamples 0 previousAudio = [].
Proof. destruct previousAudio; reflexivity. Qed.

(** The fill behind the audio of a record: what is missing to a block. *)
Lemma handleGap_trailing (audio previousAudio : list Z) (previous : UrtpDatagram)
    (pcm : list byte) :
  Audio previous = Some previousAudio ->
  (if len audio <? SAMPLES_PER_BLOCK
   then handleGap (SAMPLES_PER_BLOCK - len audio) (Some previous) pcm
   else Ok pcm)
  = Ok (pcm ++ encode_le (gapSamples (Z.to_nat (SAMPLES_PER_BLOCK - len audio)) previousAudio)).
Proof.
  intros Ha. pose proof (len_nonneg audio) as Hl. change SAMPLES_PER_BLOCK with 320.
  destruct (Z.ltb_spec (len audio) 320) as [Hlt | Hge].
  - unfold handleGap.
    rewrite (handleGap_bytes_previous _ previous previousAudio) by (assumption || lia).
    reflexivity.
  - replace (Z.to_nat (320 - len audio)) with 0%nat by lia.
    rewrite gapSamples_0. cbn [encode_le flat_map]. now rewrite app_nil_r.
Qed.

(** X16. A record that follows its predecessor in sequence (the number
    wraps from 65535 to 0), both with audio: [processDatagram] appends the
    samples of the record, low byte first, and behind them what is missing
    to a block of 320, taken from the previous record.  The timeline grows
    by [max 320 n] samples for a record of [n] samples; nothing of the
    buffer is changed. *)
Theorem processDatagram_in_sequence (datagram previous : UrtpDatagram)
    (saved : list UrtpDatagram) (audio previousAudio : list Z) (pcm : list byte) :
  Audio previous = Some previousAudio ->
  Audio datagram = Some audio ->
  SequenceNumber datagram = uint16 (SequenceNumber previous + 1) ->
  let trailing := gapSamples (Z.to_nat (SAMPLES_PER_BLOCK - len audio)) previousAudio in
  processDatagram datagram (previous :: saved) pcm
  = Ok (pcm ++ encode_le (audio ++ trailing))
  /\ len (audio ++ trailing) = Z.max SAMPLES_PER_BLOCK (len audio).
Proof.
  intros Hpa Ha Hseq trailing. split.
  - unfold processDatagram. cbn [head]. rewrite Hseq, Z.eqb_refl. cbn [negb bind].
    rewrite Ha, audioBytes_of_encode_le. cbn [bind].
    rewrite (handleGap_trailing audio previousAudio previous _ Hpa).
    subst trailing. now rewrite encode_le_app, <- app_assoc.
  - subst trailing. rewrite len_app. unfold len at 2. rewrite gapSamples_length.
    pose proof (len_nonneg audio). lia.
Qed.

Lemma processDatagram_first_closed (datagram : UrtpDatagram) (pcm : list byte) :
  let audio := match Audio datagram with Some a => a | None => [] end in
  processDatagram datagram [] pcm
  = Ok (pcm ++ encode_le (audio ++ replicate (Z.to_nat (SAMPLES_PER_BLOCK - len audio)) 0)).
Proof.
  intros audio. unfold processDatagram. cbn [head bind]. subst audio.
  change SAMPLES_PER_BLOCK with 320.
  destruct (Audio datagram) as [a|].
  - rewrite audioBytes_of_encode_le. cbn [bind]. pose proof (len_nonneg a) as Hl.
    rewrite encode_le_app, encode_le_replicate_0.
    destruct (Z.ltb_spec (len a) 320) as [Hlt | Hge].
    + unfold handleGap. rewrite handleGap_bytes_no_previous by lia. cbn [bind].
      rewrite <- app_assoc. do 4 f_equal. lia.
    + replace (Z.to_nat (320 - len a)) with 0%nat by lia.
      cbn [Nat.mul replicate]. now rewrite app_nil_r.
  - unfold handleGap. rewrite handleGap_bytes_no_previous by lia. cbn [bind].
    cbn [app]. rewrite encode_le_replicate_0. do 3 f_equal.
Qed.

Lemma padded_length (audio : list Z) :
  len (audio ++ replicate (Z.to_nat (SAMPLES_PER_BLOCK - len audio)) 0)
  = Z.max SAMPLES_PER_BLOCK (len audio).
Proof.
  rewrite len_app, len_replicate. pose proof (len_nonneg audio). lia.
Qed.

(** X17. The first record of a stream, with no record before it: no
    sequence number is compared and nothing can panic.  Its samples are
    appended and padded with silence to a block, so that the timeline grows
    by [max 320 n] samples for [n] samples of audio; a record without audio
    gives a block of silence. *)
Theorem processDatagram_first (datagram : UrtpDatagram) (pcm : list byte) :
  let audio := match Audio datagram with Some a => a | None => [] end in
  let padded := audio ++ replicate (Z.to_nat (SAMPLES_PER_BLOCK - len audio)) 0 in
  processDatagram datagram [] pcm = Ok (pcm ++ encode_le padded)
  /\ len padded = Z.max SAMPLES_PER_BLOCK (len audio)
  /\ (Audio datagram = None -> encode_le padded = replicate 640 x00).
Proof.
  intros audio padded. split; [apply processDatagram_first_closed|].
  split; [apply padded_length|].
  intros Hnone. subst padded audio. rewrite Hnone. reflexivity.
Qed.

(** X18. A jump of 25 blocks or more, that is of half a second or more, is
    not filled.  The jump is counted modulo 65536, so this is also what
    happens to a record that arrives late: one that is a single step
    behind its predecessor counts as a jump of 65535.  A full block is then
    appended directly behind what is in the buffer, whatever the previous
    record holds. *)
Theorem processDatagram_large_jump (datagram previous : UrtpDatagram)
    (saved : list UrtpDatagram) (audio : list Z) (pcm : list byte) :
  Audio datagram = Some audio ->
  SAMPLES_PER_BLOCK <= len audio ->
  25 <= uint16 (SequenceNumber datagram - SequenceNumber previous) ->
  processDatagram datagram (previous :: saved) pcm = Ok (pcm ++ encode_le audio).
Proof.
  intros Ha Hfull HK. unfold processDatagram. cbn [head].
  replace (SequenceNumber datagram =? uint16 (SequenceNumber previous + 1)) with false.
  2:{ symmetry. apply Z.eqb_neq. intros E. rewrite E in HK.
      unfold uint16 in HK. rewrite Zminus_mod_idemp_l in HK.
      replace (SequenceNumber previous + 1 - SequenceNumber previous) with 1 in HK by lia.
      vm_compute in HK. now apply HK. }
  cbn [negb]. unfold handleGap.
  rewrite handleGap_bytes_silly by (change SAMPLES_PER_BLOCK with 320; lia).
  cbn [bind]. rewrite app_nil_r, Ha, audioBytes_of_encode_le. cbn [bind].
  replace (len audio <? SAMPLES_PER_BLOCK) with false
    by (symmetry; apply Z.ltb_ge; exact Hfull).
  reflexivity.
Qed.

(** What [processDatagram] appends does not depend on what the buffer
    holds. *)
Lemma processDatagram_appends (datagram : UrtpDatagram) (saved : list UrtpDatagram)
    (pcm : list byte) :
  processDatagram datagram saved pcm
  = (do added <- processDatagram datagram saved []; Ok (pcm ++ added)).
Proof.
  unfold processDatagram, handleGap.
  destruct (head saved) as [previous|].
  - destruct (negb (SequenceNumber datagram =? uint16 (SequenceNumber previous + 1))).
    + destruct (handleGap_bytes _ (Some previous)) as [lead|p]; [|reflexivity].
      cbn [bind app].
      destruct (Audio datagram) as [audio|].
      * destruct (audioBytes_of audio) as [bytes|p]; [|reflexivity]. cbn [bind].
        destruct (len audio <? SAMPLES_PER_BLOCK).
        -- destruct (handleGap_bytes _ (Some previous)) as [trail|p]; [|reflexivity].
           cbn [bind]. now rewrite <- !app_assoc.
        -- cbn [bind]. now rewrite <- !app_assoc.
      * destruct (handleGap_bytes _ (Some previous)) as [trail|p]; [|reflexivity].
        cbn [bind]. now rewrite <- !app_assoc.
    + cbn [bind app].
      destruct (Audio datagram) as [audio|].
      * destruct (audioBytes_of audio) as [bytes|p]; [|reflexivity]. cbn [bind].
        destruct (len audio <? SAMPLES_PER_BLOCK).
        -- destruct (handleGap_bytes _ (Some previous)) as [trail|p]; [|reflexivity].
           cbn [bind]. now rewrite <- !app_assoc.
        -- reflexivity.
      * destruct (handleGap_bytes _ (Some previous)) as [trail|p]; reflexivity.
  - cbn [bind app].
    destruct (Audio datagram) as [audio|].
    + destruct (audioBytes_of audio) as [bytes|p]; [|reflexivity]. cbn [bind].
      destruct (len audio <? SAMPLES_PER_BLOCK).
      * destruct (handleGap_bytes _ None) as [trail|p]; [|reflexivity].
        cbn [bind]. now rewrite <- !app_assoc.
      * reflexivity.
    + destruct (handleGap_bytes _ None) as [trail|p]; reflexivity.
Qed.

(** A record with audio behind a record with audio: no panic, and at least
    a block is appended. *)
Lemma processDatagram_with_audio (datagram previous : UrtpDatagram)
    (saved : list UrtpDatagram) (pcm : list byte) :
  Audio previous <> None -> Audio datagram <> None ->
  exists added : list Z,
    processDatagram datagram (previous :: saved) pcm = Ok (pcm ++ encode_le added)
    /\ SAMPLES_PER_BLOCK <= len added.
Proof.
  intros Hpa Ha.
  destruct (Audio previous) as [previousAudio|] eqn:Epa; [clear Hpa | contradiction].
  destruct (Audio datagram) as [audio|] eqn:Ea; [clear Ha | contradiction].
  pose proof (len_nonneg audio) as Hl.
  set (K := uint16 (SequenceNumber datagram - SequenceNumber previous)).
  assert (HK : 0 <= K) by (subst K; unfold uint16; apply Z.mod_pos_bound; lia).
  set (trailing := gapSamples (Z.to_nat (SAMPLES_PER_BLOCK - len audio)) previousAudio).
  assert (Htrail : SAMPLES_PER_BLOCK <= len (audio ++ trailing)).
  { subst trailing. rewrite len_app. unfold len at 2. rewrite gapSamples_length. lia. }
  unfold processDatagram. cbn [head]. fold K.
  destruct (negb (SequenceNumber datagram =? uint16 (SequenceNumber previous + 1))).
  - unfold handleGap at 1.
    destruct (Z.lt_ge_cases (K * SAMPLES_PER_BLOCK) 8000) as [Hsmall | Hsilly].
    + rewrite (handleGap_bytes_previous _ previous previousAudio)
        by (assumption || (change SAMPLES_PER_BLOCK with 320 in *; lia)).
      cbn [bind]. rewrite Ea, audioBytes_of_encode_le. cbn [bind].
      rewrite (handleGap_trailing audio previousAudio previous _ Epa). fold trailing.
      exists (gapSamples (Z.to_nat (K * SAMPLES_PER_BLOCK)) previousAudio ++ audio ++ trailing).
      split; [now rewrite !encode_le_app, <- !app_assoc|].
      rewrite len_app. pose proof (len_nonneg (gapSamples (Z.to_nat (K * SAMPLES_PER_BLOCK)) previousAudio)).
      lia.
    + rewrite handleGap_bytes_silly by exact Hsilly.
      cbn [bind]. rewrite app_nil_r, Ea, audioBytes_of_encode_le. cbn [bind].
      rewrite (handleGap_trailing audio previousAudio previous _ Epa). fold trailing.
      exists (audio ++ trailing). split; [now rewrite encode_le_app, <- app_assoc | exact Htrail].
  - cbn [bind]. rewrite Ea, audioBytes_of_encode_le. cbn [bind].
    rewrite (handleGap_trailing audio previousAudio previous _ Epa). fold trailing.
    exists (audio ++ trailing). split; [now rewrite encode_le_app, <- app_assoc | exact Htrail].
Qed.

Lemma processNewDatagrams_appends_blocks (newDatagramList : list UrtpDatagram) :
  forall (processed : list UrtpDatagram) (pcm : list byte),
    Forall (fun d => Audio d <> None) newDatagramList ->
    match head processed with Some previous => Audio previous <> None | None => True end ->
    exists added : list Z,
      processNewDatagrams newDatagramList processed pcm
      = Ok (rev newDatagramList ++ processed, pcm ++ encode_le added)
      /\ SAMPLES_PER_BLOCK * len newDatagramList <= len added.
Proof.
  induction newDatagramList as [|d rest IH]; intros processed pcm Hnew Hprev.
  - exists []. cbn [processNewDatagrams rev app encode_le flat_map].
    rewrite app_nil_r. split; [reflexivity|]. unfold len; cbn [length]; lia.
  - inversion Hnew as [|? ? Hd Hrest]; subst. cbn [processNewDatagrams].
    assert (Hstep : exists added : list Z,
               processDatagram d processed pcm = Ok (pcm ++ encode_le added)
               /\ SAMPLES_PER_BLOCK <= len added).
    { destruct processed as [|previous saved].
      - eexists. split; [apply processDatagram_first_closed|].
        rewrite padded_length. lia.
      - now apply processDatagram_with_audio. }
    destruct Hstep as (a1 & -> & H1). cbn [bind].
    destruct (IH (d :: processed) (pcm ++ encode_le a1) Hrest Hd) as (a2 & -> & H2).
    exists (a1 ++ a2). split.
    + rewrite encode_le_app. cbn [rev]. rewrite <- !app_assoc. reflexivity.
    + rewrite len_app. unfold len in *. cbn [length]. lia.
Qed.

Lemma trimProcessed_last (l processed : list UrtpDatagram) (d : UrtpDatagram) :
  last l = Some d -> trimProcessed (rev l ++ processed) = [d].
Proof.
  intros Hl. destruct l as [|x l _] using rev_ind; [discriminate|].
  rewrite last_snoc in Hl. injection Hl as ->. now rewrite rev_unit.
Qed.

(** X19. The first loop of the process ticker, on records that all have
    audio, the last processed record having audio too: no panic occurs;
    every record is moved to the front of the processed list, which then
    begins with the newest; the buffer is only appended to, by at least one
    block of 320 samples for each record; and the second loop keeps of the
    processed list just the record that arrived last, against which the
    next record is compared. *)
Theorem processNewDatagrams_with_audio (newDatagramList processed : list UrtpDatagram)
    (pcm : list byte) :
  Forall (fun d => Audio d <> None) newDatagramList ->
  match head processed with Some previous => Audio previous <> None | None => True end ->
  exists added : list Z,
    processNewDatagrams newDatagramList processed pcm
    = Ok (rev newDatagramList ++ processed, pcm ++ encode_le added)
    /\ SAMPLES_PER_BLOCK * len newDatagramList <= len added
    /\ (forall d, last newDatagramList = Some d ->
                  trimProcessed (rev newDatagramList ++ processed) = [d]).
Proof.
  intros Hnew Hprev.
  destruct (processNewDatagrams_appends_blocks newDatagramList processed pcm Hnew Hprev)
    as (added & Hrun & Hlen).
  exists added. split; [exact Hrun|]. split; [exact Hlen|].
  intros d. apply trimProcessed_last.
Qed.

Lemma handleGap_repeats_previous_witness :
  exists fill : list Z,
    handleGap 5 (Some datagram9) [] = Ok ([] ++ encode_le fill)
    /\ len fill = 5
    /\ forall i : nat,
         (i < Z.to_nat 5)%nat ->
         fill !! i = replicate 320 1 !! (i mod length (replicate 320 1%Z))%nat.
Proof.
  apply (handleGap_repeats_previous 5 datagram9 (replicate 320 1) []);
    [lia | reflexivity | discriminate].
Defined.

Lemma processDatagram_in_sequence_witness :
  let datagram10 := {| SequenceNumber := 10; Timestamp := 0; Audio := Some [1; 2; 3] |} in
  let trailing := gapSamples (Z.to_nat (SAMPLES_PER_BLOCK - len [1; 2; 3])) (replicate 320 1) in
  processDatagram datagram10 [datagram9] []
  = Ok ([] ++ encode_le ([1; 2; 3] ++ trailing))
  /\ len ([1; 2; 3] ++ trailing) = Z.max SAMPLES_PER_BLOCK (len [1; 2; 3]).
Proof.
  apply (processDatagram_in_sequence
           {| SequenceNumber := 10; Timestamp := 0; Audio := Some [1; 2; 3] |}
           datagram9 [] [1; 2; 3] (replicate 320 1) []); reflexivity.
Defined.

Lemma processDatagram_large_jump_witness :
  processDatagram datagram9 [datagram11] [] = Ok ([] ++ encode_le (replicate 320 1)).
Proof.
  apply (processDatagram_large_jump datagram9 datagram11 [] (replicate 320 1) []);
    [reflexivity | discriminate | discriminate].
Defined.

Lemma processNewDatagrams_with_audio_witness :
  exists added : list Z,
    processNewDatagrams [datagram9; datagram11] [] []
    = Ok (rev [datagram9; datagram11] ++ [], [] ++ encode_le added)
    /\ SAMPLES_PER_BLOCK * len [datagram9; datagram11] <= len added
    /\ (forall d, last [datagram9; datagram11] = Some d ->
                  trimProcessed (rev [datagram9; datagram11] ++ []) = [d]).
Proof.
  apply (processNewDatagrams_with_audio [datagram9; datagram11] [] []);
    [repeat constructor; discriminate | exact I].
Defined.


(* ------------------------------------------------------------------ *)
(** ** The publisher: what a tick reports and keeps *)

Lemma totalDuration_filter (files : list Mp3AudioFile) :
  makePlaylist_totalDuration files = makePlaylist_totalDuration (List.filter usable files).
Proof.
  unfold makePlaylist_totalDuration. generalize 0 as total.
  induction files as [|f files IH]; intros total; [reflexivity|].
  cbn [List.filter fold_left]. destruct (usable f) eqn:E.
  - cbn [fold_left]. rewrite E. apply IH.
  - apply IH.
Qed.

Lemma filter_usable_snoc (visited : list Mp3AudioFile) (f : Mp3AudioFile) :
  List.filter usable (visited ++ [f])
  = List.filter usable visited ++ (if usable f then [f] else []).
Proof.
  rewrite List.filter_app. cbn [List.filter]. now destruct (usable f).
Qed.

Section TickProperties.
Variable playlistLengthSeconds : Z.

Lemma streamTick_loop_messages (obs : nat -> TickObservation) (rest : list Mp3AudioFile) :
  forall (i : nat) (visited : list Mp3AudioFile) (msn : Z) (sent : list OutputBufferState),
    Forall removableIsUnusable rest ->
    Forall removableIsUnusable visited ->
    let p' := streamTick_loop playlistLengthSeconds obs i visited rest msn sent in
    exists new : list OutputBufferState,
      bufferStatesSent p' = sent ++ new
      /\ len new = usableCount visited + usableCount rest - usableCount (mp3FileList p')
      /\ Forall (fun m => BufferSize m = mp3UsableAge playlistLengthSeconds) new
      /\ (forall m, last new = Some m ->
                    Buffered m = makePlaylist_totalDuration (mp3FileList p'))
      /\ (new = [] ->
          List.filter usable (mp3FileList p') = List.filter usable (visited ++ rest))
      /\ List.filter usable (mp3FileList p')
         = List.filter usable visited
           ++ map snd (List.filter (staysUsable playlistLengthSeconds obs)
                         (combine (seq i (length rest)) rest)).
Proof.
  induction rest as [|f rest IH]; intros i visited msn sent Hrest Hvis.
  - cbn. exists []. rewrite !app_nil_r. repeat split; try reflexivity.
    + change (usableCount []) with 0. unfold len. cbn [length]. lia.
    + constructor.
    + intros m Hm. discriminate Hm.
  - inversion Hrest as [|? ? Hf Hrest']; subst.
    cbn [streamTick_loop length seq combine List.filter]. rewrite usableCount_cons.
    unfold staysUsable at 1. cbn [fst snd].
    destruct (usable f && (mp3UsableAge playlistLengthSeconds
                           <? ageAtUsableCheck (obs i))) eqn:Eflip.
    + apply andb_prop in Eflip as [Eu Eage]. rewrite Eu, Eage. cbn [negb andb].
      set (m0 := {| Buffered := makePlaylist_totalDuration (visited ++ markUnusable f :: rest);
                    BufferSize := mp3UsableAge playlistLengthSeconds |}).
      set (f2 := if negb (usable (markUnusable f))
                    && (mp3RemovableAge playlistLengthSeconds
                        <? ageAtRemovableCheck (obs i))
                 then markRemovable (markUnusable f) else markUnusable f).
      assert (Hu2 : usable f2 = false)
        by (subst f2; destruct (negb (usable (markUnusable f)) && _); reflexivity).
      assert (Hm0 : forall l,
                 List.filter usable l = List.filter usable (visited ++ rest) ->
                 Buffered m0 = makePlaylist_totalDuration l).
      { intros l Hl. subst m0. cbn [Buffered].
        rewrite (totalDuration_filter l), Hl, totalDuration_filter.
        f_equal. rewrite !List.filter_app. reflexivity. }
      destruct (removable f2 && removeSucceeds (obs i)).
      * destruct (IH (S i) visited (int64 (msn + 1)) (sent ++ [m0]) Hrest' Hvis)
          as (new & I1 & I2 & I3 & I4 & I5 & I6).
        exists (m0 :: new). rewrite I1, <- app_assoc.
        split; [reflexivity|]. split; [unfold len in *; cbn [length]; lia|].
        split; [constructor; [reflexivity | exact I3]|].
        split; [|split; [discriminate | exact I6]].
        intros m Hm. destruct new as [|m1 new].
        -- injection Hm as <-. apply Hm0, I5. reflexivity.
        -- apply I4. exact Hm.
      * destruct (IH (S i) (visited ++ [f2]) (int64 (msn + 1)) (sent ++ [m0]) Hrest')
          as (new & I1 & I2 & I3 & I4 & I5 & I6).
        { apply Forall_app. split; [exact Hvis|]. constructor; [|constructor].
          intros _. exact Hu2. }
        rewrite usableCount_app, usableCount_cons, Hu2 in I2.
        change (usableCount []) with 0 in I2.
        rewrite filter_usable_snoc, Hu2, app_nil_r in I6.
        exists (m0 :: new). rewrite I1, <- app_assoc.
        split; [reflexivity|]. split; [unfold len in *; cbn [length]; lia|].
        split; [constructor; [reflexivity | exact I3]|].
        split; [|split; [discriminate | exact I6]].
        intros m Hm. destruct new as [|m1 new].
        -- injection Hm as <-. apply Hm0. rewrite I5 by reflexivity.
           rewrite (List.filter_app _ (visited ++ [f2]) rest), filter_usable_snoc, Hu2.
           now rewrite app_nil_r, <- List.filter_app.
        -- apply I4. exact Hm.
    + set (f2 := if negb (usable f)
                    && (mp3RemovableAge playlistLengthSeconds
                        <? ageAtRemovableCheck (obs i))
                 then markRemovable f else f).
      assert (Hu2 : usable f2 = usable f)
        by (subst f2; destruct (negb (usable f) && _); reflexivity).
      assert (Hsame : usable f = true -> f2 = f)
        by (intros E; subst f2; rewrite E; reflexivity).
      assert (Hw2 : removableIsUnusable f2).
      { subst f2. destruct (usable f) eqn:Eu; cbn [negb andb].
        - exact Hf.
        - destruct (_ <? _); intros _; assumption. }
      assert (Hstay : (usable f && negb (mp3UsableAge playlistLengthSeconds
                                         <? ageAtUsableCheck (obs i))) = usable f).
      { destruct (usable f); [|reflexivity]. cbn [andb] in Eflip. now rewrite Eflip. }
      rewrite Hstay.
      destruct (removable f2 && removeSucceeds (obs i)) eqn:Erm.
      * apply andb_prop in Erm as [Er _].
        assert (Eu : usable f = false) by (rewrite <- Hu2; apply Hw2, Er).
        rewrite Eu.
        destruct (IH (S i) visited msn sent Hrest' Hvis)
          as (new & I1 & I2 & I3 & I4 & I5 & I6).
        exists new. split; [exact I1|]. split; [lia|]. split; [exact I3|].
        split; [exact I4|]. split; [|exact I6].
        intros Hn. rewrite (I5 Hn), !List.filter_app. cbn [List.filter].
        now rewrite Eu.
      * destruct (IH (S i) (visited ++ [f2]) msn sent Hrest')
          as (new & I1 & I2 & I3 & I4 & I5 & I6).
        { apply Forall_app. split; [exact Hvis|]. constructor; [exact Hw2 | constructor]. }
        rewrite usableCount_app, usableCount_cons, Hu2 in I2.
        change (usableCount []) with 0 in I2.
        assert (Hsnoc : List.filter usable (visited ++ [f2])
                        = List.filter usable visited ++ (if usable f then [f] else [])).
        { rewrite filter_usable_snoc, Hu2. destruct (usable f) eqn:Eu; [|reflexivity].
          now rewrite Hsame. }
        exists new. split; [exact I1|]. split; [lia|]. split; [exact I3|].
        split; [exact I4|]. split.
        -- intros Hn. rewrite (I5 Hn).
           rewrite (List.filter_app _ (visited ++ [f2]) rest), Hsnoc.
           rewrite (List.filter_app _ visited (f :: rest)). cbn [List.filter].
           rewrite <- app_assoc. now destruct (usable f).
        -- rewrite I6, Hsnoc, <- app_assoc. now destruct (usable f).
Qed.

End TickProperties.


Lemma streamTick_loop_names (playlistLengthSeconds : Z) (obs : nat -> TickObservation)
    (rest : list Mp3AudioFile) :
  forall (i : nat) (visited : list Mp3AudioFile) (msn : Z) (sent : list OutputBufferState),
    exists kept : list (list byte),
      map fileName (mp3FileList
                      (streamTick_loop playlistLengthSeconds obs i visited rest msn sent))
      = map fileName visited ++ kept
      /\ sublist kept (map fileName rest).
Proof.
  induction rest as [|f rest IH]; intros i visited msn sent.
  - exists []. cbn. rewrite app_nil_r. split; [reflexivity | constructor].
  - cbn [streamTick_loop map].
    destruct (usable f && (mp3UsableAge playlistLengthSeconds <? ageAtUsableCheck (obs i)));
      [ destruct (negb (usable (markUnusable f))
                  && (mp3RemovableAge playlistLengthSeconds <? ageAtRemovableCheck (obs i)))
      | destruct (negb (usable f)
                  && (mp3RemovableAge playlistLengthSeconds <? ageAtRemovableCheck (obs i))) ];
      match goal with
      | |- context [if ?c then streamTick_loop _ _ _ ?V _ ?M ?St
                    else streamTick_loop _ _ _ ?V2 _ _ _] =>
          destruct c;
          [ destruct (IH (S i) V M St) as (kept & -> & Hk);
            exists kept; split; [reflexivity | now apply sublist_cons]
          | destruct (IH (S i) V2 M St) as (kept & -> & Hk);
            exists (fileName f :: kept); rewrite map_app, <- app_assoc;
            split; [reflexivity | now apply sublist_skip] ]
      end.
Qed.

Lemma resetRemove_names (removeOk : nat -> bool) (files : list Mp3AudioFile) :
  forall i : nat, sublist (map fileName (resetRemove removeOk i files)) (map fileName files).
Proof.
  induction files as [|f files IH]; intros i; [constructor|].
  cbn [resetRemove map]. destruct (removeOk i).
  - apply sublist_cons, IH.
  - cbn [map]. apply sublist_skip, IH.
Qed.

Lemma announced_snoc (events : list PublisherEvent) (e : PublisherEvent) :
  announced (events ++ [e])
  = announced events ++ match e with NewSegment name _ _ => [name] | _ => [] end.
Proof.
  unfold announced. rewrite flat_map_app. cbn [flat_map]. now rewrite app_nil_r.
Qed.

Lemma publisherRun_snoc (playlistLengthSeconds : Z) (events : list PublisherEvent)
    (e : PublisherEvent) :
  publisherRun playlistLengthSeconds (events ++ [e])
  = publisherStep playlistLengthSeconds (publisherRun playlistLengthSeconds events) e.
Proof. unfold publisherRun. now rewrite fold_left_app. Qed.

Lemma publisherRun_wf (playlistLengthSeconds : Z) (events : list PublisherEvent) :
  Forall removableIsUnusable (mp3FileList (publisherRun playlistLengthSeconds events)).
Proof.
  destruct (publisherRun_invariant playlistLengthSeconds events initialPublisher 0
              ltac:(constructor) eq_refl ltac:(lia)) as (W & _ & _).
  exact W.
Qed.

(** X20. A tick of the stream ticker in any reachable state of the
    publisher: one [OutputBufferState] is sent for every file that stops
    being usable in it, each with the playlist window as its buffer size;
    and the last one sent reports as buffered the total duration of the
    files that are usable when the tick ends, so that the segmenter's last
    word on the buffer is the playlist as it then stands. *)
Theorem streamTick_reports_buffer (playlistLengthSeconds : Z)
    (events : list PublisherEvent) (obs : nat -> TickObservation) :
  let p := publisherRun playlistLengthSeconds events in
  let p' := publisherRun playlistLengthSeconds (events ++ [StreamTick obs]) in
  exists new : list OutputBufferState,
    bufferStatesSent p' = bufferStatesSent p ++ new
    /\ len new = usableCount (mp3FileList p) - usableCount (mp3FileList p')
    /\ Forall (fun m => BufferSize m = mp3UsableAge playlistLengthSeconds) new
    /\ (forall m, last new = Some m ->
                  Buffered m = makePlaylist_totalDuration (mp3FileList p')).
Proof.
  intros p p'. subst p'. rewrite publisherRun_snoc. fold p. cbn [publisherStep].
  destruct (streamTick_loop_messages playlistLengthSeconds obs (mp3FileList p) 0 []
              (mediaSequenceNumber p) (bufferStatesSent p)
              (publisherRun_wf playlistLengthSeconds events) ltac:(constructor))
    as (new & I1 & I2 & I3 & I4 & _ & _).
  change (usableCount []) with 0 in I2.
  exists new. split; [exact I1|]. split; [lia|]. split; [exact I3 | exact I4].
Qed.

(** X21. The files that are usable after a tick, and so the entries of the
    playlist, are exactly the files that were usable before it and were
    seen with an age within the playlist window, unchanged and in their
    order: a tick neither drops nor reorders a segment that is still
    within the window, also when it deletes files around it. *)
Theorem streamTick_keeps_young_usable (playlistLengthSeconds : Z)
    (events : list PublisherEvent) (obs : nat -> TickObservation) :
  let files := mp3FileList (publisherRun playlistLengthSeconds events) in
  List.filter usable
    (mp3FileList (publisherRun playlistLengthSeconds (events ++ [StreamTick obs])))
  = map snd (List.filter (staysUsable playlistLengthSeconds obs)
               (combine (seq 0 (length files)) files)).
Proof.
  intros files. rewrite publisherRun_snoc. cbn [publisherStep].
  destruct (streamTick_loop_messages playlistLengthSeconds obs files 0 []
              (mediaSequenceNumber (publisherRun playlistLengthSeconds events))
              (bufferStatesSent (publisherRun playlistLengthSeconds events))
              (publisherRun_wf playlistLengthSeconds events) ltac:(constructor))
    as (new & _ & _ & _ & _ & _ & I6).
  exact I6.
Qed.

(** X22. Along every run of the publisher the files of the list are in
    the order in which their segments were announced: the names in the
    list are a subsequence of the names announced, so that no tick and no
    Reset reorders or repeats a segment. *)
Theorem publisherRun_arrival_order (playlistLengthSeconds : Z)
    (events : list PublisherEvent) :
  sublist (map fileName (mp3FileList (publisherRun playlistLengthSeconds events)))
          (announced events).
Proof.
  induction events as [|e events IH] using rev_ind; [constructor|].
  rewrite publisherRun_snoc, announced_snoc.
  destruct e as [obs | name now d | removeOk]; cbn [publisherStep mp3FileList].
  - rewrite app_nil_r.
    destruct (streamTick_loop_names playlistLengthSeconds obs
                (mp3FileList (publisherRun playlistLengthSeconds events)) 0 []
                (mediaSequenceNumber (publisherRun playlistLengthSeconds events))
                (bufferStatesSent (publisherRun playlistLengthSeconds events)))
      as (kept & -> & Hk).
    cbn [map app]. etransitivity; eassumption.
  - rewrite map_app. cbn [map]. now apply sublist_app.
  - rewrite app_nil_r. etransitivity; [apply resetRemove_names | exact IH].
Qed.


(* ------------------------------------------------------------------ *)
(** ** The process ticker *)

Lemma int64_add_l (a b : Z) : int64 (int64 a + b) = int64 (a + b).
Proof.
  unfold int64.
  replace ((a + 2 ^ 63) mod 2 ^ 64 - 2 ^ 63 + b + 2 ^ 63)
    with ((a + 2 ^ 63) mod 2 ^ 64 + b) by lia.
  replace (a + b + 2 ^ 63) with ((a + 2 ^ 63) + b) by lia.
  now rewrite Zplus_mod_idemp_l.
Qed.

Lemma countResets_snoc (messages : list MediaControlMessage) (m : MediaControlMessage) :
  countResets (messages ++ [m])
  = countResets messages + match m with SendReset => 1 | _ => 0 end.
Proof.
  unfold countResets. rewrite List.filter_app, len_app. destruct m; reflexivity.
Qed.

Lemma announcedDurations_snoc (messages : list MediaControlMessage)
    (m : MediaControlMessage) :
  announcedDurations (messages ++ [m])
  = announcedDurations messages
    ++ match m with SendMp3AudioFile f => [duration f] | SendReset => [] end.
Proof.
  unfold announcedDurations. rewrite flat_map_app. cbn [flat_map]. now rewrite app_nil_r.
Qed.

(** [encodeOutput] with a writer that keeps its contract: it takes from the
    front of the buffer at most the bytes of the samples asked for, and
    reports at most as many samples as it has taken bytes for. *)
Lemma encodeOutput_takes (writer : list byte -> Z) (numSamples : Z) (pcm : list byte) :
  (forall p : list byte, 0 <= writer p <= len p) ->
  0 <= numSamples < 2 ^ 62 ->
  exists (samples : Z) (taken rest : list byte),
    encodeOutput writer numSamples pcm = Ok (samples, rest)
    /\ pcm = taken ++ rest
    /\ len taken = Z.min (2 * numSamples) (len pcm)
    /\ 0 <= 2 * samples <= len taken.
Proof.
  intros Hw Hn. unfold encodeOutput. unfold URTP_SAMPLE_SIZE.
  assert (H62 : 2 ^ 62 * 2 = 2 ^ 63) by reflexivity.
  rewrite int64_small by lia. rewrite make_Ok by lia. cbn [bind].
  rewrite len_replicate, Z2Nat.id by lia. pose proof (len_nonneg pcm) as Hl.
  set (bytesRead := Z.min (numSamples * 2) (len pcm)).
  assert (Htake : len (take (Z.to_nat bytesRead) pcm) = bytesRead)
    by (unfold len in *; rewrite length_take; lia).
  eexists _, (take (Z.to_nat bytesRead) pcm), _. split; [reflexivity|].
  split; [now rewrite take_drop|]. split; [rewrite Htake; subst bytesRead; lia|].
  rewrite Htake. destruct (Z.ltb_spec 0 bytesRead) as [Hpos | Hzero].
  - pose proof (Hw (take (Z.to_nat bytesRead) pcm)) as Hc. rewrite Htake in Hc.
    rewrite Z.quot_div_nonneg by lia. div_lia.
  - change (0 ÷ 2) with 0. subst bytesRead. lia.
Qed.

Section TickerProperties.
Variables (mp3FileSamples mp3SamplesPerFrame maxOosAge : Z).
Hypothesis Hparameters : tickerParameters mp3FileSamples mp3SamplesPerFrame maxOosAge.

Abbreviation NF := (wholeFrames mp3FileSamples mp3SamplesPerFrame).
Abbreviation DF := (wholeDuration mp3FileSamples mp3SamplesPerFrame).
Abbreviation inv := (tickerInv mp3FileSamples mp3SamplesPerFrame maxOosAge).

Lemma wholeFrames_range : 0 <= NF <= mp3FileSamples.
Proof.
  destruct Hparameters as (Hf & Hfr & _).
  apply (segmentSamples_Ok mp3FileSamples mp3SamplesPerFrame); lia.
Qed.

Lemma segmentSamples_wholeFrames :
  segmentSamples mp3FileSamples mp3SamplesPerFrame = Ok NF.
Proof.
  destruct Hparameters as (Hf & Hfr & _).
  apply (segmentSamples_Ok mp3FileSamples mp3SamplesPerFrame); lia.
Qed.

Lemma segmentDuration_wholeFrames : segmentDuration NF = DF /\ 0 <= DF < 2 ^ 62.
Proof.
  pose proof wholeFrames_range as HN. destruct Hparameters as (Hf & _ & _).
  unfold segmentDuration, wholeDuration, SAMPLING_FREQUENCY, Microsecond.
  assert (H40 : 2 ^ 40 * 1000000 < 2 ^ 63) by reflexivity.
  assert (H62 : 2 ^ 40 * 1000000 < 2 ^ 62) by reflexivity.
  assert (H63 : 2 ^ 62 < 2 ^ 63) by reflexivity.
  rewrite (int64_small (NF * 1000000)) by lia.
  rewrite Z.quot_div_nonneg by lia.
  assert (Hq : 0 <= NF * 1000000 / 16000 <= NF * 1000000 / 16000 * 16000
               /\ NF * 1000000 / 16000 * 16000 <= NF * 1000000) by div_lia.
  rewrite (int64_small (NF * 1000000 / 16000)) by lia.
  rewrite int64_small by lia. split; [reflexivity | lia].
Qed.

Lemma startTicker_inv (first : OpenOutcome) :
  openMp3File first = Ok true ->
  exists s0 : Ticker.State,
    startTicker mp3FileSamples mp3SamplesPerFrame first = Ok (Some s0)
    /\ inv s0
    /\ Ticker.oosAge s0 = 0
    /\ Ticker.mediaControl s0 = []
    /\ Ticker.tagOffsets s0 = []
    /\ Ticker.mp3Handle s0 = true
    /\ Ticker.mp3Offset s0 = 0.
Proof.
  intros Hfirst.
  pose proof wholeFrames_range as HN. destruct Hparameters as (_ & _ & Hoos).
  unfold startTicker. rewrite segmentSamples_wholeFrames, Hfirst. cbn [bind].
  eexists. split; [reflexivity|]. split; [|repeat split].
  unfold tickerInv. cbn.
  repeat split; try lia; try constructor; auto.
  exists 0. split; [lia | reflexivity].
Qed.

(** The first half of a pass. *)
Lemma processTick_records_inv (i : TickInput) (s : Ticker.State) :
  tickInput_ok i -> inv s ->
  exists s1 : Ticker.State,
    processTick_records mp3FileSamples mp3SamplesPerFrame maxOosAge i s = Ok s1
    /\ inv s1
    /\ (Ticker.tagOffsets s1 = Ticker.tagOffsets s
        /\ Ticker.mp3Handle s1 = Ticker.mp3Handle s
        /\ (countResets (Ticker.mediaControl s1) = countResets (Ticker.mediaControl s) ->
            Ticker.mp3Offset s1 = Ticker.mp3Offset s))
    /\ (exists added : list Z,
          Ticker.pcmAudio s1 = (Ticker.pcmAudio s ++ injected i) ++ encode_le added
          /\ SAMPLES_PER_BLOCK * len (arrived i) <= len added)
    /\ match arrived i with
       | _ :: _ => Ticker.oosAge s1 = 0
                   /\ Ticker.mediaControl s1 = Ticker.mediaControl s
       | [] => if maxOosAge <? Ticker.oosAge s + BLOCK_DURATION_MS * Millisecond
               then Ticker.oosAge s1 = 0
                    /\ Ticker.mediaControl s1 = Ticker.mediaControl s ++ [SendReset]
               else Ticker.oosAge s1 = Ticker.oosAge s + BLOCK_DURATION_MS * Millisecond
                    /\ Ticker.mediaControl s1 = Ticker.mediaControl s
       end.
Proof.
  intros (Hw & Haudio & _) (I1 & I2 & I3 & I4 & I5 & I6 & I7 & I8).
  pose proof wholeFrames_range as HN. destruct Hparameters as (_ & _ & Hoos).
  unfold processTick_records.
  destruct (processNewDatagrams_appends_blocks (arrived i) (Ticker.processedDatagramList s)
              (Ticker.pcmAudio s ++ injected i) Haudio I8) as (added & -> & Hadded).
  cbn [bind]. destruct (arrived i) as [|d rest] eqn:Earr.
  - cbn [rev app].
    change (BLOCK_DURATION_MS * Millisecond) with 20000000 in *.
    assert (H62 : 2 ^ 62 + 20000000 < 2 ^ 63) by reflexivity.
    rewrite int64_small by lia.
    destruct (maxOosAge <? Ticker.oosAge s + 20000000) eqn:Elim.
    + rewrite segmentSamples_wholeFrames. cbn [bind].
      eexists. split; [reflexivity|]. cbn.
      split; [|split; [|split; [exists added; auto | auto]]].
      2:{ split; [reflexivity|]. split; [reflexivity|].
          rewrite countResets_snoc. lia. }
      unfold tickerInv. cbn.
      repeat split; try lia; auto.
      * exists 0. split; [lia | reflexivity].
      * rewrite announcedDurations_snoc, app_nil_r. exact I6.
    + apply Z.ltb_ge in Elim.
      eexists. split; [reflexivity|]. cbn.
      split; [|split; [auto | split; [exists added; auto | auto]]].
      unfold tickerInv. cbn. repeat split; try lia; auto.
  - eexists. split; [reflexivity|]. cbn.
    split; [|split; [auto | split; [exists added; auto | auto]]].
    unfold tickerInv. cbn [Ticker.mp3SamplesToEncode Ticker.samplesEncoded
      Ticker.mp3Duration Ticker.mp3Offset Ticker.tagOffsets Ticker.mediaControl
      Ticker.oosAge Ticker.processedDatagramList].
    repeat split; try lia; auto.
    assert (Hlast : exists d', last (d :: rest) = Some d' /\ Audio d' <> None).
    { destruct (last (d :: rest)) as [d'|] eqn:El.
      - exists d'. split; [reflexivity|].
        apply last_Some_elem_of in El.
        rewrite Forall_forall in Haudio. apply Haudio. exact El.
      - apply last_None in El. discriminate. }
    destruct Hlast as (d' & Hl & Hd').
    rewrite (trimProcessed_last _ _ d' Hl). exact Hd'.
Qed.

(** The second half of a pass. *)
Lemma processTick_encode_inv (i : TickInput) (s : Ticker.State) :
  tickInput_ok i -> inv s ->
  exists s' : Ticker.State,
    processTick_encode mp3FileSamples mp3SamplesPerFrame i s = Ok s'
    /\ inv s'
    /\ Ticker.oosAge s' = Ticker.oosAge s
    /\ countResets (Ticker.mediaControl s') = countResets (Ticker.mediaControl s)
    /\ (exists taken, Ticker.pcmAudio s = taken ++ Ticker.pcmAudio s'
                      /\ len taken <= 2 * Ticker.mp3SamplesToEncode s)
    /\ (Ticker.mp3Handle s = true ->
        (Ticker.tagOffsets s' = Ticker.tagOffsets s
         /\ Ticker.mp3Offset s' = Ticker.mp3Offset s
         /\ Ticker.mp3Handle s' = true)
        \/ (Ticker.tagOffsets s' = Ticker.tagOffsets s ++ [Ticker.mp3Offset s]
            /\ Ticker.mp3Offset s' = int64 (Ticker.mp3Offset s + DF)
            /\ openMp3File (opened i) = Ok (Ticker.mp3Handle s'))).
Proof.
  intros (Hw & Haudio & Hopen) (I1 & I2 & I3 & I4 & I5 & I6 & I7 & I8).
  pose proof wholeFrames_range as HN. destruct Hparameters as (Hf & _ & Hoos).
  destruct segmentDuration_wholeFrames as [HD HDr].
  assert (H40 : 2 ^ 40 < 2 ^ 62) by reflexivity.
  assert (H63 : 2 ^ 62 < 2 ^ 63) by reflexivity.
  unfold processTick_encode.
  destruct (encodeOutput_takes (writerCount i) (Ticker.mp3SamplesToEncode s)
              (Ticker.pcmAudio s) Hw ltac:(lia))
    as (samples & taken & rest & -> & Hpcm & Htaken & Hsamples).
  cbn [bind].
  rewrite (int64_small (Ticker.samplesEncoded s + samples)) by lia.
  rewrite (int64_small (Ticker.mp3SamplesToEncode s - samples)) by lia.
  destruct (Z.leb_spec (Ticker.mp3SamplesToEncode s - samples) 0) as [Hdone | Hmore].
  - assert (Hhandle : exists handle, openMp3File (opened i) = Ok handle)
      by (destruct (opened i); [eexists; reflexivity .. | contradiction | eexists; reflexivity]).
    destruct Hhandle as (handle & Ehandle). rewrite Ehandle. cbn [bind].
    rewrite segmentSamples_wholeFrames. cbn [bind].
    replace (Ticker.samplesEncoded s + samples) with NF by lia. rewrite HD.
    eexists. split; [reflexivity|]. cbn.
    split; [|split; [reflexivity | split; [|split]]].
    + unfold tickerInv. cbn.
      destruct I4 as (k & Hk & Ek).
      repeat split; try lia.
      * destruct (Ticker.mp3Handle s); [now right | exact I3].
      * destruct (Ticker.mp3Handle s).
        -- exists (k + 1). split; [lia|]. rewrite Ek, int64_add_l. f_equal. lia.
        -- destruct I3 as [-> | ->].
           ++ exists k. split; [lia|]. rewrite Ek, int64_add_l. f_equal. lia.
           ++ exists (k + 1). split; [lia|]. rewrite Ek, int64_add_l. f_equal. lia.
      * destruct (Ticker.mp3Handle s); [|exact I5].
        apply Forall_app. split; [exact I5|]. constructor; [|constructor].
        exists k. auto.
      * destruct (Ticker.mp3Handle s && tagWritten i && audioWritten i) eqn:Esend;
          [|exact I6].
        rewrite announcedDurations_snoc. apply Forall_app. split; [exact I6|].
        cbn [duration newMp3AudioFile].
        destruct (Ticker.mp3Handle s); [|discriminate]. repeat constructor.
      * exact I8.
    + destruct (Ticker.mp3Handle s && tagWritten i && audioWritten i);
        [now rewrite countResets_snoc, Z.add_0_r | reflexivity].
    + exists taken. split; [exact Hpcm | lia].
    + intros ->. right. auto.
  - eexists. split; [reflexivity|]. cbn.
    split; [|split; [reflexivity | split; [reflexivity | split]]].
    + unfold tickerInv. cbn. repeat split; try lia; auto.
    + exists taken. split; [exact Hpcm | lia].
    + intros ->. left. auto.
Qed.

(** A whole pass. *)
Lemma processTick_step (i : TickInput) (s : Ticker.State) :
  tickInput_ok i -> inv s ->
  exists s' : Ticker.State,
    processTick mp3FileSamples mp3SamplesPerFrame maxOosAge i s = Ok s'
    /\ inv s'
    /\ match arrived i with
       | _ :: _ => Ticker.oosAge s' = 0
                   /\ countResets (Ticker.mediaControl s')
                      = countResets (Ticker.mediaControl s)
       | [] => if maxOosAge <? Ticker.oosAge s + BLOCK_DURATION_MS * Millisecond
               then Ticker.oosAge s' = 0
                    /\ countResets (Ticker.mediaControl s')
                       = countResets (Ticker.mediaControl s) + 1
               else Ticker.oosAge s' = Ticker.oosAge s + BLOCK_DURATION_MS * Millisecond
                    /\ countResets (Ticker.mediaControl s')
                       = countResets (Ticker.mediaControl s)
       end
    /\ (Ticker.mp3Handle s = true ->
        countResets (Ticker.mediaControl s') = countResets (Ticker.mediaControl s) ->
        (Ticker.tagOffsets s' = Ticker.tagOffsets s
         /\ Ticker.mp3Offset s' = Ticker.mp3Offset s
         /\ Ticker.mp3Handle s' = true)
        \/ (Ticker.tagOffsets s' = Ticker.tagOffsets s ++ [Ticker.mp3Offset s]
            /\ Ticker.mp3Offset s' = int64 (Ticker.mp3Offset s + DF)
            /\ openMp3File (opened i) = Ok (Ticker.mp3Handle s'))).
Proof.
  intros Hi Hs. unfold processTick.
  destruct (processTick_records_inv i s Hi Hs)
    as (s1 & -> & Hs1 & (Rtags & Rhandle & Roffset) & _ & Roos).
  cbn [bind].
  destruct (processTick_encode_inv i s1 Hi Hs1)
    as (s' & -> & Hs' & Eoos & Ecount & _ & Etags).
  exists s'. split; [reflexivity|]. split; [exact Hs'|].
  rewrite Eoos, Ecount. split.
  - destruct (arrived i).
    + destruct (maxOosAge <? _); destruct Roos as [-> ->];
        [rewrite countResets_snoc|]; auto.
    + destruct Roos as [-> ->]. auto.
  - intros Hh Hc. rewrite <- Rhandle in Hh. specialize (Etags Hh).
    rewrite Rtags, (Roffset Hc) in Etags. exact Etags.
Qed.

Lemma processTicks_inv (inputs : list TickInput) :
  forall s : Ticker.State,
    Forall tickInput_ok inputs -> inv s ->
    exists s' : Ticker.State,
      processTicks mp3FileSamples mp3SamplesPerFrame maxOosAge inputs s = Ok s' /\ inv s'.
Proof.
  induction inputs as [|i inputs IH]; intros s Hin Hs.
  - exists s. split; [reflexivity | exact Hs].
  - inversion Hin as [|? ? Hi Hrest]; subst. cbn [processTicks].
    destruct (processTick_step i s Hi Hs) as (s1 & -> & Hs1 & _).
    cbn [bind]. now apply IH.
Qed.

Lemma processTicks_app (a b : list TickInput) (s : Ticker.State) :
  processTicks mp3FileSamples mp3SamplesPerFrame maxOosAge (a ++ b) s
  = (do s1 <- processTicks mp3FileSamples mp3SamplesPerFrame maxOosAge a s;
     processTicks mp3FileSamples mp3SamplesPerFrame maxOosAge b s1).
Proof.
  revert s. induction a as [|i a IH]; intros s; [reflexivity|].
  cbn [app processTicks].
  destruct (processTick mp3FileSamples mp3SamplesPerFrame maxOosAge i s); [|reflexivity].
  cbn [bind]. apply IH.
Qed.

(** Passes in which nothing arrives, from a state in which something had:
    the age and the Resets after [k] of them. *)
Lemma processTicks_idle (inputs : list TickInput) :
  forall s : Ticker.State,
    Forall tickInput_ok inputs ->
    Forall (fun i => arrived i = []) inputs ->
    inv s -> Ticker.oosAge s = 0 ->
    let period := maxOosAge / (BLOCK_DURATION_MS * Millisecond) + 1 in
    exists s' : Ticker.State,
      processTicks mp3FileSamples mp3SamplesPerFrame maxOosAge inputs s = Ok s'
      /\ inv s'
      /\ Ticker.oosAge s' = len inputs mod period * (BLOCK_DURATION_MS * Millisecond)
      /\ countResets (Ticker.mediaControl s')
         = countResets (Ticker.mediaControl s) + len inputs / period.
Proof.
  destruct Hparameters as (_ & _ & Hoos).
  change (BLOCK_DURATION_MS * Millisecond) with 20000000.
  induction inputs as [|i inputs IH] using rev_ind; intros s Hok Hidle Hs H0 period.
  - exists s. split; [reflexivity|]. split; [exact Hs|].
    change (len []) with 0. rewrite Z.mod_0_l, Z.div_0_l by (subst period; div_lia).
    split; lia.
  - apply Forall_app in Hok as [Hok Hi]. apply Forall_app in Hidle as [Hidle Ei].
    inversion Hi as [|? ? Hi' _]; subst. inversion Ei as [|? ? Ei' _]; subst.
    destruct (IH s Hok Hidle Hs H0) as (s1 & Hrun & Hs1 & Hage & Hcount).
    rewrite processTicks_app, Hrun. cbn [bind processTicks].
    destruct (processTick_step i s1 Hi' Hs1) as (s' & -> & Hs' & Hstep & _).
    cbn [bind]. exists s'. split; [reflexivity|]. split; [exact Hs'|].
    rewrite Ei' in Hstep. change (BLOCK_DURATION_MS * Millisecond) with 20000000 in Hstep.
    fold period in Hage, Hcount.
    rewrite len_app. change (len [i]) with 1.
    pose proof (len_nonneg inputs) as Hl.
    assert (Hp : 0 < period) by (subst period; div_lia).
    assert (Hm : maxOosAge / 20000000 = period - 1) by (subst period; lia).
    assert (Hmax : 20000000 * (period - 1) <= maxOosAge < 20000000 * period)
      by (rewrite <- Hm; div_lia).
    clearbody period.
    pose proof (Z.div_mod (len inputs) period ltac:(lia)) as Hdm.
    pose proof (Z.mod_pos_bound (len inputs) period Hp) as Hmb.
    set (q := len inputs / period) in *. set (r := len inputs mod period) in *.
    destruct (Z.ltb_spec maxOosAge (Ticker.oosAge s1 + 20000000)) as [Hover | Hunder];
      destruct Hstep as [-> ->]; rewrite Hcount.
    + assert (Hr : r = period - 1) by nia.
      assert (E : len inputs + 1 = period * (q + 1) + 0) by nia.
      rewrite <- (Z.mod_unique_pos (len inputs + 1) period (q + 1) 0 ltac:(lia) E).
      rewrite <- (Z.div_unique_pos (len inputs + 1) period (q + 1) 0 ltac:(lia) E). lia.
    + assert (Hr : r + 1 < period) by nia.
      assert (E : len inputs + 1 = period * q + (r + 1)) by nia.
      rewrite <- (Z.mod_unique_pos (len inputs + 1) period q (r + 1) ltac:(lia) E).
      rewrite <- (Z.div_unique_pos (len inputs + 1) period q (r + 1) ltac:(lia) E). lia.
Qed.

End TickerProperties.


Lemma processTicks_offsets (mp3FileSamples mp3SamplesPerFrame maxOosAge : Z)
    (inputs : list TickInput) :
  tickerParameters mp3FileSamples mp3SamplesPerFrame maxOosAge ->
  forall s : Ticker.State,
    Forall tickInput_ok inputs ->
    Forall (fun i => opened i = Opened) inputs ->
    tickerInv mp3FileSamples mp3SamplesPerFrame maxOosAge s ->
    exists s' : Ticker.State,
      processTicks mp3FileSamples mp3SamplesPerFrame maxOosAge inputs s = Ok s'
      /\ countResets (Ticker.mediaControl s) <= countResets (Ticker.mediaControl s')
      /\ (countResets (Ticker.mediaControl s') = countResets (Ticker.mediaControl s) ->
          Ticker.mp3Handle s = true ->
          Ticker.mp3Handle s' = true
          /\ exists new : list Z,
               Ticker.tagOffsets s' = Ticker.tagOffsets s ++ new
               /\ Ticker.mp3Offset s'
                  = int64 (Ticker.mp3Offset s
                           + len new * wholeDuration mp3FileSamples mp3SamplesPerFrame)
               /\ forall (j : nat) (offset : Z),
                    new !! j = Some offset ->
                    offset
                    = int64 (Ticker.mp3Offset s
                             + Z.of_nat j * wholeDuration mp3FileSamples mp3SamplesPerFrame)).
Proof.
  intros Hp. induction inputs as [|i inputs IH]; intros s Hok Hopen Hs.
  - exists s. split; [reflexivity|]. split; [lia|]. intros _ Hh. split; [exact Hh|].
    exists []. rewrite app_nil_r. change (len []) with 0.
    split; [reflexivity|]. split.
    + destruct Hs as (_ & _ & _ & (k & _ & ->) & _).
      rewrite int64_add_l. f_equal. lia.
    + intros j offset Hj. discriminate Hj.
  - inversion Hok as [|? ? Hi Hok']; subst. inversion Hopen as [|? ? Ho Hopen']; subst.
    cbn [processTicks].
    destruct (processTick_step _ _ _ Hp i s Hi Hs) as (s1 & -> & Hs1 & Hoos & Htags).
    cbn [bind].
    destruct (IH s1 Hok' Hopen' Hs1) as (s' & -> & Hle & Hrest).
    exists s'. split; [reflexivity|].
    assert (Hle1 : countResets (Ticker.mediaControl s)
                   <= countResets (Ticker.mediaControl s1)).
    { destruct (arrived i); [destruct (maxOosAge <? _)|]; lia. }
    split; [lia|]. intros Hc Hh.
    destruct (Hrest ltac:(lia)) as [Hrest' _]; [|clear Hrest'].
    + destruct (Htags Hh ltac:(lia)) as [(_ & _ & ->) | (_ & _ & Eh)]; [reflexivity|].
      rewrite Ho in Eh. now injection Eh as <-.
    + destruct (Htags Hh ltac:(lia)) as [(Et & Eo & Eh) | (Et & Eo & Eh)].
      * destruct (Hrest ltac:(lia) Eh) as (Hh' & new & Hnew & Hoff & Hlook).
        split; [exact Hh'|]. exists new. rewrite Hnew, Et, Hoff, Eo.
        split; [reflexivity|]. split; [reflexivity|].
        intros j offset Hj. rewrite (Hlook j offset Hj), Eo. reflexivity.
      * rewrite Ho in Eh. injection Eh as Eh. symmetry in Eh.
        destruct (Hrest ltac:(lia) Eh) as (Hh' & new & Hnew & Hoff & Hlook).
        split; [exact Hh'|]. exists (Ticker.mp3Offset s :: new).
        rewrite Hnew, Et, Hoff, Eo, <- app_assoc.
        split; [reflexivity|]. split.
        -- rewrite int64_add_l. f_equal. unfold len. cbn [length]. lia.
        -- intros [|j] offset Hj.
           ++ injection Hj as <-. cbn.
              destruct Hs as (_ & _ & _ & (k & _ & ->) & _).
              rewrite int64_add_l. f_equal. lia.
           ++ rewrite (Hlook j offset Hj), Eo, int64_add_l. f_equal. lia.
Qed.

(** X23. The process ticker, started with parameters that fit and with
    a first segment file, and run through any passes in which the MP3
    writer keeps the contract of a writer, every arrived record has audio
    and [os.Create] does not fail on a segment file, never panics,
    whatever silence is written to the PCM buffer between the passes.
    Between passes the samples encoded into the open segment and those
    still to encode add up to the segment length, a whole number of MP3
    frames, so that a segment is closed exactly when it is full: every
    segment announced to the publisher has one and the same duration, and
    every offset written into a tag is a whole multiple of it. *)
Theorem processTicks_whole_segments (mp3FileSamples mp3SamplesPerFrame maxOosAge : Z)
    (first : OpenOutcome) (inputs : list TickInput) :
  tickerParameters mp3FileSamples mp3SamplesPerFrame maxOosAge ->
  openMp3File first = Ok true ->
  Forall tickInput_ok inputs ->
  exists s0 s : Ticker.State,
    startTicker mp3FileSamples mp3SamplesPerFrame first = Ok (Some s0)
    /\ processTicks mp3FileSamples mp3SamplesPerFrame maxOosAge inputs s0 = Ok s
    /\ 0 <= Ticker.mp3SamplesToEncode s <= wholeFrames mp3FileSamples mp3SamplesPerFrame
    /\ Ticker.samplesEncoded s + Ticker.mp3SamplesToEncode s
       = wholeFrames mp3FileSamples mp3SamplesPerFrame
    /\ Forall (fun d => d = wholeDuration mp3FileSamples mp3SamplesPerFrame)
              (announcedDurations (Ticker.mediaControl s))
    /\ Forall (multipleOfDuration mp3FileSamples mp3SamplesPerFrame) (Ticker.tagOffsets s).
Proof.
  intros Hp Hfirst Hok.
  destruct (startTicker_inv _ _ _ Hp first Hfirst) as (s0 & Hstart & Hs0 & _).
  destruct (processTicks_inv _ _ _ Hp inputs s0 Hok Hs0) as (s & Hrun & Hs).
  exists s0, s. split; [exact Hstart|]. split; [exact Hrun|].
  destruct Hs as (I1 & I2 & _ & _ & I5 & I6 & _). auto.
Qed.

(** X24. In a run of the process ticker in which every segment file opens
    and no Reset is sent, segment number [j], counted from 0, is tagged
    with the offset [j] times the segment duration, and the offset kept for
    the next segment is the number of tags written times that duration:
    the tags of consecutive segments tile the timeline without a gap or an
    overlap. *)
Theorem processTicks_tag_offsets (mp3FileSamples mp3SamplesPerFrame maxOosAge : Z)
    (first : OpenOutcome) (inputs : list TickInput) :
  tickerParameters mp3FileSamples mp3SamplesPerFrame maxOosAge ->
  openMp3File first = Ok true ->
  Forall tickInput_ok inputs ->
  Forall (fun i => opened i = Opened) inputs ->
  exists s0 s : Ticker.State,
    startTicker mp3FileSamples mp3SamplesPerFrame first = Ok (Some s0)
    /\ processTicks mp3FileSamples mp3SamplesPerFrame maxOosAge inputs s0 = Ok s
    /\ (countResets (Ticker.mediaControl s) = 0 ->
        (forall (j : nat) (offset : Z),
           Ticker.tagOffsets s !! j = Some offset ->
           offset = int64 (Z.of_nat j * wholeDuration mp3FileSamples mp3SamplesPerFrame))
        /\ Ticker.mp3Offset s
           = int64 (len (Ticker.tagOffsets s)
                    * wholeDuration mp3FileSamples mp3SamplesPerFrame)).
Proof.
  intros Hp Hfirst Hok Hopen.
  destruct (startTicker_inv _ _ _ Hp first Hfirst)
    as (s0 & Hstart & Hs0 & _ & Hmc & Htags & Hh0 & Ho0).
  destruct (processTicks_offsets _ _ _ inputs Hp s0 Hok Hopen Hs0)
    as (s & Hrun & _ & Hoff).
  exists s0, s. split; [exact Hstart|]. split; [exact Hrun|].
  intros Hnone.
  rewrite Hmc in Hoff. change (countResets []) with 0 in Hoff.
  destruct (Hoff Hnone Hh0) as (_ & new & Hnew & Hnext & Hlook).
  rewrite Htags in Hnew. cbn [app] in Hnew. rewrite Hnew. split.
  - intros j offset Hj. rewrite (Hlook j offset Hj), Ho0. reflexivity.
  - rewrite Hnext, Ho0. reflexivity.
Qed.

(** X25. The out-of-service watchdog, under the conditions of the run
    above.  Behind any passes the last of which processed a record, or
    from the start, [k] passes in which nothing arrives send a Reset on
    every pass whose number is a multiple of [maxOosAge / 20 ms + 1], and
    on no other: [k / period] Resets in all, the out-of-service age
    standing at [k mod period] steps of 20 ms afterwards.  The first Reset
    comes when the stream has been silent for more than [maxOosAge], and
    it is repeated at that rate for as long as nothing arrives. *)
Theorem processTicks_out_of_service (mp3FileSamples mp3SamplesPerFrame maxOosAge : Z)
    (first : OpenOutcome) (busy idle : list TickInput) :
  tickerParameters mp3FileSamples mp3SamplesPerFrame maxOosAge ->
  openMp3File first = Ok true ->
  Forall tickInput_ok busy ->
  Forall tickInput_ok idle ->
  (busy = [] \/ exists i, last busy = Some i /\ arrived i <> []) ->
  Forall (fun i => arrived i = []) idle ->
  let period := maxOosAge / (BLOCK_DURATION_MS * Millisecond) + 1 in
  exists s0 s1 s2 : Ticker.State,
    startTicker mp3FileSamples mp3SamplesPerFrame first = Ok (Some s0)
    /\ processTicks mp3FileSamples mp3SamplesPerFrame maxOosAge busy s0 = Ok s1
    /\ processTicks mp3FileSamples mp3SamplesPerFrame maxOosAge idle s1 = Ok s2
    /\ Ticker.oosAge s2 = len idle mod period * (BLOCK_DURATION_MS * Millisecond)
    /\ countResets (Ticker.mediaControl s2)
       = countResets (Ticker.mediaControl s1) + len idle / period.
Proof.
  intros Hp Hfirst Hbusy Hidle Hlast Hnone period.
  destruct (startTicker_inv _ _ _ Hp first Hfirst) as (s0 & Hstart & Hs0 & Hoos0 & _).
  destruct (processTicks_inv _ _ _ Hp busy s0 Hbusy Hs0) as (s1 & Hrun1 & Hs1).
  assert (Hoos1 : Ticker.oosAge s1 = 0).
  { destruct Hlast as [-> | (i & Hl & Hi)].
    - cbn in Hrun1. injection Hrun1 as <-. exact Hoos0.
    - destruct busy as [|x busy' _] using rev_ind; [discriminate|].
      rewrite last_snoc in Hl. injection Hl as ->.
      apply Forall_app in Hbusy as [Hb Hi']. inversion Hi' as [|? ? Hi'' _]; subst.
      rewrite processTicks_app in Hrun1.
      destruct (processTicks_inv _ _ _ Hp busy' s0 Hb Hs0) as (sm & Hrunm & Hsm).
      rewrite Hrunm in Hrun1. cbn [bind processTicks] in Hrun1.
      destruct (processTick_step _ _ _ Hp i sm Hi'' Hsm) as (s' & Hstep & _ & Hoos & _).
      rewrite Hstep in Hrun1. cbn [bind] in Hrun1. injection Hrun1 as <-.
      destruct (arrived i); [contradiction|]. apply Hoos. }
  destruct (processTicks_idle _ _ _ Hp idle s1 Hidle Hnone Hs1 Hoos1)
    as (s2 & Hrun2 & _ & Hage & Hcount).
  exists s0, s1, s2. auto.
Qed.

(** A run that closes segments: with segments of 320 samples, two frames
    of 160, every pass in which record 9 arrives fills a segment.  Three
    such passes write the tags of three segments, at 0, 20 and 40 ms, and
    announce three files of 20 ms; five passes without arrivals behind
    them, with an out-of-service limit of 40 ms, send one Reset, on the
    third, and leave the age at two steps. *)
Lemma busyTicks_close_segments :
  (do start <- startTicker 320 160 Opened;
   match start with
   | Some s0 =>
       do s <- processTicks 320 160 40000000 [busyTick; busyTick; busyTick] s0;
       do s' <- processTicks 320 160 40000000
                  [idleTick; idleTick; idleTick; idleTick; idleTick] s;
       Ok (Ticker.tagOffsets s, announcedDurations (Ticker.mediaControl s),
           countResets (Ticker.mediaControl s), Ticker.mp3Offset s,
           countResets (Ticker.mediaControl s'), Ticker.oosAge s')
   | None => Ok ([], [], 0, 0, 0, 0)
   end)
  = Ok ([0; 20000000; 40000000], [20000000; 20000000; 20000000], 0, 60000000,
        1, 40000000).
Proof. vm_compute. reflexivity. Qed.

Ltac tick_input_ok :=
  split; [intros p; cbn; pose proof (len_nonneg p); lia
         | split; [repeat constructor; discriminate | discriminate]].

Lemma processTicks_whole_segments_witness :
  exists s0 s : Ticker.State,
    startTicker 320 160 Opened = Ok (Some s0)
    /\ processTicks 320 160 40000000 [busyTick; busyTick; busyTick] s0 = Ok s
    /\ 0 <= Ticker.mp3SamplesToEncode s <= wholeFrames 320 160
    /\ Ticker.samplesEncoded s + Ticker.mp3SamplesToEncode s = wholeFrames 320 160
    /\ Forall (fun d => d = wholeDuration 320 160)
              (announcedDurations (Ticker.mediaControl s))
    /\ Forall (multipleOfDuration 320 160) (Ticker.tagOffsets s).
Proof.
  apply (processTicks_whole_segments 320 160 40000000 Opened
           [busyTick; busyTick; busyTick]).
  - unfold tickerParameters; lia.
  - reflexivity.
  - repeat (constructor; [tick_input_ok|]). constructor.
Defined.

Lemma processTicks_tag_offsets_witness :
  exists s0 s : Ticker.State,
    startTicker 320 160 Opened = Ok (Some s0)
    /\ processTicks 320 160 40000000 [busyTick; busyTick; busyTick] s0 = Ok s
    /\ (countResets (Ticker.mediaControl s) = 0 ->
        (forall (j : nat) (offset : Z),
           Ticker.tagOffsets s !! j = Some offset ->
           offset = int64 (Z.of_nat j * wholeDuration 320 160))
        /\ Ticker.mp3Offset s
           = int64 (len (Ticker.tagOffsets s) * wholeDuration 320 160)).
Proof.
  apply (processTicks_tag_offsets 320 160 40000000 Opened
           [busyTick; busyTick; busyTick]).
  - unfold tickerParameters; lia.
  - reflexivity.
  - repeat (constructor; [tick_input_ok|]). constructor.
  - repeat constructor.
Defined.

Lemma processTicks_out_of_service_witness :
  let period := 40000000 / (BLOCK_DURATION_MS * Millisecond) + 1 in
  let idle := [idleTick; idleTick; idleTick; idleTick; idleTick] in
  exists s0 s1 s2 : Ticker.State,
    startTicker 320 160 Opened = Ok (Some s0)
    /\ processTicks 320 160 40000000 [busyTick; busyTick; busyTick] s0 = Ok s1
    /\ processTicks 320 160 40000000 idle s1 = Ok s2
    /\ Ticker.oosAge s2 = len idle mod period * (BLOCK_DURATION_MS * Millisecond)
    /\ countResets (Ticker.mediaControl s2)
       = countResets (Ticker.mediaControl s1) + len idle / period.
Proof.
  apply (processTicks_out_of_service 320 160 40000000 Opened
           [busyTick; busyTick; busyTick]
           [idleTick; idleTick; idleTick; idleTick; idleTick]).
  - unfold tickerParameters; lia.
  - reflexivity.
  - repeat (constructor; [tick_input_ok|]). constructor.
  - repeat (constructor; [tick_input_ok|]). constructor.
  - right. exists busyTick. split; [reflexivity | discriminate].
  - repeat constructor.
Defined.


(* ------------------------------------------------------------------ *)
(** ** The playlist *)

Section PlaylistProperties.
Variables (fmtSeconds fmtCeilSeconds fmtInt : Z -> list byte).

Lemma makePlaylist_scan_usable (files : list Mp3AudioFile) :
  makePlaylist_scan fmtSeconds files
  = makePlaylist_scan fmtSeconds (List.filter usable files).
Proof.
  unfold makePlaylist_scan.
  match goal with |- fold_left _ _ ?init = _ => generalize init end.
  induction files as [|f files IH]; intros scan; [reflexivity|].
  cbn [List.filter fold_left]. destruct (usable f) eqn:E.
  - cbn [fold_left]. rewrite E. apply IH.
  - apply IH.
Qed.

Lemma makePlaylist_scan_totalDuration (files : list Mp3AudioFile) :
  totalDuration (makePlaylist_scan fmtSeconds files) = makePlaylist_totalDuration files.
Proof.
  unfold makePlaylist_scan, makePlaylist_totalDuration.
  match goal with |- totalDuration (fold_left ?step _ ?init) = fold_left ?g _ 0 =>
    enough (H : forall scan,
               totalDuration (fold_left step files scan)
               = fold_left g files (totalDuration scan)) by apply H
  end.
  induction files as [|f files IH]; intros scan; [reflexivity|].
  cbn [fold_left]. destruct (usable f); rewrite IH; reflexivity.
Qed.

(** X26. The playlist that [makePlaylist] writes is made of the usable
    files alone: files that are no longer usable leave no trace in it,
    whatever their place in the list.  The duration it returns is the sum
    over the usable files that the stream ticker reports as buffered.  And
    with no usable file the playlist is its two fixed lines, without a
    target duration and without the media sequence number. *)
Theorem makePlaylist_usable_files (mediaSequenceNumber : Z) (files : list Mp3AudioFile) :
  makePlaylist fmtSeconds fmtCeilSeconds fmtInt mediaSequenceNumber files
  = makePlaylist fmtSeconds fmtCeilSeconds fmtInt mediaSequenceNumber
      (List.filter usable files)
  /\ snd (makePlaylist fmtSeconds fmtCeilSeconds fmtInt mediaSequenceNumber files)
     = makePlaylist_totalDuration files
  /\ (List.filter usable files = [] ->
      fst (makePlaylist fmtSeconds fmtCeilSeconds fmtInt mediaSequenceNumber files)
      = String.list_byte_of_string "#EXTM3U" ++ crlf
        ++ String.list_byte_of_string "#EXT-X-VERSION:3" ++ crlf).
Proof.
  split; [|split].
  - unfold makePlaylist. now rewrite makePlaylist_scan_usable.
  - apply makePlaylist_scan_totalDuration.
  - intros Hnone. unfold makePlaylist. rewrite makePlaylist_scan_usable, Hnone.
    cbn [makePlaylist_scan fold_left numSegments fst].
    change (0 <? 0) with false. cbv iota. now rewrite !app_nil_r.
Qed.

End PlaylistProperties.

(* ------------------------------------------------------------------ *)
(** ** The LAME binding *)

(** X27. [Encoder.Encode], for one channel or more, with an output buffer
    of a byte or more and an encoder that reports a count within the
    buffer it was given.  The bytes left from the call before and the
    bytes given now are taken together.  If there are none, nothing is
    done.  If there are fewer than the [2 * numChannels] bytes of one
    sample frame, the call panics, the address of the first byte of an
    empty slice being taken.  Otherwise the encoder is given the longest
    run of whole sample frames from the front, and what is left behind it,
    less than a frame, is kept for the next call: no byte is dropped and
    none is passed twice. *)
Theorem Encode_whole_frames (numChannels : Z) (estimatedSize : Z -> Z)
    (lame_encode_buffer : list byte -> Z -> Z -> Z * list byte)
    (e : Encoder) (buf : list byte) :
  0 < numChannels < 2 ^ 60 ->
  len (remainder e ++ buf) < 2 ^ 63 ->
  (forall n, 0 <= n -> 0 < estimatedSize n) ->
  (forall pcm n size, 0 < size -> 0 <= fst (lame_encode_buffer pcm n size) <= size) ->
  let blockAlign := 2 * numChannels in
  let all := remainder e ++ buf in
  let frames := len all / blockAlign in
  let whole := Z.to_nat (frames * blockAlign) in
  let result := lame_encode_buffer (take whole all) frames (estimatedSize frames) in
  Encode numChannels estimatedSize lame_encode_buffer e buf
  = if len all =? 0 then Ok ([], e)
    else if len all <? blockAlign then Panic (IndexOutOfRange 0 0)
    else Ok (take (Z.to_nat (fst result)) (snd result), {| remainder := drop whole all |}).
Proof.
  intros Hch Hfit Hsize Hlame blockAlign all frames whole result. fold all in Hfit.
  unfold Encode.
  assert (Hall : (if 0 <? len (remainder e) then remainder e ++ buf else buf) = all).
  { subst all. destruct (Z.ltb_spec 0 (len (remainder e))) as [Hr | Hr]; [reflexivity|].
    destruct (remainder e) as [|b rest]; [reflexivity|].
    unfold len in Hr. cbn [length] in Hr. lia. }
  rewrite Hall. pose proof (len_nonneg all) as Hl.
  destruct (Z.eqb_spec (len all) 0) as [E0 | E0]; [reflexivity|].
  assert (H60 : 2 * 2 ^ 60 < 2 ^ 63) by reflexivity.
  change (BIT_DEPTH ÷ 8) with 2. rewrite int64_small by lia. fold blockAlign.
  assert (Hb : 0 < blockAlign) by (subst blockAlign; lia).
  unfold go_rem, go_div.
  replace (blockAlign =? 0) with false by (symmetry; apply Z.eqb_neq; lia).
  cbn [bind]. rewrite Z.rem_mod_nonneg by lia.
  pose proof (Z.div_mod (len all) blockAlign ltac:(lia)) as Hdm.
  pose proof (Z.mod_pos_bound (len all) blockAlign Hb) as Hmb.
  fold frames in Hdm.
  assert (Hf : 0 <= frames) by (subst frames; apply Z.div_pos; lia).
  assert (Hwhole : len all - len all mod blockAlign = frames * blockAlign) by lia.
  assert (Hbuf2 : (if 0 <? len all mod blockAlign
                   then take (Z.to_nat (len all - len all mod blockAlign)) all
                   else all) = take whole all).
  { subst whole. rewrite <- Hwhole.
    destruct (Z.ltb_spec 0 (len all mod blockAlign)) as [Hr | Hr]; [reflexivity|].
    rewrite take_ge; [reflexivity | unfold len in *; lia]. }
  assert (He' : (if 0 <? len all mod blockAlign
                 then {| remainder := drop (Z.to_nat (len all - len all mod blockAlign)) all |}
                 else {| remainder := [] |}) = {| remainder := drop whole all |}).
  { subst whole. rewrite <- Hwhole.
    destruct (Z.ltb_spec 0 (len all mod blockAlign)) as [Hr | Hr]; [reflexivity|].
    rewrite drop_ge; [reflexivity | unfold len in *; lia]. }
  rewrite Hbuf2, He'.
  assert (Hlen2 : len (take whole all) = frames * blockAlign).
  { subst whole. unfold len in *. rewrite length_take. nia. }
  rewrite Hlen2, Z.quot_div_nonneg, Z.div_mul by nia.
  assert (Hfr : frames <= len all) by nia.
  rewrite (int64_small frames) by lia.
  rewrite make_Ok by (specialize (Hsize frames Hf); lia). cbn [bind].
  rewrite len_replicate, Z2Nat.id by (specialize (Hsize frames Hf); lia).
  fold result.
  destruct (Z.ltb_spec (len all) blockAlign) as [Hshort | Hlong].
  - assert (Hz : frames = 0) by (subst frames; apply Z.div_small; lia).
    subst whole. rewrite Hz. cbn [Z.mul Z.to_nat take]. reflexivity.
  - assert (Hpos : 0 < frames) by nia.
    destruct (index_total (take whole all) 0) as [b0 ->]; [lia|]. cbn [bind].
    destruct (index_total (replicate (Z.to_nat (estimatedSize frames)) x00) 0) as [o0 ->].
    { rewrite len_replicate. specialize (Hsize frames Hf). lia. }
    cbn [bind].
    pose proof (Hlame (take whole all) frames (estimatedSize frames) (Hsize frames Hf)) as Hr.
    fold result in Hr. destruct result as [bytesOut out']. cbn [fst snd] in *.
    unfold slice_to. rewrite len_replicate, Z2Nat.id by (specialize (Hsize frames Hf); lia).
    replace ((0 <=? bytesOut) && (bytesOut <=? estimatedSize frames)) with true
      by (symmetry; apply andb_true_iff; split; apply Z.leb_le; lia).
    reflexivity.
Qed.

Lemma Encode_whole_frames_witness :
  let lame := fun (pcm : list byte) (n size : Z) => (0, replicate (Z.to_nat size) x00) in
  let e := {| remainder := [x01] |} in
  let buf := [x02; x03; x04] in
  let blockAlign := 2 * 1 in
  let all := remainder e ++ buf in
  let frames := len all / blockAlign in
  let whole := Z.to_nat (frames * blockAlign) in
  let result := lame (take whole all) frames (frames + 7200) in
  Encode 1 (fun n => n + 7200) lame e buf
  = if len all =? 0 then Ok ([], e)
    else if len all <? blockAlign then Panic (IndexOutOfRange 0 0)
    else Ok (take (Z.to_nat (fst result)) (snd result), {| remainder := drop whole all |}).
Proof.
  apply (Encode_whole_frames 1 (fun n => n + 7200)
           (fun (pcm : list byte) (n size : Z) => (0, replicate (Z.to_nat size) x00))
           {| remainder := [x01] |} [x02; x03; x04]).
  - lia.
  - reflexivity.
  - intros n Hn. lia.
  - intros pcm n size Hs. cbn [fst]. lia.
Defined.
